(** * gpgpu-Schrodinger: the FDTD kernels and their drivers, in Rocq

    The repository integrates the one dimensional time dependent Schrodinger
    equation on a uniform grid.  The numerical work is done by WGSL compute
    shaders (WebGPU) and, in the older variant, GLSL fragment shaders (WebGL);
    the JavaScript classes around them own the buffers and choose which buffer
    each dispatch reads and writes.

    Conventions of the model:
    - a WGSL [u32] is a [Z] in [0, 2^32) and its arithmetic wraps, written out
      with [U32.add], [U32.sub], [U32.mul];
    - an [f32] (and a JavaScript Number holding a measurement) is a real
      number: the model is the exact arithmetic the floating point code
      approximates;
    - a storage buffer of [vec2f] is a list; a load outside the array returns
      whatever the device chooses ([oobLoad]), a store outside it is dropped;
    - one dispatch is the sequence of its invocations in index order. *)

From Stdlib Require Import ZArith Reals Lra Lia List String.
From stdpp Require Import base list strings gmap.

Open Scope Z_scope.

Abbreviation f32 := R (only parsing).

(** ** WGSL values *)

Module U32.
Definition modulus : Z := 2 ^ 32.
Definition wrap (z : Z) : Z := z mod modulus.
Definition add (a b : Z) : Z := wrap (a + b).
Definition sub (a b : Z) : Z := wrap (a - b).
Definition mul (a b : Z) : Z := wrap (a * b).
(** [f32(u)] *)
Definition to_f32 (a : Z) : f32 := IZR a.
End U32.

Record vec2f := Vec2 { vx : f32; vy : f32 }.

Definition vadd (a b : vec2f) : vec2f := Vec2 (vx a + vx b) (vy a + vy b).
Definition vsub (a b : vec2f) : vec2f := Vec2 (vx a - vx b) (vy a - vy b).
Definition vscale (s : f32) (a : vec2f) : vec2f := Vec2 (s * vx a) (s * vy a).

Abbreviation buffer := (list vec2f).

(** What the device answers to a load outside an array. *)
Record Device := {
  oobLoad : Z -> vec2f;
  oobPotential : Z -> f32
}.

Definition inBounds {A} (b : list A) (i : Z) : Prop :=
  0 <= i < Z.of_nat (List.length b).

Definition load (d : Device) (b : buffer) (i : Z) : vec2f :=
  default (oobLoad d i) (b !! Z.to_nat i).

Definition loadPotential (d : Device) (v : list f32) (i : Z) : f32 :=
  default (oobPotential d i) (v !! Z.to_nat i).

(** [b[i] = v], [b[i].x = v] and [b[i].y = v] *)
Definition store (b : buffer) (i : Z) (v : vec2f) : buffer :=
  <[Z.to_nat i := v]> b.
Definition storeX (b : buffer) (i : Z) (v : f32) : buffer :=
  alter (fun e => Vec2 v (vy e)) (Z.to_nat i) b.
Definition storeY (b : buffer) (i : Z) (v : f32) : buffer :=
  alter (fun e => Vec2 (vx e) v) (Z.to_nat i) b.

(** [dispatchWorkgroups(count)] of a kernel with [@workgroup_size(size)]:
    invocation ids 0 .. size*count-1. *)
Definition dispatch {St} (size count : nat) (kernel : Z -> St -> St) (s : St) : St :=
  fold_left (fun s i => kernel (Z.of_nat i) s) (seq 0 (size * count)) s.

(** [Math.ceil(xResolution / 64)] for a non negative integer resolution *)
Definition workgroupCount (xResolution : Z) (size : Z) : nat :=
  Z.to_nat ((xResolution + size - 1) / size).

(** The neighbour indices every stencil kernel computes:
    [min(index+1, xResolution-1)] and [max(index-1, 0)], on [u32]. *)
Definition indexPlusDx (xResolution index : Z) : Z :=
  Z.min (U32.add index 1) (U32.sub xResolution 1).
Definition indexMinusDx (index : Z) : Z :=
  Z.max (U32.sub index 1) 0.

(** ** SchrodingerTuned.js: the two buffer WebGPU solver *)

Module TwoBuffer.

Record Parameters := {
  dt : f32;
  xResolution : Z;
  length : f32
}.

Definition dx (p : Parameters) : f32 :=
  length p / U32.to_f32 (U32.sub (xResolution p) 1).

(** The indices of [waveFunction] one invocation loads. *)
Definition loads (p : Parameters) (index : Z) : list Z :=
  if xResolution p <=? index then []
  else [index; indexPlusDx (xResolution p) index; indexMinusDx index].

(** One invocation of [timeStep]: the new [updatedWaveFunction]. *)
Definition timeStep (d : Device) (p : Parameters)
    (waveFunction updatedWaveFunction : buffer) (index : Z) : buffer :=
  if xResolution p <=? index then updatedWaveFunction
  else
    let dx := dx p in
    let dx22 := (dx * dx * 2)%R in
    let waveFunctionAtX := load d waveFunction index in
    let waveFunctionAtXPlusDx :=
      load d waveFunction (indexPlusDx (xResolution p) index) in
    let waveFunctionAtXMinusDx :=
      load d waveFunction (indexMinusDx index) in
    let u1 := storeX updatedWaveFunction index
      (vx waveFunctionAtX
       - ((vy waveFunctionAtXPlusDx - 2 * vy waveFunctionAtX
           + vy waveFunctionAtXMinusDx) / dx22) * dt p)%R in
    storeY u1 index
      (vy waveFunctionAtX
       + ((vx waveFunctionAtXPlusDx - 2 * vx waveFunctionAtX
           + vx waveFunctionAtXMinusDx) / dx22) * dt p)%R.

(** The two wave function buffers and the bind groups of [init]. *)
Inductive bufferId := WaveFunction0 | WaveFunction1.

Record bindGroup := {
  binding0 : bufferId;  (* waveFunction, read *)
  binding1 : bufferId   (* updatedWaveFunction, written *)
}.

Definition waveFunctionBindGroup (j : nat) : bindGroup :=
  match j with
  | O => {| binding0 := WaveFunction0; binding1 := WaveFunction1 |}
  | _ => {| binding0 := WaveFunction1; binding1 := WaveFunction0 |}
  end.

(** [this.#waveFunctionBuffer0] and [this.#waveFunctionBuffer1] by number *)
Definition waveFunctionBuffer (j : nat) : bufferId :=
  match j with
  | O => WaveFunction0
  | _ => WaveFunction1
  end.

(** The compute pass being recorded: the group bound at slot 1 and the
    dispatches recorded so far, each with the group it runs with. *)
Record passEncoder := {
  slot1 : option bindGroup;
  recorded : list (bindGroup * nat)
}.

Definition beginComputePass : passEncoder :=
  {| slot1 := None; recorded := [] |}.
Definition setBindGroup1 (g : bindGroup) (e : passEncoder) : passEncoder :=
  {| slot1 := Some g; recorded := recorded e |}.
Definition dispatchWorkgroups (n : nat) (e : passEncoder) : passEncoder :=
  match slot1 e with
  | Some g => {| slot1 := slot1 e; recorded := recorded e ++ [(g, n)] |}
  | None => e
  end.

Record Solver := {
  params : Parameters;
  running : bool;
  (** every dispatch submitted to the device queue, oldest first *)
  submitted : list (bindGroup * nat)
}.

Definition stop (s : Solver) : Solver :=
  {| params := params s; running := false; submitted := submitted s |}.

(** [for (let i=0; i<count && this.#running; i++)], with [n = count - i]
    iterations left. *)
Fixpoint stepLoop (n i : nat) (s : Solver) (e : passEncoder) : passEncoder :=
  match n with
  | O => e
  | S n' =>
      if running s then
        stepLoop n' (S i) s
          (dispatchWorkgroups (workgroupCount (xResolution (params s)) 64)
             (setBindGroup1 (waveFunctionBindGroup (i mod 2)) e))
      else e
  end.

(** The dispatches one call of [step(count)] records. *)
Definition stepCommands (count : nat) (s : Solver) : list (bindGroup * nat) :=
  recorded (stepLoop count 0
              {| params := params s; running := true; submitted := submitted s |}
              beginComputePass).

Definition step (count : nat) (s : Solver) : Solver :=
  {| params := params s; running := true;
     submitted := submitted s ++ stepCommands count s |}.

(** The buffer the last submitted dispatch wrote. *)
Definition lastWritten (s : Solver) : option bufferId :=
  binding1 ∘ fst <$> last (submitted s).

End TwoBuffer.

(** ** The three buffer (leapfrog) WebGPU solver *)

Module Leapfrog.

Record Parameters := {
  dt : f32;
  xResolution : Z;
  length : f32;
  potential : list f32
}.

Definition dx (p : Parameters) : f32 :=
  length p / U32.to_f32 (U32.sub (xResolution p) 1).

(** One invocation of [timeStep]: the new [updatedWaveFunction]. *)
Definition timeStep (d : Device) (p : Parameters)
    (oldWaveFunction waveFunction updatedWaveFunction : buffer)
    (index : Z) : buffer :=
  if xResolution p <=? index then updatedWaveFunction
  else
    let dx := dx p in
    let dx2 := (dx * dx)%R in
    let twoV := (2 * loadPotential d (potential p) index)%R in
    let oldWaveFunctionAtX := load d oldWaveFunction index in
    let waveFunctionAtX := load d waveFunction index in
    let waveFunctionAtXPlusDx :=
      load d waveFunction (indexPlusDx (xResolution p) index) in
    let waveFunctionAtXMinusDx :=
      load d waveFunction (indexMinusDx index) in
    let u1 := storeX updatedWaveFunction index
      (vx oldWaveFunctionAtX
       - ((vy waveFunctionAtXPlusDx - 2 * vy waveFunctionAtX
           + vy waveFunctionAtXMinusDx) / dx2
          - twoV * vy waveFunctionAtX) * dt p)%R in
    storeY u1 index
      (vy oldWaveFunctionAtX
       + ((vx waveFunctionAtXPlusDx - 2 * vx waveFunctionAtX
           + vx waveFunctionAtXMinusDx) / dx2
          - twoV * vx waveFunctionAtX) * dt p)%R.

Inductive bufferId := WaveFunction0 | WaveFunction1 | WaveFunction2.

Record bindGroup := {
  binding0 : bufferId;  (* oldWaveFunction, read *)
  binding1 : bufferId;  (* waveFunction, read *)
  binding2 : bufferId   (* updatedWaveFunction, written *)
}.

Definition waveFunctionBindGroup (j : nat) : bindGroup :=
  match j with
  | 0%nat => {| binding0 := WaveFunction0; binding1 := WaveFunction1;
                binding2 := WaveFunction2 |}
  | 1%nat => {| binding0 := WaveFunction1; binding1 := WaveFunction2;
                binding2 := WaveFunction0 |}
  | _ => {| binding0 := WaveFunction2; binding1 := WaveFunction0;
            binding2 := WaveFunction1 |}
  end.

(** The group [step] binds for its [i]th dispatch. *)
Definition stepBindGroup (i : nat) : bindGroup :=
  waveFunctionBindGroup (i mod 3).

End Leapfrog.

(** ** The staggered time WebGPU solver: one buffer updated in place *)

Module Staggered.

Definition WORKGROUP_SIZE : Z := 64.

Record Parameters := {
  dt : f32;
  xResolution : Z;
  length : f32;
  potential : list f32
}.

Definition dx (p : Parameters) : f32 :=
  length p / U32.to_f32 (U32.sub (xResolution p) 1).

(** The two storage buffers of bind group 1. *)
Record buffers := {
  waveFunction : buffer;
  oldWaveFunction : buffer
}.

Definition imaginaryPartTimeStep (d : Device) (p : Parameters)
    (index : Z) (b : buffers) : buffers :=
  if xResolution p <=? index then b
  else
    let dx := dx p in
    let dx22 := (2 * dx * dx)%R in
    let V := loadPotential d (potential p) index in
    let waveFunctionAtX := load d (waveFunction b) index in
    let waveFunctionAtXPlusDx :=
      load d (waveFunction b) (indexPlusDx (xResolution p) index) in
    let waveFunctionAtXMinusDx :=
      load d (waveFunction b) (indexMinusDx index) in
    {| oldWaveFunction :=
         storeY (oldWaveFunction b) index (vy waveFunctionAtX);
       waveFunction :=
         storeY (waveFunction b) index
           (vy waveFunctionAtX
            + ((vx waveFunctionAtXPlusDx - 2 * vx waveFunctionAtX
                + vx waveFunctionAtXMinusDx) / dx22
               - V * vx waveFunctionAtX) * dt p)%R |}.

Definition realPartTimeStep (d : Device) (p : Parameters)
    (index : Z) (b : buffers) : buffers :=
  if xResolution p <=? index then b
  else
    let dx := dx p in
    let dx22 := (2 * dx * dx)%R in
    let V := loadPotential d (potential p) index in
    let waveFunctionAtX := load d (waveFunction b) index in
    let waveFunctionAtXPlusDx :=
      load d (waveFunction b) (indexPlusDx (xResolution p) index) in
    let waveFunctionAtXMinusDx :=
      load d (waveFunction b) (indexMinusDx index) in
    {| oldWaveFunction :=
         storeX (oldWaveFunction b) index (vx waveFunctionAtX);
       waveFunction :=
         storeX (waveFunction b) index
           (vx waveFunctionAtX
            - ((vy waveFunctionAtXPlusDx - 2 * vy waveFunctionAtX
                + vy waveFunctionAtXMinusDx) / dx22
               - V * vy waveFunctionAtX) * dt p)%R |}.

(** The values the two kernels assign at [index], written over the wave
    function [wf] the invocation finds: the real part from the imaginary
    parts of the point and its neighbours, and conversely. *)
Definition nextRealPart (d : Device) (p : Parameters) (wf : buffer)
    (index : Z) : f32 :=
  (vx (load d wf index)
   - ((vy (load d wf (indexPlusDx (xResolution p) index))
       - 2 * vy (load d wf index)
       + vy (load d wf (indexMinusDx index))) / (2 * dx p * dx p)
      - loadPotential d (potential p) index * vy (load d wf index))
     * dt p)%R.

Definition nextImaginaryPart (d : Device) (p : Parameters) (wf : buffer)
    (index : Z) : f32 :=
  (vy (load d wf index)
   + ((vx (load d wf (indexPlusDx (xResolution p) index))
       - 2 * vx (load d wf index)
       + vx (load d wf (indexMinusDx index))) / (2 * dx p * dx p)
      - loadPotential d (potential p) index * vx (load d wf index))
     * dt p)%R.

(** The two compute passes [step] records for each iteration. *)
Definition realPass (d : Device) (p : Parameters) : buffers -> buffers :=
  dispatch (Z.to_nat WORKGROUP_SIZE)
    (workgroupCount (xResolution p) WORKGROUP_SIZE) (realPartTimeStep d p).

Definition imaginaryPass (d : Device) (p : Parameters) : buffers -> buffers :=
  dispatch (Z.to_nat WORKGROUP_SIZE)
    (workgroupCount (xResolution p) WORKGROUP_SIZE) (imaginaryPartTimeStep d p).

End Staggered.


(** ** The WebGPU Mur boundary for the three buffer solver *)

Module MurBoundary.

(** [Math.sqrt(0.5*E)] of the constructor *)
Definition phaseVelocityOf (E : R) : R := sqrt (0.5 * E).

Definition dx (p : Leapfrog.Parameters) : f32 :=
  Leapfrog.length p / U32.to_f32 (U32.sub (Leapfrog.xResolution p) 1).

(** [(phaseVelocity*parameters.dt-dx)/(phaseVelocity*parameters.dt+dx)] *)
Definition coefficient (p : Leapfrog.Parameters) (phaseVelocity : f32) : f32 :=
  ((phaseVelocity * Leapfrog.dt p - dx p)
   / (phaseVelocity * Leapfrog.dt p + dx p))%R.

Definition sotrageBufferIndex (p : Leapfrog.Parameters) (index : Z) : Z :=
  U32.mul index (U32.sub (Leapfrog.xResolution p) 1).

Definition offset (index : Z) : Z := U32.sub 1 (U32.mul 2 index).

(** One invocation of [recomputeBoundary]: the new [updatedWaveFunction]. *)
Definition recomputeBoundary (d : Device) (p : Leapfrog.Parameters)
    (phaseVelocity : f32) (waveFunction : buffer) (index : Z)
    (updatedWaveFunction : buffer) : buffer :=
  let sotrageBufferIndex := sotrageBufferIndex p index in
  let offset := offset index in
  store updatedWaveFunction sotrageBufferIndex
    (vadd (load d waveFunction (U32.add sotrageBufferIndex offset))
       (vscale (coefficient p phaseVelocity)
          (vsub (load d updatedWaveFunction (U32.add sotrageBufferIndex offset))
                (load d waveFunction sotrageBufferIndex)))).

(** [makeComputePass]: one workgroup of two invocations. *)
Definition computePass (d : Device) (p : Leapfrog.Parameters)
    (phaseVelocity : f32) (waveFunction : buffer) : buffer -> buffer :=
  dispatch 2 1 (recomputeBoundary d p phaseVelocity waveFunction).

End MurBoundary.

(** ** The WebGPU Mur boundary for the staggered solver *)

Module StaggeredMurBoundary.

Definition dx (p : Staggered.Parameters) : f32 :=
  Staggered.length p / U32.to_f32 (U32.sub (Staggered.xResolution p) 1).

Definition coefficient (p : Staggered.Parameters) (phaseVelocity : f32) : f32 :=
  ((phaseVelocity * Staggered.dt p - dx p)
   / (phaseVelocity * Staggered.dt p + dx p))%R.

Definition sotrageBufferIndex (p : Staggered.Parameters) (index : Z) : Z :=
  U32.mul index (U32.sub (Staggered.xResolution p) 1).

Definition offset (index : Z) : Z := U32.sub 1 (U32.mul 2 index).

Definition recomputeRealBoundary (d : Device) (p : Staggered.Parameters)
    (phaseVelocity : f32) (index : Z) (b : Staggered.buffers)
    : Staggered.buffers :=
  let sotrageBufferIndex := sotrageBufferIndex p index in
  let offset := offset index in
  {| Staggered.oldWaveFunction := Staggered.oldWaveFunction b;
     Staggered.waveFunction :=
       storeX (Staggered.waveFunction b) sotrageBufferIndex
         (vx (load d (Staggered.oldWaveFunction b)
                (U32.add sotrageBufferIndex offset))
          + coefficient p phaseVelocity
            * (vx (load d (Staggered.waveFunction b)
                     (U32.add sotrageBufferIndex offset))
               - vx (load d (Staggered.oldWaveFunction b)
                       sotrageBufferIndex)))%R |}.

Definition recomputeImaginaryBoundary (d : Device) (p : Staggered.Parameters)
    (phaseVelocity : f32) (index : Z) (b : Staggered.buffers)
    : Staggered.buffers :=
  let sotrageBufferIndex := sotrageBufferIndex p index in
  let offset := offset index in
  {| Staggered.oldWaveFunction := Staggered.oldWaveFunction b;
     Staggered.waveFunction :=
       storeY (Staggered.waveFunction b) sotrageBufferIndex
         (vy (load d (Staggered.oldWaveFunction b)
                (U32.add sotrageBufferIndex offset))
          + coefficient p phaseVelocity
            * (vy (load d (Staggered.waveFunction b)
                     (U32.add sotrageBufferIndex offset))
               - vy (load d (Staggered.oldWaveFunction b)
                       sotrageBufferIndex)))%R |}.

Definition realComputePass (d : Device) (p : Staggered.Parameters)
    (phaseVelocity : f32) : Staggered.buffers -> Staggered.buffers :=
  dispatch 2 1 (recomputeRealBoundary d p phaseVelocity).

Definition imaginaryComputePass (d : Device) (p : Staggered.Parameters)
    (phaseVelocity : f32) : Staggered.buffers -> Staggered.buffers :=
  dispatch 2 1 (recomputeImaginaryBoundary d p phaseVelocity).

End StaggeredMurBoundary.

(** ** The free particle Gaussian wave packet (initializer and oracle) *)

Module FreeParticle.

Record WavePacketParameters := {
  x0 : f32;
  w : f32;
  k : f32
}.

(** The shader constant [PI : f32 = 3.1415926535897932384626433832795] is pi
    written to 32 digits, which an f32 rounds to the float nearest to pi; in
    exact arithmetic it is pi. *)
Definition PI : f32 := Rtrigo1.PI.

(** WGSL [pow] on a positive base *)
Definition pow (x y : f32) : f32 := Rpower x y.

Definition computePsi (p : TwoBuffer.Parameters) (wp : WavePacketParameters)
    (globalID : Z) (t : f32) : vec2f :=
  let x := (U32.to_f32 globalID * TwoBuffer.length p
            / U32.to_f32 (U32.sub (TwoBuffer.xResolution p) 1))%R in
  let w2 := (w wp * w wp)%R in
  let p0 := k wp in
  let deltaX := (x - x0 wp)%R in
  let theta := (atan (2 * t / w2) / 2)%R in
  let phi := (- theta - p0 * p0 * t / 2)%R in
  let a := (w2 * w2 + 4 * t * t)%R in
  let b := ((deltaX - p0 * t) * (deltaX - p0 * t))%R in
  let c := (phi + p0 * deltaX + 2 * t * b / a)%R in
  let phase := Vec2 (cos c) (sin c) in
  let magnitude := (pow (2 * w2 / (PI * a)) 0.25 * exp (- b * w2 / a))%R in
  vscale magnitude phase.

(** [computeInitialValues] and [computeTimeValues], one invocation each. *)
Definition computeInitialValues (p : TwoBuffer.Parameters)
    (wp : WavePacketParameters) (index : Z)
    (b : buffer * buffer) : buffer * buffer :=
  if TwoBuffer.xResolution p <=? index then b
  else (store (fst b) index (computePsi p wp index 0),
        store (snd b) index (computePsi p wp index (TwoBuffer.dt p))).


(** The closed form of the free particle solution as the specification
    writes it, at grid point [i] of [N] over the length [L]. *)
Definition gaussianWavePacket (L : R) (N : Z) (x0 w k : R) (i : Z) (t : R)
    : R * R :=
  let x := (IZR i * L / IZR (N - 1))%R in
  let theta := (0.5 * atan (2 * t / w ^ 2))%R in
  let phi := (- theta - k ^ 2 * t / 2)%R in
  let a := (w ^ 4 + 4 * t ^ 2)%R in
  let b := ((x - x0 - k * t) ^ 2)%R in
  let c := (phi + k * (x - x0) + 2 * t * b / a)%R in
  let amplitude :=
    (sqrt (sqrt (2 * w ^ 2 / (Rtrigo1.PI * a))) * exp (- b * w ^ 2 / a))%R in
  ((amplitude * cos c)%R, (amplitude * sin c)%R).

End FreeParticle.


(** ** The workgroup tuned WebGPU solver and WebGPUCompute.js *)

Module Tuned.

Definition workgroupSizeXLimitName : string := "maxComputeWorkgroupSizeX".
Definition invocationsPerWorkgroupLimitName : string :=
  "maxComputeInvocationsPerWorkgroup".

(** What a JavaScript call can throw here. *)
Inductive error :=
| WebGPUNotSupported
| RequestAdapterFailed
| LimitUnavailable (limitName : string) (required : Z).

Inductive outcome (A : Type) :=
| Returned (a : A)
| Thrown (e : error).
Arguments Returned {A} a.
Arguments Thrown {A} e.

(** The browser: whether [navigator.gpu] exists, and the adapter
    [requestAdapter] resolves to ([None] is null) given by its limits. *)
Record Navigator := {
  gpu : bool;
  adapter : option (gmap string Z)
}.

(** [WebGPUCompute.checkLimit]: [adapter.limits[limitName] >= targetValue];
    a missing limit is undefined, and the comparison is false. *)
Definition checkLimit (nav : Navigator) (limitName : string) (targetValue : Z)
    : outcome bool :=
  match adapter nav with
  | None => Thrown RequestAdapterFailed
  | Some limits =>
      Returned (match limits !! limitName with
                | Some limitValue => targetValue <=? limitValue
                | None => false
                end)
  end.

Record Solver := {
  dt : f32;
  xResolution : Z;
  length : f32;
  iterations : Z;
  (** [None] is undefined: the object was not initialized *)
  workgroupSizeLimitAvailable : option bool;
  invocationLimitAvailable : option bool;
  (** whether the device, pipeline and buffers were created *)
  device : bool;
  (** the number of dispatches submitted to the queue *)
  submitted : nat
}.

Definition constructor (dt : f32) (xResolution : Z) (length : f32)
    (iterations : Z) : Solver :=
  {| dt := dt; xResolution := xResolution; length := length;
     iterations := iterations;
     workgroupSizeLimitAvailable := None; invocationLimitAvailable := None;
     device := false; submitted := 0 |}.

Definition isWorkgroupSizeLimitAvailable (s : Solver) : option bool :=
  workgroupSizeLimitAvailable s.
Definition isInvocationLimitAvailable (s : Solver) : option bool :=
  invocationLimitAvailable s.

(** The spatial step of the [timeSteps] kernel; its [xResolution] is the
    pipeline constant, which [init] sets to the solver's resolution. *)
Definition dx (s : Solver) : f32 :=
  length s / U32.to_f32 (U32.sub (xResolution s) 1).

Definition init (nav : Navigator) (s : Solver) : outcome Solver :=
  if negb (gpu nav) then Thrown WebGPUNotSupported
  else
    match checkLimit nav workgroupSizeXLimitName (xResolution s) with
    | Thrown e => Thrown e
    | Returned wg =>
        match checkLimit nav invocationsPerWorkgroupLimitName (xResolution s) with
        | Thrown e => Thrown e
        | Returned inv =>
            Returned
              {| dt := dt s; xResolution := xResolution s; length := length s;
                 iterations := iterations s;
                 workgroupSizeLimitAvailable := Some wg;
                 invocationLimitAvailable := Some inv;
                 device := if wg && inv then true else device s;
                 submitted := submitted s |}
        end
    end.

(** JavaScript [!flag] for a flag that may be undefined *)
Definition jsNot (flag : option bool) : bool :=
  match flag with
  | Some true => false
  | _ => true
  end.

Definition step (s : Solver) : outcome Solver :=
  if jsNot (workgroupSizeLimitAvailable s) then
    Thrown (LimitUnavailable workgroupSizeXLimitName (xResolution s))
  else if jsNot (invocationLimitAvailable s) then
    Thrown (LimitUnavailable invocationsPerWorkgroupLimitName (xResolution s))
  else
    Returned
      {| dt := dt s; xResolution := xResolution s; length := length s;
         iterations := iterations s;
         workgroupSizeLimitAvailable := workgroupSizeLimitAvailable s;
         invocationLimitAvailable := invocationLimitAvailable s;
         device := device s;
         submitted := S (submitted s) |}.

End Tuned.

(** ** Schrodinger.js and the other WebGL (GLSL) shaders *)

Module WebGL.

(** [dx = length/float(xResolution)] of the fragment shader of
    Schrodinger.js *)
Definition dx (length : R) (xResolution : Z) : R :=
  length / IZR xResolution.

(** The same line of the shaders of SchrodingerMurBoundary.js,
    SchrodingerLeapfrogPacked.js and the WebGL MurBoundary. *)
Definition dxLeapfrog (length : R) (xResolution : Z) : R :=
  length / IZR xResolution.
Definition dxLeapfrogPacked (length : R) (xResolution : Z) : R :=
  length / IZR xResolution.
Definition dxMurBoundary (length : R) (xResolution : Z) : R :=
  length / IZR xResolution.

(** Handles of the WebGL objects *)
Definition WebGLTexture := nat.
Inductive WebGLFramebuffer := attachFrameBuffer (t : WebGLTexture).

(** One draw call: the framebuffer rendered to and the texture sampled. *)
Record draw := {
  target : option WebGLFramebuffer;
  source : option WebGLTexture
}.

Record Solver := {
  step : nat;
  textures : list WebGLTexture;
  fbos : list WebGLFramebuffer;
  (** the draw calls issued, newest first *)
  draws : list draw
}.

(** The constructor leaves both arrays empty and [step = 0]. *)
Definition constructor : Solver :=
  {| step := 0; textures := []; fbos := []; draws := [] |}.

Definition setInitialTextures (texture0 texture1 : WebGLTexture) (s : Solver)
    : Solver :=
  {| step := step s;
     textures := [texture0; texture1];
     fbos := [attachFrameBuffer texture0; attachFrameBuffer texture1];
     draws := draws s |}.

Definition timestep (s : Solver) : Solver :=
  let framebuffer := fbos s !! step s in
  let step' := ((step s + 1) mod 2)%nat in
  {| step := step';
     textures := textures s;
     fbos := fbos s;
     draws := {| target := framebuffer; source := textures s !! step' |}
              :: draws s |}.

Definition getRenderedTexture (s : Solver) : option WebGLTexture :=
  textures s !! ((step s + 1) mod 2)%nat.

Definition getSourceFramebuffer (s : Solver) : option WebGLFramebuffer :=
  fbos s !! ((step s + 1) mod 2)%nat.

(** [k] calls of [timestep] *)
Fixpoint timesteps (k : nat) (s : Solver) : Solver :=
  match k with
  | O => s
  | S k' => timestep (timesteps k' s)
  end.

(** The texture the most recent draw call rendered to. *)
Definition lastRenderTarget (s : Solver) : option WebGLTexture :=
  match draws s with
  | {| target := Some (attachFrameBuffer t) |} :: _ => Some t
  | _ => None
  end.

End WebGL.

(** ** DumpSchrodinger.js: the norm of a wave function read back *)

Module DumpSchrodinger.

(** [wavefunction[j]] of a Float32Array; the routines below read inside the
    array whenever it holds at least one (real, imaginary) pair. *)
Definition at_ (wavefunction : list R) (j : nat) : R :=
  default 0%R (wavefunction !! j).

Definition simpson (wavefunction : list R) (length : R) : R :=
  let nPoints := (List.length wavefunction / 2)%nat in
  let sum := (at_ wavefunction 0 * at_ wavefunction 0
              + at_ wavefunction 1 * at_ wavefunction 1)%R in
  (* for (let i=1; i<nPoints-2; i++) *)
  let sum :=
    fold_left
      (fun sum i =>
         let currentIndex := (2 * i)%nat in
         (sum + INR ((i mod 2 + 1) * 2)
                * (at_ wavefunction currentIndex * at_ wavefunction currentIndex
                   + at_ wavefunction (currentIndex + 1)
                     * at_ wavefunction (currentIndex + 1)))%R)
      (seq 1 (nPoints - 2 - 1)) sum in
  let lastPointIndex := (2 * (nPoints - 1))%nat in
  let sum := (sum + (at_ wavefunction lastPointIndex * at_ wavefunction lastPointIndex
                     + at_ wavefunction (lastPointIndex + 1)
                       * at_ wavefunction (lastPointIndex + 1)))%R in
  (length / (3 * INR (nPoints - 1)) * sum)%R.

Definition integrateWaveFunction (wavefunction : list R) (length : R) : R :=
  let nIntervals := (List.length wavefunction / 2 - 1)%nat in
  let dx := (length / INR nIntervals)%R in
  (* for (let i=0; i<nIntervals; i++) *)
  fold_left
    (fun sum i =>
       (sum + ((at_ wavefunction (2 * i) * at_ wavefunction (2 * i)
                + at_ wavefunction (2 * i + 1) * at_ wavefunction (2 * i + 1)
                + at_ wavefunction (2 * i + 2) * at_ wavefunction (2 * i + 2)
                + at_ wavefunction (2 * i + 3) * at_ wavefunction (2 * i + 3))
               / 2) * dx)%R)
    (seq 0 nIntervals) 0%R.

(** The quadrature rules as the specification states them, over the [N]
    samples of |Psi|^2 given by [rho]. *)
Fixpoint sumTo (n : nat) (f : nat -> R) : R :=
  match n with
  | O => 0%R
  | S n' => (sumTo n' f + f n')%R
  end.

Definition trapezoidalRule (N : nat) (dx : R) (rho : nat -> R) : R :=
  (dx * sumTo (N - 1) (fun i => (rho i + rho (i + 1)%nat) / 2))%R.

Definition simpsonWeight (N i : nat) : R :=
  if (i =? 0)%nat || (i =? N - 1)%nat then 1%R
  else if Nat.odd i then 4%R else 2%R.

Definition simpsonRule (N : nat) (dx : R) (rho : nat -> R) : R :=
  (dx / 3 * sumTo N (fun i => simpsonWeight N i * rho i))%R.

(** |Psi_i|^2 of the interleaved array *)
Definition density (wavefunction : list R) (i : nat) : R :=
  (at_ wavefunction (2 * i) * at_ wavefunction (2 * i)
   + at_ wavefunction (2 * i + 1) * at_ wavefunction (2 * i + 1))%R.

End DumpSchrodinger.


(** ** Sample inputs *)

Module Sample.

(** A grid of four points over a length of three, so that dx = 1. *)
Definition grid4 : TwoBuffer.Parameters :=
  {| TwoBuffer.dt := 1; TwoBuffer.xResolution := 4; TwoBuffer.length := 3 |}.

Definition zeros4 : buffer := [Vec2 0 0; Vec2 0 0; Vec2 0 0; Vec2 0 0].

(** A device that answers (0, 2) to every load outside an array. *)
Definition device02 : Device :=
  {| oobLoad := fun _ => Vec2 0 2; oobPotential := fun _ => 0%R |}.

(** A device that answers zero to every load outside an array. *)
Definition device0 : Device :=
  {| oobLoad := fun _ => Vec2 0 0; oobPotential := fun _ => 0%R |}.

End Sample.

Module SampleAdapter.

(** An adapter whose workgroups hold at most 256 invocations. *)
Definition limits256 : gmap string Z :=
  {[ Tuned.workgroupSizeXLimitName := 256;
     Tuned.invocationsPerWorkgroupLimitName := 256 ]}.

Definition browser256 : Tuned.Navigator :=
  {| Tuned.gpu := true; Tuned.adapter := Some limits256 |}.

(** A solver asking for workgroups of 1024 invocations. *)
Definition solver1024 : Tuned.Solver := Tuned.constructor 1 1024 3 250.

End SampleAdapter.

Module SampleBoundary.

(** Four points over a length of three with dt = 1: dx = 1, so a phase
    velocity of 1 gives vp*dt = dx. *)
Definition leapfrog4 : Leapfrog.Parameters :=
  {| Leapfrog.dt := 1; Leapfrog.xResolution := 4; Leapfrog.length := 3;
     Leapfrog.potential := [0; 0; 0; 0]%R |}.

Definition staggered4 : Staggered.Parameters :=
  {| Staggered.dt := 1; Staggered.xResolution := 4; Staggered.length := 3;
     Staggered.potential := [0; 0; 0; 0]%R |}.

Definition current4 : buffer := [Vec2 1 2; Vec2 3 4; Vec2 5 6; Vec2 7 8].

Definition buffers4 : Staggered.buffers :=
  {| Staggered.waveFunction := Sample.zeros4;
     Staggered.oldWaveFunction := current4 |}.

End SampleBoundary.

Module SampleStaggered.

(** A wave function with one non zero imaginary part, at point 2. *)
Definition start4 : Staggered.buffers :=
  {| Staggered.waveFunction := [Vec2 0 0; Vec2 0 0; Vec2 0 1; Vec2 0 0];
     Staggered.oldWaveFunction := Sample.zeros4 |}.

End SampleStaggered.

Module SampleNorm.

(** Three samples, Psi = (0, 1, 0), over a length of two: dx = 1. *)
Definition spike3 : list R := [0; 0; 1; 0; 0; 0]%R.

End SampleNorm.

(** ** Executing the dispatches of the two buffer solver *)

Module TwoBufferRun.

(** The contents of [waveFunctionBuffer0] and [waveFunctionBuffer1]. *)
Record memory := {
  waveFunction0 : buffer;
  waveFunction1 : buffer
}.

Definition read (m : memory) (b : TwoBuffer.bufferId) : buffer :=
  match b with
  | TwoBuffer.WaveFunction0 => waveFunction0 m
  | TwoBuffer.WaveFunction1 => waveFunction1 m
  end.

Definition write (m : memory) (b : TwoBuffer.bufferId) (v : buffer) : memory :=
  match b with
  | TwoBuffer.WaveFunction0 =>
      {| waveFunction0 := v; waveFunction1 := waveFunction1 m |}
  | TwoBuffer.WaveFunction1 =>
      {| waveFunction0 := waveFunction0 m; waveFunction1 := v |}
  end.

(** [dispatchWorkgroups(workgroups)] of the [timeStep] pipeline, whose
    workgroups hold 64 invocations: the new [updatedWaveFunction]. *)
Definition pass (d : Device) (p : TwoBuffer.Parameters) (workgroups : nat)
    (waveFunction updatedWaveFunction : buffer) : buffer :=
  dispatch 64 workgroups
    (fun index u => TwoBuffer.timeStep d p waveFunction u index)
    updatedWaveFunction.

(** One recorded dispatch, run with the bind group it was recorded with. *)
Definition runDispatch (d : Device) (p : TwoBuffer.Parameters)
    (c : TwoBuffer.bindGroup * nat) (m : memory) : memory :=
  write m (TwoBuffer.binding1 (fst c))
    (pass d p (snd c)
       (read m (TwoBuffer.binding0 (fst c)))
       (read m (TwoBuffer.binding1 (fst c)))).

(** The submitted dispatches run in the order they were recorded. *)
Definition run (d : Device) (p : TwoBuffer.Parameters)
    (commands : list (TwoBuffer.bindGroup * nat)) (m : memory) : memory :=
  fold_left (fun m c => runDispatch d p c m) commands m.

End TwoBufferRun.

(** ** The [timeSteps] kernel of the workgroup tuned solver *)

Module TunedKernel.

(** One half of the loop body for one invocation: read [source] at the point
    and its neighbours, write [target] at the point.  [xResolution] is the
    pipeline constant; there is no guard on the index. *)
Definition halfStep (d : Device) (p : TwoBuffer.Parameters) (xResolution : Z)
    (source target : buffer) (index : Z) : buffer :=
  let dx := (TwoBuffer.length p / U32.to_f32 (U32.sub xResolution 1))%R in
  let dx22 := (dx * dx * 2)%R in
  let waveFunctionAtX := load d source index in
  let waveFunctionAtXPlusDx := load d source (indexPlusDx xResolution index) in
  let waveFunctionAtXMinusDx := load d source (indexMinusDx index) in
  let u1 := storeX target index
    (vx waveFunctionAtX
     - ((vy waveFunctionAtXPlusDx - 2 * vy waveFunctionAtX
         + vy waveFunctionAtXMinusDx) / dx22) * TwoBuffer.dt p)%R in
  storeY u1 index
    (vy waveFunctionAtX
     + ((vx waveFunctionAtXPlusDx - 2 * vx waveFunctionAtX
         + vx waveFunctionAtXMinusDx) / dx22) * TwoBuffer.dt p)%R.

(** The single workgroup of [xResolution] invocations between two
    [storageBarrier()]s: every invocation runs the same half of the body. *)
Definition phase (d : Device) (p : TwoBuffer.Parameters) (xResolution : Z)
    (source target : buffer) : buffer :=
  dispatch (Z.to_nat xResolution) 1
    (fun index u => halfStep d p xResolution source u index) target.

(** [for (var i=0; i<iterations; i++)]: each turn writes
    [updatedWaveFunction] from [waveFunction], then [waveFunction] from
    [updatedWaveFunction]. *)
Fixpoint loop (d : Device) (p : TwoBuffer.Parameters) (xResolution : Z)
    (n : nat) (m : TwoBufferRun.memory) : TwoBufferRun.memory :=
  match n with
  | O => m
  | S n' =>
      let updatedWaveFunction :=
        phase d p xResolution (TwoBufferRun.waveFunction0 m)
          (TwoBufferRun.waveFunction1 m) in
      let waveFunction :=
        phase d p xResolution updatedWaveFunction
          (TwoBufferRun.waveFunction0 m) in
      loop d p xResolution n'
        {| TwoBufferRun.waveFunction0 := waveFunction;
           TwoBufferRun.waveFunction1 := updatedWaveFunction |}
  end.

(** The dispatch of [step()]: bind group 1 holds buffer 0 as [waveFunction]
    and buffer 1 as [updatedWaveFunction]. *)
Definition timeSteps (d : Device) (p : TwoBuffer.Parameters)
    (xResolution iterations : Z) (m : TwoBufferRun.memory)
    : TwoBufferRun.memory :=
  loop d p xResolution (Z.to_nat iterations) m.

(** The parameters buffer and the pipeline constants [init] writes. *)
Definition parametersOf (s : Tuned.Solver) : TwoBuffer.Parameters :=
  {| TwoBuffer.dt := Tuned.dt s;
     TwoBuffer.xResolution := Tuned.xResolution s;
     TwoBuffer.length := Tuned.length s |}.

End TunedKernel.

(** ** [step] of the three buffer (leapfrog) WebGPU solver *)

Module LeapfrogSolver.

Record passEncoder := {
  slot1 : option Leapfrog.bindGroup;
  recorded : list (Leapfrog.bindGroup * nat)
}.

Definition beginComputePass : passEncoder :=
  {| slot1 := None; recorded := [] |}.
Definition setBindGroup1 (g : Leapfrog.bindGroup) (e : passEncoder)
    : passEncoder :=
  {| slot1 := Some g; recorded := recorded e |}.
Definition dispatchWorkgroups (n : nat) (e : passEncoder) : passEncoder :=
  match slot1 e with
  | Some g => {| slot1 := slot1 e; recorded := recorded e ++ [(g, n)] |}
  | None => e
  end.

Record Solver := {
  params : Leapfrog.Parameters;
  running : bool;
  (** every dispatch submitted to the device queue, oldest first *)
  submitted : list (Leapfrog.bindGroup * nat)
}.

Definition stop (s : Solver) : Solver :=
  {| params := params s; running := false; submitted := submitted s |}.

(** [for (let i=0; i<count && this.#running; i++)], with [n = count - i]
    iterations left. *)
Fixpoint stepLoop (n i : nat) (s : Solver) (e : passEncoder) : passEncoder :=
  match n with
  | O => e
  | S n' =>
      if running s then
        stepLoop n' (S i) s
          (dispatchWorkgroups
             (workgroupCount (Leapfrog.xResolution (params s)) 64)
             (setBindGroup1 (Leapfrog.waveFunctionBindGroup (i mod 3)) e))
      else e
  end.

Definition stepCommands (count : nat) (s : Solver)
    : list (Leapfrog.bindGroup * nat) :=
  recorded (stepLoop count 0
              {| params := params s; running := true;
                 submitted := submitted s |}
              beginComputePass).

Definition step (count : nat) (s : Solver) : Solver :=
  {| params := params s; running := true;
     submitted := submitted s ++ stepCommands count s |}.

(** [this.#waveFunctionBuffer0], [1] and [2] by number *)
Definition waveFunctionBuffer (j : nat) : Leapfrog.bufferId :=
  match j with
  | 0%nat => Leapfrog.WaveFunction0
  | 1%nat => Leapfrog.WaveFunction1
  | _ => Leapfrog.WaveFunction2
  end.

(** The contents of the three wave function buffers. *)
Record memory := {
  waveFunction0 : buffer;
  waveFunction1 : buffer;
  waveFunction2 : buffer
}.

Definition read (m : memory) (b : Leapfrog.bufferId) : buffer :=
  match b with
  | Leapfrog.WaveFunction0 => waveFunction0 m
  | Leapfrog.WaveFunction1 => waveFunction1 m
  | Leapfrog.WaveFunction2 => waveFunction2 m
  end.

Definition write (m : memory) (b : Leapfrog.bufferId) (v : buffer) : memory :=
  match b with
  | Leapfrog.WaveFunction0 =>
      {| waveFunction0 := v; waveFunction1 := waveFunction1 m;
         waveFunction2 := waveFunction2 m |}
  | Leapfrog.WaveFunction1 =>
      {| waveFunction0 := waveFunction0 m; waveFunction1 := v;
         waveFunction2 := waveFunction2 m |}
  | Leapfrog.WaveFunction2 =>
      {| waveFunction0 := waveFunction0 m; waveFunction1 := waveFunction1 m;
         waveFunction2 := v |}
  end.

(** [dispatchWorkgroups(workgroups)] of the leapfrog [timeStep] pipeline. *)
Definition pass (d : Device) (p : Leapfrog.Parameters) (workgroups : nat)
    (oldWaveFunction waveFunction updatedWaveFunction : buffer) : buffer :=
  dispatch 64 workgroups
    (fun index u =>
       Leapfrog.timeStep d p oldWaveFunction waveFunction u index)
    updatedWaveFunction.

Definition runDispatch (d : Device) (p : Leapfrog.Parameters)
    (c : Leapfrog.bindGroup * nat) (m : memory) : memory :=
  write m (Leapfrog.binding2 (fst c))
    (pass d p (snd c)
       (read m (Leapfrog.binding0 (fst c)))
       (read m (Leapfrog.binding1 (fst c)))
       (read m (Leapfrog.binding2 (fst c)))).

Definition run (d : Device) (p : Leapfrog.Parameters)
    (commands : list (Leapfrog.bindGroup * nat)) (m : memory) : memory :=
  fold_left (fun m c => runDispatch d p c m) commands m.

End LeapfrogSolver.

(** ** [step] of the staggered solver *)

Module StaggeredSolver.

Record Solver := {
  params : Staggered.Parameters;
  (** [#bcEnabled], false until [setBCEnabled] *)
  bcEnabled : bool;
  (** [#boundary]: the phase velocity of the Mur boundary given to
      [setBoundary], [None] while it is undefined *)
  boundary : option f32
}.

Definition setBoundary (phaseVelocity : f32) (s : Solver) : Solver :=
  {| params := params s; bcEnabled := bcEnabled s;
     boundary := Some phaseVelocity |}.

Definition setBCEnabled (enabled : bool) (s : Solver) : Solver :=
  {| params := params s; bcEnabled := enabled; boundary := boundary s |}.

(** One turn of the loop of [step]: the real pass, the real boundary pass
    when enabled, the imaginary pass, the imaginary boundary pass when
    enabled.  With the boundary enabled but never set the call on the
    undefined boundary throws: [None]. *)
Definition iteration (d : Device) (s : Solver) (b : Staggered.buffers)
    : option Staggered.buffers :=
  let p := params s in
  let b1 := Staggered.realPass d p b in
  if bcEnabled s then
    match boundary s with
    | None => None
    | Some vp =>
        let b2 := StaggeredMurBoundary.realComputePass d p vp b1 in
        let b3 := Staggered.imaginaryPass d p b2 in
        Some (StaggeredMurBoundary.imaginaryComputePass d p vp b3)
    end
  else Some (Staggered.imaginaryPass d p b1).

(** [step(count)]: the passes of [count] turns, submitted together; an
    exception while recording submits nothing. *)
Fixpoint step (d : Device) (count : nat) (s : Solver) (b : Staggered.buffers)
    : option Staggered.buffers :=
  match count with
  | O => Some b
  | S n =>
      match iteration d s b with
      | None => None
      | Some b' => step d n s b'
      end
  end.

End StaggeredSolver.

(** ** The dispatches of the free particle classes *)

Module FreeParticlePasses.

(** [initialize(waveFunctionBuffer0, waveFunctionBuffer1)]: the workgroup
    count comes from the [xResolution] given to the constructor. *)
Definition initialize (p : TwoBuffer.Parameters)
    (wp : FreeParticle.WavePacketParameters) (xResolution : Z)
    (b : buffer * buffer) : buffer * buffer :=
  dispatch 64 (workgroupCount xResolution 64)
    (FreeParticle.computeInitialValues p wp) b.




End FreeParticlePasses.

(** ** SchrodingerMurBoundary.js: the three texture WebGL solver *)

Module WebGLLeapfrog.

(** One [timestep]: the framebuffer rendered to, the textures bound as the
    old and the current wave function, and whether the boundary was rendered
    into the same framebuffer afterwards. *)
Record draw := {
  target : option WebGL.WebGLFramebuffer;
  oldWaveFunction : option WebGL.WebGLTexture;
  waveFunction : option WebGL.WebGLTexture;
  boundaryRendered : bool
}.

Record Solver := {
  step : nat;
  bcEnabled : bool;
  textures : list WebGL.WebGLTexture;
  fbos : list WebGL.WebGLFramebuffer;
  (** the time steps drawn, newest first *)
  draws : list draw
}.

Definition constructor : Solver :=
  {| step := 0; bcEnabled := false; textures := []; fbos := [];
     draws := [] |}.

Definition setBCEnabled (enabled : bool) (s : Solver) : Solver :=
  {| step := step s; bcEnabled := enabled; textures := textures s;
     fbos := fbos s; draws := draws s |}.

Definition setInitialTextures (texture0 texture1 texture2 : WebGL.WebGLTexture)
    (s : Solver) : Solver :=
  {| step := step s; bcEnabled := bcEnabled s;
     textures := [texture0; texture1; texture2];
     fbos := [WebGL.attachFrameBuffer texture0;
              WebGL.attachFrameBuffer texture1;
              WebGL.attachFrameBuffer texture2];
     draws := draws s |}.

Definition timestep (s : Solver) : Solver :=
  {| step := ((step s + 1) mod 3)%nat;
     bcEnabled := bcEnabled s;
     textures := textures s;
     fbos := fbos s;
     draws := {| target := fbos s !! ((step s + 2) mod 3)%nat;
                 oldWaveFunction := textures s !! step s;
                 waveFunction := textures s !! ((step s + 1) mod 3)%nat;
                 boundaryRendered := bcEnabled s |}
              :: draws s |}.

Definition getRenderedTexture (s : Solver) : option WebGL.WebGLTexture :=
  textures s !! ((step s + 1) mod 3)%nat.

Definition getSourceFramebuffers (s : Solver)
    : option WebGL.WebGLFramebuffer * option WebGL.WebGLFramebuffer :=
  (fbos s !! step s, fbos s !! ((step s + 1) mod 3)%nat).

Definition getSourceTextures (s : Solver)
    : option WebGL.WebGLTexture * option WebGL.WebGLTexture :=
  (textures s !! step s, textures s !! ((step s + 1) mod 3)%nat).

Fixpoint timesteps (k : nat) (s : Solver) : Solver :=
  match k with
  | O => s
  | S k' => timestep (timesteps k' s)
  end.

End WebGLLeapfrog.

Module SampleUniform.

(** Three samples of modulus one, Psi = (1, i, 1). *)
Definition unit3 : list R := [1; 0; 0; 1; 1; 0]%R.

(** An adapter that reports no workgroup limits at all. *)
Definition browserNoLimits : Tuned.Navigator :=
  {| Tuned.gpu := true; Tuned.adapter := Some ∅ |}.

End SampleUniform.

Module SamplePotential.

(** Four points over a length of three with dt = 1, so that dx = 1, in a
    potential that is 2 at point 1 and 3 at point 3. *)
Definition leapfrogWell4 : Leapfrog.Parameters :=
  {| Leapfrog.dt := 1; Leapfrog.xResolution := 4; Leapfrog.length := 3;
     Leapfrog.potential := [0; 2; 0; 3]%R |}.

Definition wave4 : buffer := [Vec2 0 0; Vec2 1 1; Vec2 0 1; Vec2 1 2].

(** The same grid in a potential that is 2 at point 2. *)
Definition staggeredWell4 : Staggered.Parameters :=
  {| Staggered.dt := 1; Staggered.xResolution := 4; Staggered.length := 3;
     Staggered.potential := [0; 0; 2; 0]%R |}.

End SamplePotential.

(** * Properties *)

(** ** Arithmetic on [u32] and the neighbour indices *)

Lemma u32_sub_exact (a b : Z) :
  0 <= b <= a -> a < U32.modulus -> U32.sub a b = a - b.
Proof.
  intros Hb Ha. unfold U32.sub, U32.wrap.
  apply Z.mod_small. lia.
Qed.

Lemma u32_add_exact (a b : Z) :
  0 <= a -> 0 <= b -> a + b < U32.modulus -> U32.add a b = a + b.
Proof.
  intros Ha Hb Hab. unfold U32.add, U32.wrap.
  apply Z.mod_small. lia.
Qed.

Lemma u32_sub_wraps_below_zero (a b : Z) :
  0 <= a < b -> b <= U32.modulus -> U32.sub a b = a - b + U32.modulus.
Proof.
  intros Ha Hb. unfold U32.sub, U32.wrap.
  symmetry. apply Z.mod_unique with (q := -1); lia.
Qed.

Lemma modulus_value : U32.modulus = 4294967296.
Proof. reflexivity. Qed.

Lemma indexPlusDx_interior (N i : Z) :
  N < U32.modulus -> 0 <= i -> i + 1 <= N - 1 -> indexPlusDx N i = i + 1.
Proof.
  intros HN Hi Hlt. unfold indexPlusDx.
  rewrite u32_add_exact, u32_sub_exact by lia. lia.
Qed.

Lemma indexPlusDx_inside (N i : Z) :
  N < U32.modulus -> 0 <= i < N -> 0 <= indexPlusDx N i <= N - 1.
Proof.
  intros HN Hi. unfold indexPlusDx.
  rewrite u32_add_exact, u32_sub_exact by lia. lia.
Qed.

Lemma indexMinusDx_interior (i : Z) :
  1 <= i < U32.modulus -> indexMinusDx i = i - 1.
Proof.
  intros Hi. unfold indexMinusDx.
  rewrite u32_sub_exact by lia. lia.
Qed.

Lemma indexMinusDx_at_zero : indexMinusDx 0 = U32.modulus - 1.
Proof. reflexivity. Qed.

Lemma parity_cases (k : nat) :
  (k mod 2 = 0 /\ (k + 1) mod 2 = 1 \/ k mod 2 = 1 /\ (k + 1) mod 2 = 0)%nat.
Proof.
  pose proof (Nat.div_mod_eq k 2).
  pose proof (Nat.div_mod_eq (k + 1) 2).
  pose proof (Nat.mod_upper_bound k 2).
  pose proof (Nat.mod_upper_bound (k + 1) 2).
  lia.
Qed.

(** The guard of every kernel, [if (index >= parameters.xResolution)
    { return; }], decided from the hypotheses. *)
Ltac kernel_runs :=
  match goal with
  | |- context [?N <=? ?i] =>
      replace (N <=? i) with false by (symmetry; apply Z.leb_gt; lia)
  end.

Ltac kernel_skips :=
  match goal with
  | |- context [?N <=? ?i] =>
      replace (N <=? i) with true by (symmetry; apply Z.leb_le; lia)
  end.

(** ** Loads and stores *)

Lemma load_inside (d : Device) (b : buffer) (i : Z) (v : vec2f) :
  b !! Z.to_nat i = Some v -> load d b i = v.
Proof. intros H. unfold load. now rewrite H. Qed.

Lemma loadPotential_inside (d : Device) (potential : list f32) (i : Z)
    (v : f32) :
  potential !! Z.to_nat i = Some v -> loadPotential d potential i = v.
Proof. intros H. unfold loadPotential. now rewrite H. Qed.

Lemma storeX_length (b : buffer) (i : Z) (v : R) :
  List.length (storeX b i v) = List.length b.
Proof. unfold storeX. apply length_alter. Qed.

Lemma storeY_length (b : buffer) (i : Z) (v : R) :
  List.length (storeY b i v) = List.length b.
Proof. unfold storeY. apply length_alter. Qed.

Lemma store_length (b : buffer) (i : Z) (v : vec2f) :
  List.length (store b i v) = List.length b.
Proof. unfold store. apply length_insert. Qed.

Create Rewrite HintDb buffer_length.
#[global] Hint Rewrite storeX_length storeY_length store_length : buffer_length.

Lemma storeX_other (b : buffer) (i : Z) (v : R) (j : nat) :
  j <> Z.to_nat i -> storeX b i v !! j = b !! j.
Proof. intros H. unfold storeX. apply list_lookup_alter_ne. congruence. Qed.

Lemma storeY_other (b : buffer) (i : Z) (v : R) (j : nat) :
  j <> Z.to_nat i -> storeY b i v !! j = b !! j.
Proof. intros H. unfold storeY. apply list_lookup_alter_ne. congruence. Qed.

Lemma store_other (b : buffer) (i : Z) (v : vec2f) (j : nat) :
  j <> Z.to_nat i -> store b i v !! j = b !! j.
Proof. intros H. unfold store. apply list_lookup_insert_ne. congruence. Qed.

Lemma storeX_same (b : buffer) (i : Z) (v : R) :
  storeX b i v !! Z.to_nat i
  = (fun e => Vec2 v (vy e)) <$> b !! Z.to_nat i.
Proof. unfold storeX. apply list_lookup_alter_eq. Qed.

Lemma storeY_same (b : buffer) (i : Z) (v : R) :
  storeY b i v !! Z.to_nat i
  = (fun e => Vec2 (vx e) v) <$> b !! Z.to_nat i.
Proof. unfold storeY. apply list_lookup_alter_eq. Qed.

Lemma store_same (b : buffer) (i : Z) (v : vec2f) :
  inBounds b i -> store b i v !! Z.to_nat i = Some v.
Proof.
  intros [H0 H1]. unfold store. apply list_lookup_insert_eq. lia.
Qed.

(** A store to one component keeps the other component of every element. *)
Lemma storeX_keeps_vy (b : buffer) (i : Z) (v : R) (j : nat) :
  vy <$> storeX b i v !! j = vy <$> b !! j.
Proof.
  destruct (decide (j = Z.to_nat i)) as [->|Hne].
  - rewrite storeX_same. now destruct (b !! Z.to_nat i).
  - now rewrite storeX_other.
Qed.

Lemma storeY_keeps_vx (b : buffer) (i : Z) (v : R) (j : nat) :
  vx <$> storeY b i v !! j = vx <$> b !! j.
Proof.
  destruct (decide (j = Z.to_nat i)) as [->|Hne].
  - rewrite storeY_same. now destruct (b !! Z.to_nat i).
  - now rewrite storeY_other.
Qed.

Lemma inBounds_lookup {A} (b : list A) (i : Z) :
  inBounds b i -> exists v, b !! Z.to_nat i = Some v.
Proof.
  intros [H0 H1]. apply lookup_lt_is_Some_2. lia.
Qed.

Lemma load_outside (d : Device) (b : buffer) (i : Z) :
  Z.of_nat (List.length b) <= i -> load d b i = oobLoad d i.
Proof.
  intros H. unfold load.
  rewrite (lookup_ge_None_2 b (Z.to_nat i)) by lia. reflexivity.
Qed.

(** The element a kernel leaves at [i] after [b[i].x = a; b[i].y = c]. *)
Lemma load_storeY_storeX (d : Device) (b : buffer) (i : Z) (a c : R) :
  inBounds b i -> load d (storeY (storeX b i a) i c) i = Vec2 a c.
Proof.
  intros Hi. destruct (inBounds_lookup b i Hi) as [e He].
  apply load_inside. rewrite storeY_same, storeX_same, He. reflexivity.
Qed.

Lemma storeY_storeX_other (b : buffer) (i : Z) (a c : R) (j : nat) :
  j <> Z.to_nat i -> storeY (storeX b i a) i c !! j = b !! j.
Proof.
  intros Hj. rewrite storeY_other, storeX_other by assumption. reflexivity.
Qed.

(** ** The neighbour lookups of the time step kernels *)

(** The right neighbour index never leaves the grid, and the left one stays
    inside for every index but 0. *)
Lemma neighbour_indices_inside (N i : Z) :
  N < U32.modulus -> 1 <= i < N ->
  0 <= indexPlusDx N i <= N - 1 /\ 0 <= indexMinusDx i <= N - 1.
Proof.
  intros HN Hi. split.
  - apply indexPlusDx_inside; lia.
  - rewrite indexMinusDx_interior by lia. lia.
Qed.

(** At index 0 the left neighbour index is 2^32 - 1 whatever the grid. *)
Lemma left_neighbour_outside_at_zero (N : Z) :
  N < U32.modulus -> ~ (0 <= indexMinusDx 0 <= N - 1).
Proof.
  intros HN. rewrite indexMinusDx_at_zero. lia.
Qed.

(** At index 0 the two buffer kernel builds what it writes from the load
    at index 2^32 - 1, which is outside every buffer. *)
Lemma timeStep_at_zero_loads_outside (d : Device) (p : TwoBuffer.Parameters)
    (waveFunction updatedWaveFunction : buffer) :
  let N := TwoBuffer.xResolution p in
  let dx22 := (TwoBuffer.dx p * TwoBuffer.dx p * 2)%R in
  let outside := oobLoad d 4294967295 in
  1 <= N < U32.modulus ->
  Z.of_nat (List.length waveFunction) = N ->
  Z.of_nat (List.length updatedWaveFunction) = N ->
  load d (TwoBuffer.timeStep d p waveFunction updatedWaveFunction 0) 0
  = Vec2
      (vx (load d waveFunction 0)
       - ((vy (load d waveFunction (Z.min 1 (N - 1)))
           - 2 * vy (load d waveFunction 0) + vy outside) / dx22)
         * TwoBuffer.dt p)%R
      (vy (load d waveFunction 0)
       + ((vx (load d waveFunction (Z.min 1 (N - 1)))
           - 2 * vx (load d waveFunction 0) + vx outside) / dx22)
         * TwoBuffer.dt p)%R.
Proof.
  intros N dx22 outside HN Hwf Hupd.
  unfold TwoBuffer.timeStep. fold N. kernel_runs.
  cbv zeta. rewrite load_storeY_storeX by (unfold inBounds; lia).
  fold N. unfold indexPlusDx.
  rewrite u32_sub_exact by lia.
  change (U32.add 0 1) with 1.
  rewrite (load_outside d waveFunction (indexMinusDx 0))
    by (rewrite indexMinusDx_at_zero; lia).
  reflexivity.
Qed.

(** C1, at the input where the kernels leave the grid: for N = 4 and
    index 0 the left neighbour index [max(index-1, 0)] is computed on
    unsigned integers, [index-1] wraps to 4294967295 and the maximum keeps
    it; the invocation loads [waveFunction[4294967295]], outside [0, 3], and
    what the two buffer kernel and the leapfrog kernel write at index 0 is
    made of the value the device returns for that load, here (0, 2) over a
    wave function that is zero everywhere.  The right neighbour index is
    inside the grid. *)
Theorem timeStep_left_neighbour_wraps_at_zero :
  indexMinusDx 0 = 4294967295
  /\ TwoBuffer.loads Sample.grid4 0 = [0; 1; 4294967295]
  /\ ~ inBounds Sample.zeros4 (indexMinusDx 0)
  /\ inBounds Sample.zeros4 (indexPlusDx 4 0)
  /\ load Sample.device02
       (TwoBuffer.timeStep Sample.device02 Sample.grid4
          Sample.zeros4 Sample.zeros4 0) 0
     = Vec2 (-1) 0
  /\ load Sample.device02
       (Leapfrog.timeStep Sample.device02 SampleBoundary.leapfrog4
          Sample.zeros4 Sample.zeros4 Sample.zeros4 0) 0
     = Vec2 (-2) 0.
Proof.
  split; [reflexivity|].
  split; [reflexivity|].
  split; [intros [_ H]; vm_compute in H; discriminate|].
  split; [split; vm_compute; congruence|].
  split.
  - rewrite timeStep_at_zero_loads_outside;
      [|vm_compute; split; congruence|reflexivity|reflexivity].
    unfold TwoBuffer.dx, U32.to_f32.
    change (U32.sub (TwoBuffer.xResolution Sample.grid4) 1) with 3.
    change (load Sample.device02 Sample.zeros4 0) with (Vec2 0 0).
    change (load Sample.device02 Sample.zeros4
              (Z.min 1 (TwoBuffer.xResolution Sample.grid4 - 1)))
      with (Vec2 0 0).
    cbn. f_equal; field.
  - unfold Leapfrog.timeStep.
    change (Leapfrog.xResolution SampleBoundary.leapfrog4 <=? 0) with false.
    cbv beta iota zeta.
    rewrite load_storeY_storeX by (split; vm_compute; congruence).
    change (indexPlusDx (Leapfrog.xResolution SampleBoundary.leapfrog4) 0)
      with 1.
    rewrite (load_outside _ _ (indexMinusDx 0))
      by (rewrite indexMinusDx_at_zero; vm_compute; congruence).
    unfold Leapfrog.dx, U32.to_f32.
    change (U32.sub (Leapfrog.xResolution SampleBoundary.leapfrog4) 1) with 3.
    change (load Sample.device02 Sample.zeros4 0) with (Vec2 0 0).
    change (load Sample.device02 Sample.zeros4 1) with (Vec2 0 0).
    change (loadPotential Sample.device02
              (Leapfrog.potential SampleBoundary.leapfrog4) 0) with 0%R.
    cbn. f_equal; field.
Qed.

(** ** The spatial step of each kernel *)

Lemma to_f32_pred (N : Z) :
  1 <= N < U32.modulus -> U32.to_f32 (U32.sub N 1) = IZR (N - 1).
Proof.
  intros HN. unfold U32.to_f32. now rewrite u32_sub_exact by lia.
Qed.

(** C2 as stated fails on the WebGL shaders: for L = 3 and N = 4 the
    fragment shader of Schrodinger.js uses dx = 3/4, not 3/(4-1). *)
Lemma webgl_dx_is_not_over_N_minus_1 :
  WebGL.dx 3 4 <> (3 / IZR (4 - 1))%R.
Proof.
  unfold WebGL.dx. change (4 - 1) with 3. lra.
Qed.

(** C2, amended: no kernel stores dx, each derives it from the stored length
    L and resolution N.  Every WebGPU (WGSL) kernel, the two buffer, leapfrog,
    staggered and workgroup tuned time steps and both Mur boundary shaders,
    uses dx = L/(N-1); the WebGL (GLSL) shaders use dx = L/N. *)
Theorem dx_of_each_kernel (dt L : R) (N iterations : Z) (V : list R) :
  1 <= N < U32.modulus ->
  let p2 := {| TwoBuffer.dt := dt; TwoBuffer.xResolution := N;
               TwoBuffer.length := L |} in
  let p3 := {| Leapfrog.dt := dt; Leapfrog.xResolution := N;
               Leapfrog.length := L; Leapfrog.potential := V |} in
  let ps := {| Staggered.dt := dt; Staggered.xResolution := N;
               Staggered.length := L; Staggered.potential := V |} in
  (TwoBuffer.dx p2 = L / IZR (N - 1)
   /\ Leapfrog.dx p3 = L / IZR (N - 1)
   /\ Staggered.dx ps = L / IZR (N - 1)
   /\ Tuned.dx (Tuned.constructor dt N L iterations) = L / IZR (N - 1)
   /\ MurBoundary.dx p3 = L / IZR (N - 1)
   /\ StaggeredMurBoundary.dx ps = L / IZR (N - 1))%R
  /\ (WebGL.dx L N = L / IZR N
      /\ WebGL.dxLeapfrog L N = L / IZR N
      /\ WebGL.dxLeapfrogPacked L N = L / IZR N
      /\ WebGL.dxMurBoundary L N = L / IZR N)%R.
Proof.
  intros HN p2 p3 ps.
  unfold TwoBuffer.dx, Leapfrog.dx, Staggered.dx, Tuned.dx, MurBoundary.dx,
    StaggeredMurBoundary.dx; cbn.
  rewrite !to_f32_pred by assumption.
  repeat split; reflexivity.
Qed.

Lemma dx_of_each_kernel_witness :
  1 <= 4 < U32.modulus
  /\ (TwoBuffer.dx Sample.grid4 = 3 / IZR (4 - 1))%R.
Proof.
  assert (H : 1 <= 4 < U32.modulus) by (vm_compute; split; congruence).
  split; [exact H|].
  exact (proj1 (proj1 (dx_of_each_kernel 1 3 4 0 [] H))).
Defined.

(** ** The buffer rotation of the two buffer WebGPU solver *)

Lemma stepLoop_recorded (n i : nat) (s : TwoBuffer.Solver)
    (e : TwoBuffer.passEncoder) :
  TwoBuffer.running s = true ->
  TwoBuffer.recorded (TwoBuffer.stepLoop n i s e)
  = TwoBuffer.recorded e
    ++ ((fun j => (TwoBuffer.waveFunctionBindGroup (j mod 2),
                   workgroupCount
                     (TwoBuffer.xResolution (TwoBuffer.params s)) 64))
        <$> seq i n).
Proof.
  intros Hrun. revert i e.
  induction n as [|n IH]; intros i e; cbn.
  - now rewrite app_nil_r.
  - rewrite Hrun, IH. cbn. now rewrite <- app_assoc.
Qed.

Lemma stepCommands_eq (count : nat) (s : TwoBuffer.Solver) :
  TwoBuffer.stepCommands count s
  = (fun j => (TwoBuffer.waveFunctionBindGroup (j mod 2),
               workgroupCount (TwoBuffer.xResolution (TwoBuffer.params s)) 64))
    <$> seq 0 count.
Proof.
  unfold TwoBuffer.stepCommands.
  rewrite stepLoop_recorded by reflexivity. reflexivity.
Qed.

Lemma waveFunctionBindGroup_buffers (i : nat) :
  TwoBuffer.waveFunctionBindGroup (i mod 2)
  = {| TwoBuffer.binding0 := TwoBuffer.waveFunctionBuffer (i mod 2);
       TwoBuffer.binding1 := TwoBuffer.waveFunctionBuffer ((i + 1) mod 2) |}.
Proof.
  destruct (parity_cases i) as [[-> ->]|[-> ->]]; reflexivity.
Qed.

Lemma lastWritten_step_succ (m : nat) (s : TwoBuffer.Solver) :
  TwoBuffer.lastWritten (TwoBuffer.step (S m) s)
  = Some (TwoBuffer.binding1 (TwoBuffer.waveFunctionBindGroup (m mod 2))).
Proof.
  unfold TwoBuffer.lastWritten, TwoBuffer.step,
    TwoBuffer.submitted at 1.
  rewrite stepCommands_eq, seq_S, fmap_app, app_assoc.
  rewrite fmap_cons, fmap_nil, last_snoc. reflexivity.
Qed.

(** C10: whatever was submitted before, a call [step(count)] records exactly
    [count] dispatches and its [i]th dispatch reads wave function buffer
    [i mod 2] and writes buffer [(i+1) mod 2]; so after a call with an odd
    count the last buffer written is buffer 1, and the first dispatch of the
    next call reads buffer 0. *)
Theorem step_restarts_buffer_rotation (s : TwoBuffer.Solver) (count : nat) :
  List.length (TwoBuffer.stepCommands count s) = count
  /\ (forall i : nat, (i < count)%nat ->
        TwoBuffer.stepCommands count s !! i
        = Some ({| TwoBuffer.binding0 := TwoBuffer.waveFunctionBuffer (i mod 2);
                   TwoBuffer.binding1 :=
                     TwoBuffer.waveFunctionBuffer ((i + 1) mod 2) |},
                workgroupCount
                  (TwoBuffer.xResolution (TwoBuffer.params s)) 64))
  /\ (Nat.odd count = true ->
      forall count' : nat, (0 < count')%nat ->
        TwoBuffer.lastWritten (TwoBuffer.step count s)
        = Some TwoBuffer.WaveFunction1
        /\ (TwoBuffer.binding0 ∘ fst
            <$> TwoBuffer.stepCommands count' (TwoBuffer.step count s) !! 0%nat)
           = Some TwoBuffer.WaveFunction0).
Proof.
  split; [|split].
  - rewrite stepCommands_eq, length_fmap. apply length_seq.
  - intros i Hi.
    rewrite stepCommands_eq, list_lookup_fmap, lookup_seq_lt by assumption.
    rewrite <- waveFunctionBindGroup_buffers. reflexivity.
  - intros Hodd count' Hpos. split.
    + destruct count as [|m]; [discriminate|].
      rewrite lastWritten_step_succ.
      rewrite Nat.odd_succ in Hodd. apply Nat.even_spec in Hodd.
      destruct Hodd as [h ->].
      replace ((2 * h) mod 2)%nat with 0%nat; [reflexivity|].
      symmetry. rewrite Nat.mul_comm. apply Nat.Div0.mod_mul.
    + rewrite stepCommands_eq, list_lookup_fmap, lookup_seq_lt by assumption.
      reflexivity.
Qed.

Lemma step_restarts_buffer_rotation_witness :
  let s := {| TwoBuffer.params := Sample.grid4; TwoBuffer.running := false;
              TwoBuffer.submitted := [] |} in
  (2 < 3)%nat
  /\ TwoBuffer.stepCommands 3 s !! 2%nat
     = Some ({| TwoBuffer.binding0 := TwoBuffer.WaveFunction0;
                TwoBuffer.binding1 := TwoBuffer.WaveFunction1 |}, 1%nat)
  /\ TwoBuffer.lastWritten (TwoBuffer.step 3 s) = Some TwoBuffer.WaveFunction1
  /\ (TwoBuffer.binding0 ∘ fst
      <$> TwoBuffer.stepCommands 1 (TwoBuffer.step 3 s) !! 0%nat)
     = Some TwoBuffer.WaveFunction0.
Proof.
  intros s.
  pose proof (step_restarts_buffer_rotation s 3) as [_ [Hi Hodd]].
  assert (H23 : (2 < 3)%nat) by lia.
  split; [exact H23|].
  split; [exact (Hi 2%nat H23)|].
  apply (Hodd eq_refl 1%nat). lia.
Defined.

(** ** The leapfrog kernel at the interior points *)

Lemma leapfrog_bind_groups_distinct (j : nat) :
  let g := Leapfrog.stepBindGroup j in
  Leapfrog.binding2 g <> Leapfrog.binding0 g
  /\ Leapfrog.binding2 g <> Leapfrog.binding1 g
  /\ Leapfrog.binding0 g <> Leapfrog.binding1 g.
Proof.
  unfold Leapfrog.stepBindGroup.
  destruct (j mod 3)%nat as [|[|r]]; cbn; repeat split; discriminate.
Qed.

(** C3: at an interior point [1 <= i <= N-2] one invocation of the leapfrog
    kernel leaves in the next buffer
      Re = old.Re[i] - dt*((Im[i+1] - 2 Im[i] + Im[i-1])/dx^2 - 2 V[i] Im[i])
      Im = old.Im[i] + dt*((Re[i+1] - 2 Re[i] + Re[i-1])/dx^2 - 2 V[i] Re[i])
    with dx = L/(N-1), Re, Im those of the current buffer and V[i] the
    element [i] of the potential array of the parameters; the value does
    not depend on what the next buffer held, no other element of the next
    buffer changes, and in every bind group of [step] the buffer written is
    neither of the two buffers read. *)
Theorem leapfrog_timeStep_interior (d : Device) (p : Leapfrog.Parameters)
    (old cur next : buffer) (i : Z) (Vi : f32) :
  let N := Leapfrog.xResolution p in
  let Re (b : buffer) (j : Z) := vx (load d b j) in
  let Im (b : buffer) (j : Z) := vy (load d b j) in
  let dt := Leapfrog.dt p in
  let dx := (Leapfrog.length p / IZR (N - 1))%R in
  let next' := Leapfrog.timeStep d p old cur next i in
  N < U32.modulus -> 1 <= i <= N - 2 ->
  Z.of_nat (List.length next) = N ->
  Leapfrog.potential p !! Z.to_nat i = Some Vi ->
  load d next' i
  = Vec2
      (Re old i
       - dt * ((Im cur (i + 1)%Z - 2 * Im cur i + Im cur (i - 1)%Z) / dx ^ 2
               - 2 * Vi * Im cur i))%R
      (Im old i
       + dt * ((Re cur (i + 1)%Z - 2 * Re cur i + Re cur (i - 1)%Z) / dx ^ 2
               - 2 * Vi * Re cur i))%R
  /\ (forall next2 : buffer,
        List.length next2 = List.length next ->
        load d (Leapfrog.timeStep d p old cur next2 i) i = load d next' i)
  /\ (forall j : nat, j <> Z.to_nat i -> next' !! j = next !! j)
  /\ List.length next' = List.length next
  /\ (forall j : nat,
        let g := Leapfrog.stepBindGroup j in
        Leapfrog.binding2 g <> Leapfrog.binding0 g
        /\ Leapfrog.binding2 g <> Leapfrog.binding1 g).
Proof.
  intros N Re Im dt dx next' HN Hi Hlen HV.
  assert (Hcond : (Leapfrog.xResolution p <=? i) = false)
    by (fold N; kernel_runs; reflexivity).
  assert (Hat : forall b : buffer,
             Z.of_nat (List.length b) = N ->
             load d (Leapfrog.timeStep d p old cur b i) i
             = Vec2
                 (Re old i
                  - dt * ((Im cur (i + 1)%Z - 2 * Im cur i + Im cur (i - 1)%Z)
                          / dx ^ 2 - 2 * Vi * Im cur i))%R
                 (Im old i
                  + dt * ((Re cur (i + 1)%Z - 2 * Re cur i + Re cur (i - 1)%Z)
                          / dx ^ 2 - 2 * Vi * Re cur i))%R).
  { intros b Hb. unfold Leapfrog.timeStep. rewrite Hcond. cbv zeta.
    rewrite load_storeY_storeX by (unfold inBounds; lia).
    rewrite (loadPotential_inside d _ i Vi HV).
    fold N. rewrite indexPlusDx_interior, indexMinusDx_interior
      by (try unfold U32.modulus in *; lia).
    unfold Leapfrog.dx. fold N. rewrite to_f32_pred by lia.
    fold dx. replace (dx ^ 2)%R with (dx * dx)%R by ring.
    subst Re Im dt. cbv beta. f_equal; unfold Rdiv; ring. }
  split; [apply Hat; assumption|].
  split.
  { intros next2 Hlen2. subst next'. rewrite !Hat; [reflexivity|lia|lia]. }
  subst next'. unfold Leapfrog.timeStep. rewrite Hcond. cbv zeta.
  split; [intros j Hj; now apply storeY_storeX_other|].
  split; [now autorewrite with buffer_length|].
  intros j. pose proof (leapfrog_bind_groups_distinct j) as H.
  cbv zeta in *. tauto.
Qed.

Lemma leapfrog_timeStep_interior_witness :
  load Sample.device0
    (Leapfrog.timeStep Sample.device0 SamplePotential.leapfrogWell4
       Sample.zeros4 SamplePotential.wave4 Sample.zeros4 1) 1
  = Vec2 5 (-6).
Proof.
  assert (HN : Leapfrog.xResolution SamplePotential.leapfrogWell4
               < U32.modulus)
    by (vm_compute; congruence).
  assert (Hi : 1 <= 1
               <= Leapfrog.xResolution SamplePotential.leapfrogWell4 - 2)
    by (vm_compute; split; congruence).
  assert (Hlen : Z.of_nat (List.length Sample.zeros4)
                 = Leapfrog.xResolution SamplePotential.leapfrogWell4)
    by reflexivity.
  assert (HV : Leapfrog.potential SamplePotential.leapfrogWell4
                 !! Z.to_nat 1 = Some 2%R)
    by reflexivity.
  rewrite (proj1 (leapfrog_timeStep_interior Sample.device0
                    SamplePotential.leapfrogWell4
                    Sample.zeros4 SamplePotential.wave4 Sample.zeros4 1 2
                    HN Hi Hlen HV)).
  change (load Sample.device0 Sample.zeros4 1) with (Vec2 0 0).
  change (load Sample.device0 SamplePotential.wave4 (1 + 1)) with (Vec2 0 1).
  change (load Sample.device0 SamplePotential.wave4 1) with (Vec2 1 1).
  change (load Sample.device0 SamplePotential.wave4 (1 - 1)) with (Vec2 0 0).
  change (Leapfrog.xResolution SamplePotential.leapfrogWell4 - 1) with 3.
  cbn. f_equal; field.
Defined.

(** ** The closed form of the free particle wave packet *)

Lemma Rpower_quarter (q : R) : (0 < q)%R -> Rpower q 0.25 = sqrt (sqrt q).
Proof.
  intros Hq.
  rewrite <- (Rpower_sqrt (sqrt q)) by (apply sqrt_lt_R0; lra).
  rewrite <- (Rpower_sqrt q) by lra.
  rewrite Rpower_mult. f_equal. lra.
Qed.

Lemma amplitude_base_positive (w t : R) :
  (0 < w)%R -> (0 < 2 * (w * w) / (Rtrigo1.PI * (w * w * (w * w) + 4 * t * t)))%R.
Proof.
  intros Hw.
  assert (Hw2 : (0 < w * w)%R) by nra.
  assert (Ha : (0 < w * w * (w * w) + 4 * t * t)%R) by nra.
  pose proof PI_RGT_0 as Hpi.
  apply Rdiv_lt_0_compat; [lra|].
  apply Rmult_lt_0_compat; assumption.
Qed.

(** C4: at grid point [i] of [N], x = i*L/(N-1), and for a width w > 0 the
    shader function [computePsi] returns the closed form
    (2w^2/(pi a))^(1/4) exp(-b w^2/a) (cos c, sin c) with
    theta = 0.5 atan(2t/w^2), phi = -theta - k^2 t/2, a = w^4 + 4t^2,
    b = (x - x0 - k t)^2 and c = phi + k (x - x0) + 2 t b/a, at every time
    t. *)
Theorem computePsi_closed_form (p : TwoBuffer.Parameters)
    (wp : FreeParticle.WavePacketParameters) (i : Z) (t : R) :
  let N := TwoBuffer.xResolution p in
  let psi :=
    FreeParticle.gaussianWavePacket (TwoBuffer.length p) N
      (FreeParticle.x0 wp) (FreeParticle.w wp) (FreeParticle.k wp) i t in
  1 <= N < U32.modulus -> 0 <= i < N -> (0 < FreeParticle.w wp)%R ->
  FreeParticle.computePsi p wp i t = Vec2 (fst psi) (snd psi).
Proof.
  intros N psi HN Hi Hw. subst psi.
  unfold FreeParticle.computePsi, FreeParticle.gaussianWavePacket,
    FreeParticle.pow, FreeParticle.PI, vscale.
  cbv zeta. cbn [fst snd vx vy].
  fold N. rewrite to_f32_pred by assumption. unfold U32.to_f32.
  destruct wp as [x0 w k]; cbn [FreeParticle.x0 FreeParticle.w FreeParticle.k] in *.
  set (x := (IZR i * TwoBuffer.length p / IZR (N - 1))%R).
  replace (w ^ 2)%R with (w * w)%R by ring.
  replace (w ^ 4)%R with (w * w * (w * w))%R by ring.
  replace (t ^ 2)%R with (t * t)%R by ring.
  replace (k ^ 2)%R with (k * k)%R by ring.
  replace ((x - x0 - k * t) ^ 2)%R
    with ((x - x0 - k * t) * (x - x0 - k * t))%R by ring.
  replace (4 * (t * t))%R with (4 * t * t)%R by ring.
  rewrite Rpower_quarter by (apply amplitude_base_positive; assumption).
  replace (0.5 * atan (2 * t / (w * w)))%R
    with (atan (2 * t / (w * w)) / 2)%R by lra.
  reflexivity.
Qed.

Lemma computePsi_closed_form_witness :
  let wp := {| FreeParticle.x0 := 0; FreeParticle.w := 1;
               FreeParticle.k := 0 |} in
  FreeParticle.computePsi Sample.grid4 wp 0 0
  = Vec2 (fst (FreeParticle.gaussianWavePacket 3 4 0 1 0 0 0))
         (snd (FreeParticle.gaussianWavePacket 3 4 0 1 0 0 0)).
Proof.
  intros wp.
  apply (computePsi_closed_form Sample.grid4 wp 0 0).
  - vm_compute; split; congruence.
  - vm_compute; split; congruence.
  - cbn. lra.
Defined.

(** ** The ping pong of the WebGL solver *)

Lemma timesteps_invariant (t0 t1 : WebGL.WebGLTexture) (k : nat) :
  let s := WebGL.timesteps k (WebGL.setInitialTextures t0 t1 WebGL.constructor) in
  WebGL.step s = (k mod 2)%nat
  /\ WebGL.textures s = [t0; t1]
  /\ WebGL.fbos s = [WebGL.attachFrameBuffer t0; WebGL.attachFrameBuffer t1].
Proof.
  induction k as [|k IH]; cbn zeta.
  - repeat split.
  - cbn [WebGL.timesteps]. cbn zeta in IH. destruct IH as (Hs & Ht & Hf).
    unfold WebGL.timestep; cbn [WebGL.step WebGL.textures WebGL.fbos].
    rewrite Hs. repeat split; try assumption.
    replace (S k) with (k + 1)%nat by lia.
    apply Nat.Div0.add_mod_idemp_l.
Qed.

Lemma mod2_succ (k : nat) : (S k mod 2 = (k mod 2 + 1) mod 2)%nat.
Proof.
  replace (S k) with (k + 1)%nat by lia.
  symmetry. apply Nat.Div0.add_mod_idemp_l.
Qed.

Lemma mod2_succ_succ (k : nat) : ((S k + 1) mod 2 = k mod 2)%nat.
Proof.
  replace (S k + 1)%nat with (k + 1 * 2)%nat by lia.
  apply Nat.Div0.mod_add.
Qed.

(** Each [timestep] renders to the texture of slot [step], then flips
    [step] and samples the texture of the new slot; after k >= 1 calls
    [getRenderedTexture] returns the texture of slot [(k+1) mod 2], which is
    the texture the k'th call rendered to, while the k'th call sampled the
    texture of slot [k mod 2]. *)
Lemma getRenderedTexture_slot (t0 t1 : WebGL.WebGLTexture) (k : nat) :
  let s := WebGL.timesteps k (WebGL.setInitialTextures t0 t1 WebGL.constructor) in
  (1 <= k)%nat ->
  WebGL.getRenderedTexture s = [t0; t1] !! ((k + 1) mod 2)%nat
  /\ WebGL.getRenderedTexture s = WebGL.lastRenderTarget s
  /\ (WebGL.source <$> head (WebGL.draws s))
     = Some ([t0; t1] !! (k mod 2)%nat).
Proof.
  intros s Hk. subst s.
  destruct k as [|k]; [lia|]. clear Hk.
  pose proof (timesteps_invariant t0 t1 (S k)) as (Hs & Ht & Hf).
  pose proof (timesteps_invariant t0 t1 k) as (Hs' & Ht' & Hf').
  cbv zeta in Hs, Ht, Hf, Hs', Ht', Hf'.
  unfold WebGL.getRenderedTexture. rewrite Hs, Ht.
  unfold WebGL.lastRenderTarget.
  change (WebGL.timesteps (S k)
            (WebGL.setInitialTextures t0 t1 WebGL.constructor))
    with (WebGL.timestep
            (WebGL.timesteps k
               (WebGL.setInitialTextures t0 t1 WebGL.constructor))).
  unfold WebGL.timestep.
  cbv [WebGL.draws WebGL.target WebGL.source head fmap option_fmap option_map].
  rewrite Hs', Ht', Hf'.
  rewrite (Nat.Div0.add_mod_idemp_l (S k) 1 2).
  rewrite (mod2_succ_succ k), (mod2_succ k).
  assert (Hr : (k mod 2 < 2)%nat) by (apply Nat.mod_upper_bound; lia).
  set (r := (k mod 2)%nat) in *. clearbody r.
  destruct r as [|[|r]]; [repeat split..|lia].
Qed.

(** C5: number the two buffers by their roles, with [step] the number of
    calls already made: the call made after [step] calls reads
    buffer[step mod 2] and writes buffer[(step+1) mod 2].  The solver does
    work this way, buffer[0] being the texture the first call samples (the
    one stored in slot 1) and buffer[1] the texture it renders to (slot 0);
    and for any numbering under which the first k >= 1 calls work this way,
    [getRenderedTexture] returns buffer[k mod 2] after the k'th call, which
    is the texture that call rendered to. *)
Theorem getRenderedTexture_is_buffer_k_mod_2 (t0 t1 : WebGL.WebGLTexture) :
  let s (calls : nat) :=
    WebGL.timesteps calls
      (WebGL.setInitialTextures t0 t1 WebGL.constructor) in
  let pingPong (buffer : nat -> WebGL.WebGLTexture) (step : nat) :=
    head (WebGL.draws (WebGL.timestep (s step)))
    = Some {| WebGL.target :=
                Some (WebGL.attachFrameBuffer (buffer ((step + 1) mod 2)%nat));
              WebGL.source := Some (buffer (step mod 2)%nat) |} in
  (forall step : nat,
     pingPong (fun j : nat => if (j =? 0)%nat then t1 else t0) step)
  /\ (forall (buffer : nat -> WebGL.WebGLTexture) (k : nat),
        (1 <= k)%nat ->
        (forall step : nat, (step < k)%nat -> pingPong buffer step) ->
        WebGL.getRenderedTexture (s k) = Some (buffer (k mod 2)%nat)
        /\ WebGL.lastRenderTarget (s k) = Some (buffer (k mod 2)%nat)).
Proof.
  intros s pingPong. split.
  - intros step. subst pingPong s. cbv beta.
    pose proof (timesteps_invariant t0 t1 step) as (Hs & Ht & Hf).
    cbv zeta in Hs, Ht, Hf.
    unfold WebGL.timestep. cbn [WebGL.draws head].
    rewrite Hs, Ht, Hf.
    destruct (parity_cases step) as [[H0 H1]|[H0 H1]];
      rewrite H0, H1; reflexivity.
  - intros buffer k Hk Hroles.
    destruct k as [|k]; [lia|].
    pose proof (getRenderedTexture_slot t0 t1 (S k) Hk) as (_ & Hlast & _).
    cbv zeta in Hlast. fold (s (S k)) in Hlast.
    assert (Htarget : WebGL.lastRenderTarget (s (S k))
                      = Some (buffer (S k mod 2)%nat)).
    { specialize (Hroles k ltac:(lia)). subst pingPong. cbv beta in Hroles.
      change (s (S k)) with (WebGL.timestep (s k)).
      unfold WebGL.lastRenderTarget.
      destruct (WebGL.draws (WebGL.timestep (s k))) as [|dr rest];
        [discriminate|].
      cbn [head] in Hroles.
      assert (Hdr : dr = {| WebGL.target :=
                              Some (WebGL.attachFrameBuffer
                                      (buffer ((k + 1) mod 2)%nat));
                            WebGL.source := Some (buffer (k mod 2)%nat) |})
        by congruence.
      rewrite Hdr. replace (S k) with (k + 1)%nat by lia. reflexivity. }
    split; [rewrite Hlast|]; exact Htarget.
Qed.

Lemma getRenderedTexture_is_buffer_k_mod_2_witness :
  WebGL.getRenderedTexture
    (WebGL.timesteps 3
       (WebGL.setInitialTextures 7%nat 9%nat WebGL.constructor))
  = Some 7%nat.
Proof.
  refine (proj1
            (proj2 (getRenderedTexture_is_buffer_k_mod_2 7%nat 9%nat)
               (fun j : nat => if (j =? 0)%nat then 9%nat else 7%nat) 3%nat
               _ _)).
  - lia.
  - intros step Hstep.
    destruct step as [|[|[|step]]]; [reflexivity..|lia].
Defined.

(** ** Workgroup limits of the tuned solver *)

Lemma limits256_size :
  SampleAdapter.limits256 !! Tuned.workgroupSizeXLimitName = Some 256.
Proof. unfold SampleAdapter.limits256. apply lookup_insert_eq. Qed.

Lemma limits256_invocations :
  SampleAdapter.limits256 !! Tuned.invocationsPerWorkgroupLimitName = Some 256.
Proof.
  unfold SampleAdapter.limits256.
  rewrite lookup_insert_ne by discriminate. apply lookup_singleton_eq.
Qed.

(** C6 as stated fails: on an adapter limited to 256 invocations a solver
    of resolution 1024 is initialised without any error, and the first
    error is the one [step] throws. *)
Lemma init_does_not_raise_on_unsupported_width :
  (forall e : Tuned.error,
     Tuned.init SampleAdapter.browser256 SampleAdapter.solver1024
     <> Tuned.Thrown e)
  /\ exists s' : Tuned.Solver,
       Tuned.init SampleAdapter.browser256 SampleAdapter.solver1024
       = Tuned.Returned s'
       /\ Tuned.step s'
          = Tuned.Thrown
              (Tuned.LimitUnavailable Tuned.workgroupSizeXLimitName 1024).
Proof.
  assert (Hinit :
    Tuned.init SampleAdapter.browser256 SampleAdapter.solver1024
    = Tuned.Returned
        {| Tuned.dt := 1; Tuned.xResolution := 1024; Tuned.length := 3;
           Tuned.iterations := 250;
           Tuned.workgroupSizeLimitAvailable := Some false;
           Tuned.invocationLimitAvailable := Some false;
           Tuned.device := false; Tuned.submitted := 0 |}).
  { unfold Tuned.init, Tuned.checkLimit, SampleAdapter.browser256.
    cbn [Tuned.gpu Tuned.adapter negb].
    rewrite limits256_size, limits256_invocations. reflexivity. }
  split.
  - intros e. rewrite Hinit. discriminate.
  - eexists. split; [exact Hinit|]. reflexivity.
Qed.

(** C6, amended: when the resolution N exceeds the adapter's limit on the
    workgroup size or on the invocations per workgroup, [init] raises
    nothing: it returns the solver with the two availability flags set, which
    the caller can query, and creates no device; the error naming the missing
    limit and N is raised by [step], which submits nothing. *)
Theorem unsupported_width_is_raised_by_step (nav : Tuned.Navigator)
    (limits : gmap string Z) (maxSize maxInvocations : Z) (s : Tuned.Solver) :
  let N := Tuned.xResolution s in
  Tuned.gpu nav = true ->
  Tuned.adapter nav = Some limits ->
  limits !! Tuned.workgroupSizeXLimitName = Some maxSize ->
  limits !! Tuned.invocationsPerWorkgroupLimitName = Some maxInvocations ->
  maxSize < N \/ maxInvocations < N ->
  exists s' : Tuned.Solver,
    Tuned.init nav s = Tuned.Returned s'
    /\ Tuned.isWorkgroupSizeLimitAvailable s' = Some (N <=? maxSize)
    /\ Tuned.isInvocationLimitAvailable s' = Some (N <=? maxInvocations)
    /\ Tuned.device s' = Tuned.device s
    /\ Tuned.submitted s' = Tuned.submitted s
    /\ Tuned.step s'
       = Tuned.Thrown
           (Tuned.LimitUnavailable
              (if N <=? maxSize then Tuned.invocationsPerWorkgroupLimitName
               else Tuned.workgroupSizeXLimitName) N).
Proof.
  intros N Hgpu Hadapter Hsize Hinv Hexceeds.
  unfold Tuned.init, Tuned.checkLimit.
  rewrite Hgpu, Hadapter, Hsize, Hinv. cbn [negb].
  fold N. eexists. split; [reflexivity|].
  unfold Tuned.isWorkgroupSizeLimitAvailable, Tuned.isInvocationLimitAvailable,
    Tuned.step.
  cbn [Tuned.workgroupSizeLimitAvailable Tuned.invocationLimitAvailable
       Tuned.device Tuned.submitted Tuned.xResolution].
  fold N.
  destruct (Z.leb_spec N maxSize) as [Hs|Hs];
    destruct (Z.leb_spec N maxInvocations) as [Hi|Hi];
    cbn; repeat split; lia.
Qed.

(** When both limits reach N, [init] creates the device and [step] submits
    its dispatch. *)
Lemma supported_width_steps (nav : Tuned.Navigator)
    (limits : gmap string Z) (maxSize maxInvocations : Z) (s : Tuned.Solver) :
  let N := Tuned.xResolution s in
  Tuned.gpu nav = true ->
  Tuned.adapter nav = Some limits ->
  limits !! Tuned.workgroupSizeXLimitName = Some maxSize ->
  limits !! Tuned.invocationsPerWorkgroupLimitName = Some maxInvocations ->
  N <= maxSize -> N <= maxInvocations ->
  exists s' s'' : Tuned.Solver,
    Tuned.init nav s = Tuned.Returned s'
    /\ Tuned.device s' = true
    /\ Tuned.step s' = Tuned.Returned s''
    /\ Tuned.submitted s'' = S (Tuned.submitted s).
Proof.
  intros N Hgpu Hadapter Hsize Hinv Hs Hi.
  unfold Tuned.init, Tuned.checkLimit.
  rewrite Hgpu, Hadapter, Hsize, Hinv. cbn [negb]. fold N.
  replace (N <=? maxSize) with true by (symmetry; apply Z.leb_le; lia).
  replace (N <=? maxInvocations) with true
    by (symmetry; apply Z.leb_le; lia).
  do 2 eexists. repeat split.
Qed.

Lemma unsupported_width_is_raised_by_step_witness :
  exists s' : Tuned.Solver,
    Tuned.init SampleAdapter.browser256 SampleAdapter.solver1024
    = Tuned.Returned s'
    /\ Tuned.isWorkgroupSizeLimitAvailable s' = Some false
    /\ Tuned.step s'
       = Tuned.Thrown
           (Tuned.LimitUnavailable Tuned.workgroupSizeXLimitName 1024).
Proof.
  assert (Hex : 256 < Tuned.xResolution SampleAdapter.solver1024
                \/ 256 < Tuned.xResolution SampleAdapter.solver1024)
    by (left; reflexivity).
  destruct (unsupported_width_is_raised_by_step SampleAdapter.browser256
              SampleAdapter.limits256 256 256 SampleAdapter.solver1024
              eq_refl eq_refl limits256_size limits256_invocations Hex)
    as (s' & Hinit & Hflag & _ & _ & _ & Hstep).
  exists s'. split; [exact Hinit|]. split; [exact Hflag|exact Hstep].
Defined.

(** ** The Mur boundary when vp*dt = dx *)

Lemma edge_indices_left (N : Z) :
  U32.mul 0 (U32.sub N 1) = 0
  /\ U32.add (U32.mul 0 (U32.sub N 1)) (U32.sub 1 (U32.mul 2 0)) = 1.
Proof.
  assert (H : U32.mul 0 (U32.sub N 1) = 0)
    by (unfold U32.mul, U32.wrap; now rewrite Z.mul_0_l).
  rewrite H. split; reflexivity.
Qed.

Lemma edge_indices_right (N : Z) :
  2 <= N < U32.modulus ->
  U32.mul 1 (U32.sub N 1) = N - 1
  /\ U32.add (U32.mul 1 (U32.sub N 1)) (U32.sub 1 (U32.mul 2 1)) = N - 2.
Proof.
  intros HN.
  assert (H : U32.mul 1 (U32.sub N 1) = N - 1).
  { rewrite u32_sub_exact by lia. unfold U32.mul, U32.wrap.
    rewrite Z.mul_1_l. apply Z.mod_small. lia. }
  rewrite H. split; [reflexivity|].
  change (U32.sub 1 (U32.mul 2 1)) with (U32.modulus - 1).
  unfold U32.add, U32.wrap.
  symmetry. apply Z.mod_unique with (q := 1); lia.
Qed.

Lemma zero_coefficient (a b : R) : (a = b -> (a - b) / (a + b) = 0)%R.
Proof. intros ->. unfold Rdiv. ring. Qed.

Lemma vadd_vscale_zero (v u : vec2f) : vadd v (vscale 0 u) = v.
Proof. destruct v as [a c]. unfold vadd, vscale; cbn. f_equal; ring. Qed.

Lemma load_store_same (d : Device) (b : buffer) (i : Z) (v : vec2f) :
  inBounds b i -> load d (store b i v) i = v.
Proof. intros H. apply load_inside. now apply store_same. Qed.

Lemma load_store_other (d : Device) (b : buffer) (i j : Z) (v : vec2f) :
  0 <= i -> 0 <= j -> i <> j -> load d (store b i v) j = load d b j.
Proof.
  intros Hi Hj Hne. unfold load. rewrite store_other by lia. reflexivity.
Qed.

Lemma load_storeX_same (d : Device) (b : buffer) (i : Z) (v : R) :
  inBounds b i -> load d (storeX b i v) i = Vec2 v (vy (load d b i)).
Proof.
  intros H. destruct (inBounds_lookup b i H) as [e He].
  unfold load. rewrite storeX_same, He. reflexivity.
Qed.

Lemma load_storeX_other (d : Device) (b : buffer) (i j : Z) (v : R) :
  0 <= i -> 0 <= j -> i <> j -> load d (storeX b i v) j = load d b j.
Proof.
  intros Hi Hj Hne. unfold load. rewrite storeX_other by lia. reflexivity.
Qed.

Lemma load_storeY_same (d : Device) (b : buffer) (i : Z) (v : R) :
  inBounds b i -> load d (storeY b i v) i = Vec2 (vx (load d b i)) v.
Proof.
  intros H. destruct (inBounds_lookup b i H) as [e He].
  unfold load. rewrite storeY_same, He. reflexivity.
Qed.

Lemma load_storeY_other (d : Device) (b : buffer) (i j : Z) (v : R) :
  0 <= i -> 0 <= j -> i <> j -> load d (storeY b i v) j = load d b j.
Proof.
  intros Hi Hj Hne. unfold load. rewrite storeY_other by lia. reflexivity.
Qed.

(** The three buffer boundary pass when its coefficient is zero. *)
Lemma mur_pass_zero (d : Device) (p : Leapfrog.Parameters) (vp : R)
    (cur updated : buffer) :
  let N := Leapfrog.xResolution p in
  let updated' := MurBoundary.computePass d p vp cur updated in
  2 <= N < U32.modulus ->
  Z.of_nat (List.length updated) = N ->
  MurBoundary.coefficient p vp = 0%R ->
  load d updated' 0 = load d cur 1
  /\ load d updated' (N - 1) = load d cur (N - 2)
  /\ (forall j : nat, j <> 0%nat -> j <> Z.to_nat (N - 1) ->
        updated' !! j = updated !! j).
Proof.
  intros N updated' HN Hlen Hc. subst updated'.
  unfold MurBoundary.computePass, dispatch. cbn [Nat.mul Nat.add seq fold_left].
  unfold MurBoundary.recomputeBoundary, MurBoundary.sotrageBufferIndex,
    MurBoundary.offset.
  cbv zeta. rewrite Hc, !vadd_vscale_zero.
  change (Z.of_nat 0) with 0. change (Z.of_nat 1) with 1.
  fold N.
  destruct (edge_indices_left N) as [-> ->].
  destruct (edge_indices_right N HN) as [-> ->].
  split; [|split].
  - rewrite load_store_other by lia.
    apply load_store_same. unfold inBounds. lia.
  - apply load_store_same. unfold inBounds. autorewrite with buffer_length. lia.
  - intros j Hj0 HjN. rewrite !store_other by (try change (Z.to_nat 0) with 0%nat; lia).
    reflexivity.
Qed.

(** The real part boundary pass of the staggered solver when its coefficient
    is zero. *)
Lemma staggered_real_pass_zero (d : Device) (p : Staggered.Parameters)
    (vp : R) (b : Staggered.buffers) :
  let N := Staggered.xResolution p in
  let b' := StaggeredMurBoundary.realComputePass d p vp b in
  2 <= N < U32.modulus ->
  Z.of_nat (List.length (Staggered.waveFunction b)) = N ->
  StaggeredMurBoundary.coefficient p vp = 0%R ->
  vx (load d (Staggered.waveFunction b') 0)
  = vx (load d (Staggered.oldWaveFunction b) 1)
  /\ vx (load d (Staggered.waveFunction b') (N - 1))
     = vx (load d (Staggered.oldWaveFunction b) (N - 2))
  /\ Staggered.oldWaveFunction b' = Staggered.oldWaveFunction b.
Proof.
  intros N b' HN Hlen Hc. subst b'.
  unfold StaggeredMurBoundary.realComputePass, dispatch.
  cbn [Nat.mul Nat.add seq fold_left].
  unfold StaggeredMurBoundary.recomputeRealBoundary,
    StaggeredMurBoundary.sotrageBufferIndex, StaggeredMurBoundary.offset.
  cbv zeta. cbn [Staggered.waveFunction Staggered.oldWaveFunction].
  rewrite Hc.
  change (Z.of_nat 0) with 0. change (Z.of_nat 1) with 1.
  fold N.
  destruct (edge_indices_left N) as [-> ->].
  destruct (edge_indices_right N HN) as [-> ->].
  split; [|split; [|reflexivity]].
  - rewrite load_storeX_other by lia.
    rewrite load_storeX_same by (unfold inBounds; lia).
    cbn [vx]. ring.
  - rewrite load_storeX_same
      by (unfold inBounds; autorewrite with buffer_length; lia).
    cbn [vx]. ring.
Qed.

Lemma staggered_imaginary_pass_zero (d : Device) (p : Staggered.Parameters)
    (vp : R) (b : Staggered.buffers) :
  let N := Staggered.xResolution p in
  let b' := StaggeredMurBoundary.imaginaryComputePass d p vp b in
  2 <= N < U32.modulus ->
  Z.of_nat (List.length (Staggered.waveFunction b)) = N ->
  StaggeredMurBoundary.coefficient p vp = 0%R ->
  vy (load d (Staggered.waveFunction b') 0)
  = vy (load d (Staggered.oldWaveFunction b) 1)
  /\ vy (load d (Staggered.waveFunction b') (N - 1))
     = vy (load d (Staggered.oldWaveFunction b) (N - 2))
  /\ Staggered.oldWaveFunction b' = Staggered.oldWaveFunction b.
Proof.
  intros N b' HN Hlen Hc. subst b'.
  unfold StaggeredMurBoundary.imaginaryComputePass, dispatch.
  cbn [Nat.mul Nat.add seq fold_left].
  unfold StaggeredMurBoundary.recomputeImaginaryBoundary,
    StaggeredMurBoundary.sotrageBufferIndex, StaggeredMurBoundary.offset.
  cbv zeta. cbn [Staggered.waveFunction Staggered.oldWaveFunction].
  rewrite Hc.
  change (Z.of_nat 0) with 0. change (Z.of_nat 1) with 1.
  fold N.
  destruct (edge_indices_left N) as [-> ->].
  destruct (edge_indices_right N HN) as [-> ->].
  split; [|split; [|reflexivity]].
  - rewrite load_storeY_other by lia.
    rewrite load_storeY_same by (unfold inBounds; lia).
    cbn [vy]. ring.
  - rewrite load_storeY_same
      by (unfold inBounds; autorewrite with buffer_length; lia).
    cbn [vy]. ring.
Qed.

(** C7: if vp*dt = dx the coefficient (vp*dt - dx)/(vp*dt + dx) of the Mur
    update is zero, and the boundary pass completes and leaves at each edge
    point, 0 and N-1, the value its interior neighbour, 1 or N-2, had before
    the stencil update: the current buffer in the three buffer solver, the
    saved old buffer (component by component) in the staggered solver. *)
Theorem mur_boundary_when_vp_dt_is_dx (d : Device)
    (p : Leapfrog.Parameters) (ps : Staggered.Parameters) (vp : R)
    (cur updated : buffer) (b : Staggered.buffers) :
  let N := Leapfrog.xResolution p in
  2 <= N < U32.modulus ->
  Z.of_nat (List.length updated) = N ->
  Staggered.xResolution ps = N ->
  Z.of_nat (List.length (Staggered.waveFunction b)) = N ->
  (vp * Leapfrog.dt p = MurBoundary.dx p)%R ->
  (vp * Staggered.dt ps = StaggeredMurBoundary.dx ps)%R ->
  (MurBoundary.coefficient p vp = 0%R
   /\ StaggeredMurBoundary.coefficient ps vp = 0%R)
  /\ (let updated' := MurBoundary.computePass d p vp cur updated in
      load d updated' 0 = load d cur 1
      /\ load d updated' (N - 1) = load d cur (N - 2))
  /\ (let b' := StaggeredMurBoundary.realComputePass d ps vp b in
      vx (load d (Staggered.waveFunction b') 0)
      = vx (load d (Staggered.oldWaveFunction b) 1)
      /\ vx (load d (Staggered.waveFunction b') (N - 1))
         = vx (load d (Staggered.oldWaveFunction b) (N - 2)))
  /\ (let b' := StaggeredMurBoundary.imaginaryComputePass d ps vp b in
      vy (load d (Staggered.waveFunction b') 0)
      = vy (load d (Staggered.oldWaveFunction b) 1)
      /\ vy (load d (Staggered.waveFunction b') (N - 1))
         = vy (load d (Staggered.oldWaveFunction b) (N - 2))).
Proof.
  intros N HN Hlen HNs Hlens Hvp Hvps.
  assert (Hc : MurBoundary.coefficient p vp = 0%R)
    by (unfold MurBoundary.coefficient; now apply zero_coefficient).
  assert (Hcs : StaggeredMurBoundary.coefficient ps vp = 0%R)
    by (unfold StaggeredMurBoundary.coefficient; now apply zero_coefficient).
  split; [split; assumption|].
  split.
  { destruct (mur_pass_zero d p vp cur updated HN Hlen Hc) as (H0 & H1 & _).
    split; assumption. }
  rewrite <- HNs in HN, Hlens |- *.
  split.
  - destruct (staggered_real_pass_zero d ps vp b HN Hlens Hcs)
      as (H0 & H1 & _).
    split; assumption.
  - destruct (staggered_imaginary_pass_zero d ps vp b HN Hlens Hcs)
      as (H0 & H1 & _).
    split; assumption.
Qed.

Lemma mur_boundary_when_vp_dt_is_dx_witness :
  load Sample.device0
    (MurBoundary.computePass Sample.device0 SampleBoundary.leapfrog4 1
       SampleBoundary.current4 Sample.zeros4) 0
  = Vec2 3 4
  /\ load Sample.device0
       (MurBoundary.computePass Sample.device0 SampleBoundary.leapfrog4 1
          SampleBoundary.current4 Sample.zeros4) 3
     = Vec2 5 6.
Proof.
  assert (HN : 2 <= Leapfrog.xResolution SampleBoundary.leapfrog4
               < U32.modulus) by (vm_compute; split; congruence).
  assert (Hvp : (1 * Leapfrog.dt SampleBoundary.leapfrog4
                 = MurBoundary.dx SampleBoundary.leapfrog4)%R).
  { unfold MurBoundary.dx, U32.to_f32.
    change (U32.sub (Leapfrog.xResolution SampleBoundary.leapfrog4) 1) with 3.
    cbn. field. }
  assert (Hvps : (1 * Staggered.dt SampleBoundary.staggered4
                  = StaggeredMurBoundary.dx SampleBoundary.staggered4)%R).
  { unfold StaggeredMurBoundary.dx, U32.to_f32.
    change (U32.sub (Staggered.xResolution SampleBoundary.staggered4) 1)
      with 3.
    cbn. field. }
  exact (proj1 (proj2 (mur_boundary_when_vp_dt_is_dx Sample.device0
                         SampleBoundary.leapfrog4 SampleBoundary.staggered4 1
                         SampleBoundary.current4 Sample.zeros4
                         SampleBoundary.buffers4
                         HN eq_refl eq_refl eq_refl Hvp Hvps))).
Defined.

(** ** The staggered passes: one component each *)

(** Two buffers with the same imaginary (real) parts answer every load with
    the same imaginary (real) part. *)
Lemma load_vy_agree (d : Device) (b1 b2 : buffer) (i : Z) :
  (forall j : nat, vy <$> b1 !! j = vy <$> b2 !! j) ->
  vy (load d b1 i) = vy (load d b2 i).
Proof.
  intros H. specialize (H (Z.to_nat i)). unfold load.
  destruct (b1 !! Z.to_nat i), (b2 !! Z.to_nat i); cbn in *; congruence.
Qed.

Lemma load_vx_agree (d : Device) (b1 b2 : buffer) (i : Z) :
  (forall j : nat, vx <$> b1 !! j = vx <$> b2 !! j) ->
  vx (load d b1 i) = vx (load d b2 i).
Proof.
  intros H. specialize (H (Z.to_nat i)). unfold load.
  destruct (b1 !! Z.to_nat i), (b2 !! Z.to_nat i); cbn in *; congruence.
Qed.

Lemma dispatch_invariant {St} (P : St -> Prop) (size count : nat)
    (kernel : Z -> St -> St) (s : St) :
  P s -> (forall i s', P s' -> P (kernel i s')) ->
  P (dispatch size count kernel s).
Proof.
  intros Hs Hk. unfold dispatch.
  generalize (seq 0 (size * count)). intros l. revert s Hs.
  induction l as [|i l IH]; intros s Hs; cbn; [assumption|].
  apply IH, Hk, Hs.
Qed.

Lemma fold_left_seq_succ {St} (f : St -> nat -> St) (n : nat) (s : St) :
  fold_left f (seq 0 (S n)) s = f (fold_left f (seq 0 n) s) n.
Proof. rewrite seq_S, fold_left_app. reflexivity. Qed.

Section StaggeredPasses.

Variable d : Device.
Variable p : Staggered.Parameters.

Lemma realPartTimeStep_unfold (i : Z) (b : Staggered.buffers) :
  i < Staggered.xResolution p ->
  Staggered.realPartTimeStep d p i b
  = {| Staggered.oldWaveFunction :=
         storeX (Staggered.oldWaveFunction b) i
           (vx (load d (Staggered.waveFunction b) i));
       Staggered.waveFunction :=
         storeX (Staggered.waveFunction b) i
           (Staggered.nextRealPart d p (Staggered.waveFunction b) i) |}.
Proof.
  intros Hi. unfold Staggered.realPartTimeStep. kernel_runs. reflexivity.
Qed.

Lemma imaginaryPartTimeStep_unfold (i : Z) (b : Staggered.buffers) :
  i < Staggered.xResolution p ->
  Staggered.imaginaryPartTimeStep d p i b
  = {| Staggered.oldWaveFunction :=
         storeY (Staggered.oldWaveFunction b) i
           (vy (load d (Staggered.waveFunction b) i));
       Staggered.waveFunction :=
         storeY (Staggered.waveFunction b) i
           (Staggered.nextImaginaryPart d p (Staggered.waveFunction b) i) |}.
Proof.
  intros Hi. unfold Staggered.imaginaryPartTimeStep. kernel_runs. reflexivity.
Qed.

Lemma realPartTimeStep_skip (i : Z) (b : Staggered.buffers) :
  Staggered.xResolution p <= i -> Staggered.realPartTimeStep d p i b = b.
Proof.
  intros Hi. unfold Staggered.realPartTimeStep. kernel_skips. reflexivity.
Qed.

Lemma imaginaryPartTimeStep_skip (i : Z) (b : Staggered.buffers) :
  Staggered.xResolution p <= i -> Staggered.imaginaryPartTimeStep d p i b = b.
Proof.
  intros Hi. unfold Staggered.imaginaryPartTimeStep. kernel_skips. reflexivity.
Qed.

(** The real part written at [i] depends on the wave function only through
    the element at [i] and the imaginary parts. *)
Lemma nextRealPart_reads (wf1 wf2 : buffer) (i : Z) :
  (forall j : nat, vy <$> wf1 !! j = vy <$> wf2 !! j) ->
  wf1 !! Z.to_nat i = wf2 !! Z.to_nat i ->
  Staggered.nextRealPart d p wf1 i = Staggered.nextRealPart d p wf2 i.
Proof.
  intros Hy Hi. unfold Staggered.nextRealPart.
  rewrite !(load_vy_agree d wf1 wf2) by assumption.
  unfold load at 1 3. rewrite Hi. reflexivity.
Qed.

Lemma nextImaginaryPart_reads (wf1 wf2 : buffer) (i : Z) :
  (forall j : nat, vx <$> wf1 !! j = vx <$> wf2 !! j) ->
  wf1 !! Z.to_nat i = wf2 !! Z.to_nat i ->
  Staggered.nextImaginaryPart d p wf1 i
  = Staggered.nextImaginaryPart d p wf2 i.
Proof.
  intros Hx Hi. unfold Staggered.nextImaginaryPart.
  rewrite !(load_vx_agree d wf1 wf2) by assumption.
  unfold load at 1 3. rewrite Hi. reflexivity.
Qed.

(** One invocation of the real part kernel keeps every imaginary part of both
    buffers, for every index and every buffer size. *)
Lemma realPartTimeStep_keeps_vy (i : Z) (b : Staggered.buffers) (j : nat) :
  let b' := Staggered.realPartTimeStep d p i b in
  vy <$> Staggered.waveFunction b' !! j = vy <$> Staggered.waveFunction b !! j
  /\ vy <$> Staggered.oldWaveFunction b' !! j
     = vy <$> Staggered.oldWaveFunction b !! j.
Proof.
  cbv zeta. unfold Staggered.realPartTimeStep.
  destruct (Staggered.xResolution p <=? i); [split; reflexivity|].
  cbn [Staggered.waveFunction Staggered.oldWaveFunction].
  split; apply storeX_keeps_vy.
Qed.

Lemma imaginaryPartTimeStep_keeps_vx (i : Z) (b : Staggered.buffers) (j : nat) :
  let b' := Staggered.imaginaryPartTimeStep d p i b in
  vx <$> Staggered.waveFunction b' !! j = vx <$> Staggered.waveFunction b !! j
  /\ vx <$> Staggered.oldWaveFunction b' !! j
     = vx <$> Staggered.oldWaveFunction b !! j.
Proof.
  cbv zeta. unfold Staggered.imaginaryPartTimeStep.
  destruct (Staggered.xResolution p <=? i); [split; reflexivity|].
  cbn [Staggered.waveFunction Staggered.oldWaveFunction].
  split; apply storeY_keeps_vx.
Qed.

Lemma realPass_keeps_vy (b : Staggered.buffers) :
  let b' := Staggered.realPass d p b in
  forall j : nat,
    vy <$> Staggered.waveFunction b' !! j = vy <$> Staggered.waveFunction b !! j
    /\ vy <$> Staggered.oldWaveFunction b' !! j
       = vy <$> Staggered.oldWaveFunction b !! j.
Proof.
  cbv zeta. unfold Staggered.realPass.
  apply (dispatch_invariant
           (fun s => forall j : nat,
              vy <$> Staggered.waveFunction s !! j
              = vy <$> Staggered.waveFunction b !! j
              /\ vy <$> Staggered.oldWaveFunction s !! j
                 = vy <$> Staggered.oldWaveFunction b !! j)).
  - intros j. split; reflexivity.
  - intros i s' Hs' j.
    destruct (realPartTimeStep_keeps_vy i s' j) as [H1 H2].
    destruct (Hs' j) as [H3 H4]. cbv zeta in H1, H2.
    split; congruence.
Qed.

Lemma imaginaryPass_keeps_vx (b : Staggered.buffers) :
  let b' := Staggered.imaginaryPass d p b in
  forall j : nat,
    vx <$> Staggered.waveFunction b' !! j = vx <$> Staggered.waveFunction b !! j
    /\ vx <$> Staggered.oldWaveFunction b' !! j
       = vx <$> Staggered.oldWaveFunction b !! j.
Proof.
  cbv zeta. unfold Staggered.imaginaryPass.
  apply (dispatch_invariant
           (fun s => forall j : nat,
              vx <$> Staggered.waveFunction s !! j
              = vx <$> Staggered.waveFunction b !! j
              /\ vx <$> Staggered.oldWaveFunction s !! j
                 = vx <$> Staggered.oldWaveFunction b !! j)).
  - intros j. split; reflexivity.
  - intros i s' Hs' j.
    destruct (imaginaryPartTimeStep_keeps_vx i s' j) as [H1 H2].
    destruct (Hs' j) as [H3 H4]. cbv zeta in H1, H2.
    split; congruence.
Qed.

(** The state of the real pass after its first [n] invocations. *)
Lemma realPass_prefix (b : Staggered.buffers) (n : nat) :
  let N := Staggered.xResolution p in
  let s := fold_left
             (fun s i => Staggered.realPartTimeStep d p (Z.of_nat i) s)
             (seq 0 n) b in
  Z.of_nat (List.length (Staggered.waveFunction b)) = N ->
  Z.of_nat (List.length (Staggered.oldWaveFunction b)) = N ->
  (forall j : nat,
     vy <$> Staggered.waveFunction s !! j
     = vy <$> Staggered.waveFunction b !! j)
  /\ (forall j : nat, (n <= j)%nat ->
        Staggered.waveFunction s !! j = Staggered.waveFunction b !! j
        /\ Staggered.oldWaveFunction s !! j
           = Staggered.oldWaveFunction b !! j)
  /\ (forall j : nat, (j < n)%nat -> Z.of_nat j < N ->
        vx <$> Staggered.waveFunction s !! j
        = Some (Staggered.nextRealPart d p (Staggered.waveFunction b)
                  (Z.of_nat j))
        /\ vx <$> Staggered.oldWaveFunction s !! j
           = vx <$> Staggered.waveFunction b !! j).
Proof.
  intros N s Hwf Hold. subst s.
  induction n as [|n IH].
  - cbn. repeat split; try reflexivity; intros; lia.
  - rewrite fold_left_seq_succ.
    set (s := fold_left _ (seq 0 n) b) in *.
    destruct IH as (Hy & Hge & Hlt).
    destruct (Z_lt_le_dec (Z.of_nat n) N) as [Hn|Hn].
    2:{ rewrite realPartTimeStep_skip by (fold N; lia).
        split; [assumption|]. split.
        - intros j Hj. apply Hge. lia.
        - intros j Hj HjN. apply Hlt; lia. }
    rewrite realPartTimeStep_unfold by (fold N; lia).
    cbn [Staggered.waveFunction Staggered.oldWaveFunction].
    destruct (Hge n (le_n n)) as [Hwn Hon].
    assert (Hin : exists e, Staggered.waveFunction b !! n = Some e)
      by (apply lookup_lt_is_Some_2; lia).
    assert (Hio : exists e, Staggered.oldWaveFunction b !! n = Some e)
      by (apply lookup_lt_is_Some_2; lia).
    destruct Hin as [e He]. destruct Hio as [eo Heo].
    split; [|split].
    + intros j. rewrite storeX_keeps_vy. apply Hy.
    + intros j Hj. rewrite !storeX_other by (rewrite Nat2Z.id; lia).
      apply Hge. lia.
    + intros j Hj HjN.
      destruct (decide (j = n)) as [->|Hne].
      * pose proof (storeX_same (Staggered.waveFunction s) (Z.of_nat n)) as Hw.
        pose proof (storeX_same (Staggered.oldWaveFunction s) (Z.of_nat n)) as Ho.
        rewrite Nat2Z.id in Hw, Ho. rewrite Hw, Ho.
        rewrite Hwn, Hon, He, Heo. cbn.
        split; [|unfold load; rewrite Nat2Z.id, Hwn, He; reflexivity].
        f_equal. apply nextRealPart_reads; [assumption|].
        now rewrite Nat2Z.id.
      * rewrite !storeX_other by (rewrite Nat2Z.id; lia).
        apply Hlt; [lia|assumption].
Qed.

(** The state of the imaginary pass after its first [n] invocations. *)
Lemma imaginaryPass_prefix (b : Staggered.buffers) (n : nat) :
  let N := Staggered.xResolution p in
  let s := fold_left
             (fun s i => Staggered.imaginaryPartTimeStep d p (Z.of_nat i) s)
             (seq 0 n) b in
  Z.of_nat (List.length (Staggered.waveFunction b)) = N ->
  Z.of_nat (List.length (Staggered.oldWaveFunction b)) = N ->
  (forall j : nat,
     vx <$> Staggered.waveFunction s !! j
     = vx <$> Staggered.waveFunction b !! j)
  /\ (forall j : nat, (n <= j)%nat ->
        Staggered.waveFunction s !! j = Staggered.waveFunction b !! j
        /\ Staggered.oldWaveFunction s !! j
           = Staggered.oldWaveFunction b !! j)
  /\ (forall j : nat, (j < n)%nat -> Z.of_nat j < N ->
        vy <$> Staggered.waveFunction s !! j
        = Some (Staggered.nextImaginaryPart d p (Staggered.waveFunction b)
                  (Z.of_nat j))
        /\ vy <$> Staggered.oldWaveFunction s !! j
           = vy <$> Staggered.waveFunction b !! j).
Proof.
  intros N s Hwf Hold. subst s.
  induction n as [|n IH].
  - cbn. repeat split; try reflexivity; intros; lia.
  - rewrite fold_left_seq_succ.
    set (s := fold_left _ (seq 0 n) b) in *.
    destruct IH as (Hy & Hge & Hlt).
    destruct (Z_lt_le_dec (Z.of_nat n) N) as [Hn|Hn].
    2:{ rewrite imaginaryPartTimeStep_skip by (fold N; lia).
        split; [assumption|]. split.
        - intros j Hj. apply Hge. lia.
        - intros j Hj HjN. apply Hlt; lia. }
    rewrite imaginaryPartTimeStep_unfold by (fold N; lia).
    cbn [Staggered.waveFunction Staggered.oldWaveFunction].
    destruct (Hge n (le_n n)) as [Hwn Hon].
    assert (Hin : exists e, Staggered.waveFunction b !! n = Some e)
      by (apply lookup_lt_is_Some_2; lia).
    assert (Hio : exists e, Staggered.oldWaveFunction b !! n = Some e)
      by (apply lookup_lt_is_Some_2; lia).
    destruct Hin as [e He]. destruct Hio as [eo Heo].
    split; [|split].
    + intros j. rewrite storeY_keeps_vx. apply Hy.
    + intros j Hj. rewrite !storeY_other by (rewrite Nat2Z.id; lia).
      apply Hge. lia.
    + intros j Hj HjN.
      destruct (decide (j = n)) as [->|Hne].
      * pose proof (storeY_same (Staggered.waveFunction s) (Z.of_nat n)) as Hw.
        pose proof (storeY_same (Staggered.oldWaveFunction s) (Z.of_nat n)) as Ho.
        rewrite Nat2Z.id in Hw, Ho. rewrite Hw, Ho.
        rewrite Hwn, Hon, He, Heo. cbn.
        split; [|unfold load; rewrite Nat2Z.id, Hwn, He; reflexivity].
        f_equal. apply nextImaginaryPart_reads; [assumption|].
        now rewrite Nat2Z.id.
      * rewrite !storeY_other by (rewrite Nat2Z.id; lia).
        apply Hlt; [lia|assumption].
Qed.

End StaggeredPasses.

Lemma dispatch_covers_grid (N : Z) :
  0 <= N ->
  N <= Z.of_nat (Z.to_nat Staggered.WORKGROUP_SIZE
                 * workgroupCount N Staggered.WORKGROUP_SIZE).
Proof.
  intros HN. unfold workgroupCount, Staggered.WORKGROUP_SIZE.
  rewrite Nat2Z.inj_mul, !Z2Nat.id; [|apply Z.div_pos; lia|lia].
  pose proof (Z.div_mod (N + 64 - 1) 64 ltac:(lia)).
  pose proof (Z.mod_pos_bound (N + 64 - 1) 64 ltac:(lia)).
  lia.
Qed.

Lemma lookup_vx_load (d : Device) (b : buffer) (i : Z) (v : R) :
  vx <$> b !! Z.to_nat i = Some v -> vx (load d b i) = v.
Proof.
  unfold load. destruct (b !! Z.to_nat i); cbn; congruence.
Qed.

Lemma lookup_vy_load (d : Device) (b : buffer) (i : Z) (v : R) :
  vy <$> b !! Z.to_nat i = Some v -> vy (load d b i) = v.
Proof.
  unfold load. destruct (b !! Z.to_nat i); cbn; congruence.
Qed.

(** C8: with both buffers holding the N grid points, the real part pass of
    the staggered solver saves the real part of every point i into
    [oldWaveFunction[i].x] and writes [waveFunction[i].x], computed from the
    real part of i and the imaginary parts of i and its neighbours as they
    were before the pass; it leaves every imaginary part of both buffers as
    it was.  The imaginary part pass does the same with the two components
    exchanged. *)
Theorem staggered_passes_update_one_component (d : Device)
    (p : Staggered.Parameters) (b : Staggered.buffers) :
  let N := Staggered.xResolution p in
  let wf := Staggered.waveFunction b in
  let r := Staggered.realPass d p b in
  let m := Staggered.imaginaryPass d p b in
  Z.of_nat (List.length wf) = N ->
  Z.of_nat (List.length (Staggered.oldWaveFunction b)) = N ->
  (forall j : nat,
     vy <$> Staggered.waveFunction r !! j = vy <$> wf !! j
     /\ vy <$> Staggered.oldWaveFunction r !! j
        = vy <$> Staggered.oldWaveFunction b !! j)
  /\ (forall i : Z, 0 <= i < N ->
        vx (load d (Staggered.oldWaveFunction r) i) = vx (load d wf i)
        /\ vx (load d (Staggered.waveFunction r) i)
           = Staggered.nextRealPart d p wf i)
  /\ (forall (wf2 : buffer) (i : Z),
        (forall j : nat, vy <$> wf2 !! j = vy <$> wf !! j) ->
        wf2 !! Z.to_nat i = wf !! Z.to_nat i ->
        Staggered.nextRealPart d p wf2 i = Staggered.nextRealPart d p wf i)
  /\ (forall j : nat,
        vx <$> Staggered.waveFunction m !! j = vx <$> wf !! j
        /\ vx <$> Staggered.oldWaveFunction m !! j
           = vx <$> Staggered.oldWaveFunction b !! j)
  /\ (forall i : Z, 0 <= i < N ->
        vy (load d (Staggered.oldWaveFunction m) i) = vy (load d wf i)
        /\ vy (load d (Staggered.waveFunction m) i)
           = Staggered.nextImaginaryPart d p wf i)
  /\ (forall (wf2 : buffer) (i : Z),
        (forall j : nat, vx <$> wf2 !! j = vx <$> wf !! j) ->
        wf2 !! Z.to_nat i = wf !! Z.to_nat i ->
        Staggered.nextImaginaryPart d p wf2 i
        = Staggered.nextImaginaryPart d p wf i).
Proof.
  intros N wf r m Hwf Hold. subst wf.
  assert (HN : 0 <= N) by lia.
  pose proof (dispatch_covers_grid N HN) as Hcover.
  split; [exact (realPass_keeps_vy d p b)|].
  split.
  { intros i Hi.
    destruct (realPass_prefix d p b
                (Z.to_nat Staggered.WORKGROUP_SIZE
                 * workgroupCount N Staggered.WORKGROUP_SIZE) Hwf Hold)
      as (_ & _ & Hlt).
    destruct (Hlt (Z.to_nat i)) as [Hw Ho]; [lia|lia|].
    rewrite Z2Nat.id in Hw by lia.
    assert (Hin : exists e, Staggered.waveFunction b !! Z.to_nat i = Some e)
      by (apply lookup_lt_is_Some_2; lia).
    destruct Hin as [e He]. rewrite He in Ho.
    split.
    - etransitivity; [exact (lookup_vx_load d _ i _ Ho)|].
      unfold load. now rewrite He.
    - exact (lookup_vx_load d _ i _ Hw). }
  split; [intros wf2 i; apply nextRealPart_reads|].
  split; [exact (imaginaryPass_keeps_vx d p b)|].
  split.
  { intros i Hi.
    destruct (imaginaryPass_prefix d p b
                (Z.to_nat Staggered.WORKGROUP_SIZE
                 * workgroupCount N Staggered.WORKGROUP_SIZE) Hwf Hold)
      as (_ & _ & Hlt).
    destruct (Hlt (Z.to_nat i)) as [Hw Ho]; [lia|lia|].
    rewrite Z2Nat.id in Hw by lia.
    assert (Hin : exists e, Staggered.waveFunction b !! Z.to_nat i = Some e)
      by (apply lookup_lt_is_Some_2; lia).
    destruct Hin as [e He]. rewrite He in Ho.
    split.
    - etransitivity; [exact (lookup_vy_load d _ i _ Ho)|].
      unfold load. now rewrite He.
    - exact (lookup_vy_load d _ i _ Hw). }
  intros wf2 i. apply nextImaginaryPart_reads.
Qed.

Lemma staggered_passes_update_one_component_witness :
  let p := SampleBoundary.staggered4 in
  let r := Staggered.realPass Sample.device0 p SampleStaggered.start4 in
  (vy <$> Staggered.waveFunction r !! 2%nat) = Some 1%R
  /\ vx (load Sample.device0 (Staggered.waveFunction r) 1)
     = Staggered.nextRealPart Sample.device0 p
         (Staggered.waveFunction SampleStaggered.start4) 1.
Proof.
  intros p r.
  destruct (staggered_passes_update_one_component Sample.device0 p
              SampleStaggered.start4 eq_refl eq_refl)
    as (Hframe & Hwrite & _).
  split.
  - exact (proj1 (Hframe 2%nat)).
  - apply (proj2 (Hwrite 1 ltac:(vm_compute; split; congruence))).
Defined.

(** ** The norm integrals *)

Lemma sumTo_ext (n : nat) (f g : nat -> R) :
  (forall i : nat, (i < n)%nat -> f i = g i) ->
  DumpSchrodinger.sumTo n f = DumpSchrodinger.sumTo n g.
Proof.
  induction n as [|n IH]; intros H; cbn; [reflexivity|].
  rewrite IH by (intros i Hi; apply H; lia).
  rewrite (H n) by lia. reflexivity.
Qed.

Lemma sumTo_scale (n : nat) (c : R) (f : nat -> R) :
  DumpSchrodinger.sumTo n (fun i => (f i * c)%R)
  = (c * DumpSchrodinger.sumTo n f)%R.
Proof.
  induction n as [|n IH]; cbn; [ring|]. rewrite IH. ring.
Qed.

Lemma sumTo_shift (n : nat) (f : nat -> R) :
  DumpSchrodinger.sumTo (S n) f
  = (f 0%nat + DumpSchrodinger.sumTo n (fun i => f (S i)))%R.
Proof.
  induction n as [|n IH].
  - cbn. ring.
  - change (DumpSchrodinger.sumTo (S (S n)) f)
      with (DumpSchrodinger.sumTo (S n) f + f (S n))%R.
    rewrite IH. cbn. ring.
Qed.

(** A loop that adds [g i] for i = a, a+1, ..., a+n-1. *)
Lemma fold_left_adds (g : nat -> R) (a n : nat) (s0 : R) :
  fold_left (fun sum i => (sum + g i)%R) (seq a n) s0
  = (s0 + DumpSchrodinger.sumTo n (fun k => g (a + k)%nat))%R.
Proof.
  revert s0. induction n as [|n IH]; intros s0.
  - cbn. ring.
  - rewrite seq_S, fold_left_app, IH. cbn. ring.
Qed.

(** [integrateWaveFunction] is the composite trapezoidal sum
    dx * sum_{i=0}^{N-2} (|Psi_i|^2 + |Psi_{i+1}|^2)/2 with dx = L/(N-1). *)
Lemma integrateWaveFunction_is_trapezoidal (wavefunction : list R)
    (L : R) (N : nat) :
  List.length wavefunction = (2 * N)%nat ->
  DumpSchrodinger.integrateWaveFunction wavefunction L
  = DumpSchrodinger.trapezoidalRule N (L / INR (N - 1))
      (DumpSchrodinger.density wavefunction).
Proof.
  intros Hlen.
  unfold DumpSchrodinger.integrateWaveFunction,
    DumpSchrodinger.trapezoidalRule.
  rewrite Hlen.
  replace (2 * N / 2)%nat with N
    by (rewrite Nat.mul_comm, Nat.div_mul; lia).
  rewrite (fold_left_adds
             (fun i =>
                ((DumpSchrodinger.at_ wavefunction (2 * i)
                  * DumpSchrodinger.at_ wavefunction (2 * i)
                  + DumpSchrodinger.at_ wavefunction (2 * i + 1)
                    * DumpSchrodinger.at_ wavefunction (2 * i + 1)
                  + DumpSchrodinger.at_ wavefunction (2 * i + 2)
                    * DumpSchrodinger.at_ wavefunction (2 * i + 2)
                  + DumpSchrodinger.at_ wavefunction (2 * i + 3)
                    * DumpSchrodinger.at_ wavefunction (2 * i + 3)) / 2
                 * (L / INR (N - 1)))%R)).
  rewrite Rplus_0_l, <- sumTo_scale.
  apply sumTo_ext. intros i Hi. cbn [Nat.add].
  unfold DumpSchrodinger.density.
  replace (2 * (i + 1))%nat with (2 * i + 2)%nat by lia.
  replace (2 * i + 2 + 1)%nat with (2 * i + 3)%nat by lia.
  lra.
Qed.

Lemma loop_weight_is_simpson_weight (N i : nat) :
  (1 <= i)%nat -> (i + 2 <= N)%nat ->
  INR ((i mod 2 + 1) * 2) = DumpSchrodinger.simpsonWeight N i.
Proof.
  intros H1 H2. unfold DumpSchrodinger.simpsonWeight.
  replace (i =? 0)%nat with false by (symmetry; apply Nat.eqb_neq; lia).
  replace (i =? N - 1)%nat with false by (symmetry; apply Nat.eqb_neq; lia).
  cbn [orb].
  destruct (Nat.Even_or_Odd i) as [[h ->]|[h ->]].
  - rewrite Nat.odd_even.
    replace ((2 * h) mod 2)%nat with 0%nat
      by (symmetry; rewrite Nat.mul_comm; apply Nat.Div0.mod_mul).
    cbn. lra.
  - rewrite Nat.odd_odd.
    replace ((2 * h + 1) mod 2)%nat with 1%nat
      by (symmetry; rewrite Nat.add_comm, Nat.mul_comm;
          apply (Nat.Div0.mod_add 1 h 2)).
    cbn. lra.
Qed.

(** For every N >= 3 the sum of [simpson] is the composite Simpson sum
    without the term of the point N-2: the loop stops at N-3. *)
Lemma simpson_misses_one_term (wavefunction : list R) (L : R) (N : nat) :
  (3 <= N)%nat ->
  List.length wavefunction = (2 * N)%nat ->
  let dx := (L / INR (N - 1))%R in
  let rho := DumpSchrodinger.density wavefunction in
  DumpSchrodinger.simpson wavefunction L
  = (DumpSchrodinger.simpsonRule N dx rho
     - dx / 3 * (DumpSchrodinger.simpsonWeight N (N - 2) * rho (N - 2)%nat))%R.
Proof.
  intros HN Hlen dx rho.
  unfold DumpSchrodinger.simpson, DumpSchrodinger.simpsonRule.
  rewrite Hlen.
  replace (2 * N / 2)%nat with N
    by (rewrite Nat.mul_comm, Nat.div_mul; lia).
  destruct N as [|[|[|m]]]; try lia.
  replace (S (S (S m)) - 2 - 1)%nat with m by lia.
  replace (S (S (S m)) - 1)%nat with (S (S m)) in * by lia.
  replace (S (S (S m)) - 2)%nat with (S m) by lia.
  rewrite (fold_left_adds
             (fun i =>
                (INR ((i mod 2 + 1) * 2)
                 * (DumpSchrodinger.at_ wavefunction (2 * i)
                    * DumpSchrodinger.at_ wavefunction (2 * i)
                    + DumpSchrodinger.at_ wavefunction (2 * i + 1)
                      * DumpSchrodinger.at_ wavefunction (2 * i + 1)))%R)).
  change (DumpSchrodinger.sumTo (S (S (S m)))
            (fun i => DumpSchrodinger.simpsonWeight (S (S (S m))) i * rho i)%R)
    with (DumpSchrodinger.sumTo (S m)
            (fun i => DumpSchrodinger.simpsonWeight (S (S (S m))) i * rho i)%R
          + DumpSchrodinger.simpsonWeight (S (S (S m))) (S m) * rho (S m)
          + DumpSchrodinger.simpsonWeight (S (S (S m))) (S (S m))
            * rho (S (S m)))%R.
  rewrite sumTo_shift.
  rewrite (sumTo_ext m
             (fun k =>
                (INR (((1 + k) mod 2 + 1) * 2)
                 * (DumpSchrodinger.at_ wavefunction (2 * (1 + k))
                    * DumpSchrodinger.at_ wavefunction (2 * (1 + k))
                    + DumpSchrodinger.at_ wavefunction (2 * (1 + k) + 1)
                      * DumpSchrodinger.at_ wavefunction (2 * (1 + k) + 1)))%R)
             (fun i =>
                DumpSchrodinger.simpsonWeight (S (S (S m))) (S i)
                * rho (S i))%R).
  2:{ intros k Hk.
      rewrite (loop_weight_is_simpson_weight (S (S (S m)))) by lia.
      reflexivity. }
  assert (Hfirst : DumpSchrodinger.simpsonWeight (S (S (S m))) 0 = 1%R)
    by reflexivity.
  assert (Hlast :
    DumpSchrodinger.simpsonWeight (S (S (S m))) (S (S m)) = 1%R).
  { unfold DumpSchrodinger.simpsonWeight.
    replace (S (S m) =? S (S (S m)) - 1)%nat with true
      by (symmetry; apply Nat.eqb_eq; lia).
    now rewrite orb_true_r. }
  rewrite Hfirst, Hlast.
  subst dx rho. unfold DumpSchrodinger.density.
  change (2 * 0)%nat with 0%nat. change (0 + 1)%nat with 1%nat.
  change (S (S (S m)) - 1)%nat with (S (S m)).
  unfold Rdiv. rewrite Rinv_mult. ring.
Qed.

(** C9, at an input where [simpson] is not Simpson's rule: for the three
    samples Psi = (0, 1, 0) over the length 2 (dx = 1) the composite
    Simpson sum (dx/3)(|Psi_0|^2 + 4|Psi_1|^2 + |Psi_2|^2) is 4/3, and
    [simpson] returns 0: its loop runs over i < N-2 and never adds the
    point N-2.  On the same input [integrateWaveFunction] returns the
    trapezoidal sum, 1. *)
Theorem simpson_misses_point_before_last :
  DumpSchrodinger.simpson SampleNorm.spike3 2 = 0%R
  /\ DumpSchrodinger.simpsonRule 3 (2 / INR (3 - 1))
       (DumpSchrodinger.density SampleNorm.spike3) = (4 / 3)%R
  /\ DumpSchrodinger.integrateWaveFunction SampleNorm.spike3 2 = 1%R
  /\ DumpSchrodinger.trapezoidalRule 3 (2 / INR (3 - 1))
       (DumpSchrodinger.density SampleNorm.spike3) = 1%R.
Proof.
  assert (Hrule :
    DumpSchrodinger.simpsonRule 3 (2 / INR (3 - 1))
      (DumpSchrodinger.density SampleNorm.spike3) = (4 / 3)%R).
  { unfold DumpSchrodinger.simpsonRule, DumpSchrodinger.sumTo,
      DumpSchrodinger.simpsonWeight, DumpSchrodinger.density,
      DumpSchrodinger.at_.
    cbn. field. }
  assert (Htrap :
    DumpSchrodinger.trapezoidalRule 3 (2 / INR (3 - 1))
      (DumpSchrodinger.density SampleNorm.spike3) = 1%R).
  { unfold DumpSchrodinger.trapezoidalRule, DumpSchrodinger.sumTo,
      DumpSchrodinger.density, DumpSchrodinger.at_.
    cbn. field. }
  split; [|split; [exact Hrule|split; [|exact Htrap]]].
  - rewrite (simpson_misses_one_term SampleNorm.spike3 2 3)
      by (try reflexivity; lia).
    rewrite Hrule.
    unfold DumpSchrodinger.simpsonWeight, DumpSchrodinger.density,
      DumpSchrodinger.at_.
    cbn. field.
  - rewrite (integrateWaveFunction_is_trapezoidal SampleNorm.spike3 2 3)
      by reflexivity.
    exact Htrap.
Qed.

(** * Further properties of the solvers *)

(** ** Dispatches larger than the grid *)

Lemma fold_left_skips {St} (k : St -> nat -> St) (a n : nat) (s : St) :
  (forall (i : nat) (s' : St), (a <= i)%nat -> k s' i = s') ->
  fold_left k (seq a n) s = s.
Proof.
  revert a s. induction n as [|n IH]; intros a s Hk; cbn; [reflexivity|].
  rewrite Hk by lia. apply IH. intros i s' Hi. apply Hk. lia.
Qed.

(** Invocations past the grid return at the guard, so a dispatch that covers
    the grid is the fold over the N grid points. *)
Lemma dispatch_beyond_grid {St} (kernel : Z -> St -> St) (N : Z)
    (size count : nat) (s : St) :
  0 <= N ->
  (forall (i : Z) (s' : St), N <= i -> kernel i s' = s') ->
  N <= Z.of_nat (size * count) ->
  dispatch size count kernel s
  = fold_left (fun s' i => kernel (Z.of_nat i) s') (seq 0 (Z.to_nat N)) s.
Proof.
  intros HN Hskip Hcover. unfold dispatch.
  replace (size * count)%nat
    with (Z.to_nat N + (size * count - Z.to_nat N))%nat by lia.
  rewrite seq_app, fold_left_app.
  apply fold_left_skips. intros i s' Hi. apply Hskip. lia.
Qed.

Lemma workgroupCount_covers (N : Z) :
  0 <= N -> N <= Z.of_nat (64 * workgroupCount N 64).
Proof. exact (dispatch_covers_grid N). Qed.

(** A fold of invocations that each write the value [(f i, g i)] at their own
    index. *)
Lemma fold_pointwise (f g : Z -> R) (kernel : Z -> buffer -> buffer)
    (u : buffer) (n : nat) :
  (forall (i : nat) (u' : buffer), (i < n)%nat ->
     kernel (Z.of_nat i) u'
     = storeY (storeX u' (Z.of_nat i) (f (Z.of_nat i))) (Z.of_nat i)
         (g (Z.of_nat i))) ->
  let u' := fold_left (fun u' i => kernel (Z.of_nat i) u') (seq 0 n) u in
  List.length u' = List.length u
  /\ (forall j : nat, (j < n)%nat -> (j < List.length u)%nat ->
        u' !! j = Some (Vec2 (f (Z.of_nat j)) (g (Z.of_nat j))))
  /\ (forall j : nat, (n <= j)%nat -> u' !! j = u !! j).
Proof.
  intros Hk. cbv zeta.
  induction n as [|n IH].
  - cbn. repeat split; intros; try reflexivity; lia.
  - rewrite fold_left_seq_succ.
    destruct IH as (Hlen & Hlt & Hge); [intros i v Hi; apply Hk; lia|].
    set (s := fold_left _ (seq 0 n) u) in *.
    rewrite Hk by lia.
    split; [autorewrite with buffer_length; exact Hlen|].
    split.
    + intros j Hj Hju.
      destruct (decide (j = n)) as [->|Hne].
      * pose proof (storeY_same (storeX s (Z.of_nat n) (f (Z.of_nat n)))
                      (Z.of_nat n) (g (Z.of_nat n))) as Hy.
        pose proof (storeX_same s (Z.of_nat n) (f (Z.of_nat n))) as Hx.
        rewrite Nat2Z.id in Hy, Hx. rewrite Hy, Hx.
        destruct (lookup_lt_is_Some_2 s n) as [e He]; [lia|].
        rewrite He. reflexivity.
      * rewrite storeY_storeX_other by (rewrite Nat2Z.id; lia).
        apply Hlt; lia.
    + intros j Hj.
      rewrite storeY_storeX_other by (rewrite Nat2Z.id; lia).
      apply Hge. lia.
Qed.

(** ** One dispatch of the two buffer kernel over the grid *)

Lemma twoBuffer_timeStep_skip (d : Device) (p : TwoBuffer.Parameters)
    (wf u : buffer) (i : Z) :
  TwoBuffer.xResolution p <= i -> TwoBuffer.timeStep d p wf u i = u.
Proof. intros Hi. unfold TwoBuffer.timeStep. kernel_skips. reflexivity. Qed.

Lemma twoBuffer_pass_fold (d : Device) (p : TwoBuffer.Parameters)
    (workgroups : nat) (wf u : buffer) :
  0 <= TwoBuffer.xResolution p <= Z.of_nat (64 * workgroups) ->
  TwoBufferRun.pass d p workgroups wf u
  = fold_left (fun u' i => TwoBuffer.timeStep d p wf u' (Z.of_nat i))
      (seq 0 (Z.to_nat (TwoBuffer.xResolution p))) u.
Proof.
  intros HN. unfold TwoBufferRun.pass.
  apply (dispatch_beyond_grid
           (fun index u' => TwoBuffer.timeStep d p wf u' index)
           (TwoBuffer.xResolution p)); [lia| |lia].
  intros i s' Hi. now apply twoBuffer_timeStep_skip.
Qed.

(** What the dispatch leaves at each grid point, with the neighbour indices
    as the kernel computes them. *)
Lemma twoBuffer_pass_at (d : Device) (p : TwoBuffer.Parameters)
    (workgroups : nat) (wf u : buffer) (i : Z) :
  let N := TwoBuffer.xResolution p in
  let dx22 := (TwoBuffer.dx p * TwoBuffer.dx p * 2)%R in
  let u' := TwoBufferRun.pass d p workgroups wf u in
  N <= Z.of_nat (64 * workgroups) ->
  Z.of_nat (List.length u) = N ->
  0 <= i < N ->
  load d u' i
  = Vec2
      (vx (load d wf i)
       - ((vy (load d wf (indexPlusDx N i)) - 2 * vy (load d wf i)
           + vy (load d wf (indexMinusDx i))) / dx22) * TwoBuffer.dt p)%R
      (vy (load d wf i)
       + ((vx (load d wf (indexPlusDx N i)) - 2 * vx (load d wf i)
           + vx (load d wf (indexMinusDx i))) / dx22) * TwoBuffer.dt p)%R
  /\ List.length u' = List.length u.
Proof.
  intros N dx22 u' Hcover Hlen Hi. subst u'.
  rewrite twoBuffer_pass_fold by (fold N; lia).
  destruct (fold_pointwise
              (fun i =>
                 (vx (load d wf i)
                  - ((vy (load d wf (indexPlusDx N i)) - 2 * vy (load d wf i)
                      + vy (load d wf (indexMinusDx i))) / dx22)
                    * TwoBuffer.dt p)%R)
              (fun i =>
                 (vy (load d wf i)
                  + ((vx (load d wf (indexPlusDx N i)) - 2 * vx (load d wf i)
                      + vx (load d wf (indexMinusDx i))) / dx22)
                    * TwoBuffer.dt p)%R)
              (fun index u' => TwoBuffer.timeStep d p wf u' index)
              u (Z.to_nat N)) as (Hlen' & Hlt & _).
  { intros j v Hj. unfold TwoBuffer.timeStep. fold N. kernel_runs.
    reflexivity. }
  split; [|exact Hlen'].
  apply load_inside. specialize (Hlt (Z.to_nat i)).
  rewrite Z2Nat.id in Hlt by lia. apply Hlt; lia.
Qed.

(** X1: after one dispatch of the two buffer [timeStep] pipeline that covers
    the grid, every interior point holds the first order update
      Re'[i] = Re[i] - dt (Im[i+1] - 2 Im[i] + Im[i-1]) / (2 dx^2)
      Im'[i] = Im[i] + dt (Re[i+1] - 2 Re[i] + Re[i-1]) / (2 dx^2)
    of the source buffer, and the target buffer keeps its size. *)
Theorem two_buffer_pass_interior (d : Device) (p : TwoBuffer.Parameters)
    (workgroups : nat) (wf u : buffer) (i : Z) :
  let N := TwoBuffer.xResolution p in
  let Re (j : Z) := vx (load d wf j) in
  let Im (j : Z) := vy (load d wf j) in
  let dt := TwoBuffer.dt p in
  let dx := (TwoBuffer.length p / IZR (N - 1))%R in
  let u' := TwoBufferRun.pass d p workgroups wf u in
  N < U32.modulus ->
  N <= Z.of_nat (64 * workgroups) ->
  Z.of_nat (List.length u) = N ->
  1 <= i <= N - 2 ->
  load d u' i
  = Vec2
      (Re i - dt * (Im (i + 1)%Z - 2 * Im i + Im (i - 1)%Z) / (2 * dx ^ 2))%R
      (Im i + dt * (Re (i + 1)%Z - 2 * Re i + Re (i - 1)%Z) / (2 * dx ^ 2))%R
  /\ List.length u' = List.length u.
Proof.
  intros N Re Im dt dx u' HN Hcover Hlen Hi.
  destruct (twoBuffer_pass_at d p workgroups wf u i Hcover Hlen) as [Hat Hl];
    [fold N; lia|].
  split; [|exact Hl].
  subst u'. rewrite Hat. fold N.
  rewrite indexPlusDx_interior, indexMinusDx_interior
    by (try unfold U32.modulus in *; lia).
  unfold TwoBuffer.dx. fold N. rewrite to_f32_pred by lia. fold dx.
  subst Re Im dt. cbv beta.
  replace (2 * dx ^ 2)%R with (dx * dx * 2)%R by ring.
  f_equal; unfold Rdiv; ring.
Qed.

Lemma two_buffer_pass_interior_witness :
  let wf := [Vec2 0 0; Vec2 0 0; Vec2 0 2; Vec2 0 0] in
  load Sample.device0
    (TwoBufferRun.pass Sample.device0 Sample.grid4 1 wf Sample.zeros4) 1
  = Vec2 (-1) 0.
Proof.
  intros wf.
  assert (HN : TwoBuffer.xResolution Sample.grid4 < U32.modulus)
    by (vm_compute; congruence).
  assert (Hc : TwoBuffer.xResolution Sample.grid4 <= Z.of_nat (64 * 1))
    by (vm_compute; congruence).
  assert (Hi : 1 <= 1 <= TwoBuffer.xResolution Sample.grid4 - 2)
    by (vm_compute; split; congruence).
  rewrite (proj1 (two_buffer_pass_interior Sample.device0 Sample.grid4 1 wf
                    Sample.zeros4 1 HN Hc eq_refl Hi)).
  change (TwoBuffer.xResolution Sample.grid4 - 1) with 3.
  change (load Sample.device0 wf (1 + 1)) with (Vec2 0 2).
  change (load Sample.device0 wf 1) with (Vec2 0 0).
  change (load Sample.device0 wf (1 - 1)) with (Vec2 0 0).
  cbn. f_equal; field.
Defined.

(** X2: at the last grid point the right neighbour index is clamped to the
    point itself, so the dispatch leaves there
      Re'[N-1] = Re[N-1] - dt (Im[N-2] - Im[N-1]) / (2 dx^2)
      Im'[N-1] = Im[N-1] + dt (Re[N-2] - Re[N-1]) / (2 dx^2). *)
Theorem two_buffer_pass_right_edge (d : Device) (p : TwoBuffer.Parameters)
    (workgroups : nat) (wf u : buffer) :
  let N := TwoBuffer.xResolution p in
  let Re (j : Z) := vx (load d wf j) in
  let Im (j : Z) := vy (load d wf j) in
  let dt := TwoBuffer.dt p in
  let dx := (TwoBuffer.length p / IZR (N - 1))%R in
  let u' := TwoBufferRun.pass d p workgroups wf u in
  2 <= N < U32.modulus ->
  N <= Z.of_nat (64 * workgroups) ->
  Z.of_nat (List.length u) = N ->
  load d u' (N - 1)
  = Vec2
      (Re (N - 1)%Z - dt * (Im (N - 2)%Z - Im (N - 1)%Z) / (2 * dx ^ 2))%R
      (Im (N - 1)%Z + dt * (Re (N - 2)%Z - Re (N - 1)%Z) / (2 * dx ^ 2))%R.
Proof.
  intros N Re Im dt dx u' HN Hcover Hlen.
  destruct (twoBuffer_pass_at d p workgroups wf u (N - 1) Hcover Hlen)
    as [Hat _]; [fold N; lia|].
  subst u'. rewrite Hat. fold N.
  assert (Hplus : indexPlusDx N (N - 1) = N - 1).
  { unfold indexPlusDx. rewrite u32_add_exact, u32_sub_exact by lia. lia. }
  rewrite Hplus, indexMinusDx_interior by lia.
  replace (N - 1 - 1) with (N - 2) by lia.
  unfold TwoBuffer.dx. fold N. rewrite to_f32_pred by lia. fold dx.
  subst Re Im dt. cbv beta.
  replace (2 * dx ^ 2)%R with (dx * dx * 2)%R by ring.
  f_equal; unfold Rdiv; ring.
Qed.

Lemma two_buffer_pass_right_edge_witness :
  let wf := [Vec2 0 0; Vec2 0 0; Vec2 0 2; Vec2 0 0] in
  load Sample.device0
    (TwoBufferRun.pass Sample.device0 Sample.grid4 1 wf Sample.zeros4) 3
  = Vec2 (-1) 0.
Proof.
  intros wf.
  assert (HN : 2 <= TwoBuffer.xResolution Sample.grid4 < U32.modulus)
    by (vm_compute; split; congruence).
  assert (Hc : TwoBuffer.xResolution Sample.grid4 <= Z.of_nat (64 * 1))
    by (vm_compute; congruence).
  etransitivity;
    [exact (two_buffer_pass_right_edge Sample.device0 Sample.grid4 1 wf
              Sample.zeros4 HN Hc eq_refl)|].
  change (TwoBuffer.xResolution Sample.grid4) with 4.
  change (4 - 1) with 3. change (4 - 2) with 2. cbn.
  change (load Sample.device0 wf 3) with (Vec2 0 0).
  change (load Sample.device0 wf 2) with (Vec2 0 2).
  cbn. f_equal; field.
Defined.

(** X3: invocations past the grid return at the guard: any number of
    workgroups that covers the grid gives the same buffer as the
    [Math.ceil(xResolution/64)] workgroups [step] dispatches, which do cover
    it. *)
Theorem two_buffer_pass_any_cover (d : Device) (p : TwoBuffer.Parameters)
    (workgroups : nat) (wf u : buffer) :
  let N := TwoBuffer.xResolution p in
  0 <= N ->
  N <= Z.of_nat (64 * workgroups) ->
  N <= Z.of_nat (64 * workgroupCount N 64)
  /\ TwoBufferRun.pass d p workgroups wf u
     = TwoBufferRun.pass d p (workgroupCount N 64) wf u.
Proof.
  intros N HN Hcover.
  pose proof (workgroupCount_covers N HN) as Hc.
  split; [exact Hc|].
  rewrite !twoBuffer_pass_fold by (fold N; lia). reflexivity.
Qed.

Lemma two_buffer_pass_any_cover_witness :
  TwoBufferRun.pass Sample.device0 Sample.grid4 5 Sample.zeros4 Sample.zeros4
  = TwoBufferRun.pass Sample.device0 Sample.grid4
      (workgroupCount 4 64) Sample.zeros4 Sample.zeros4.
Proof.
  apply (two_buffer_pass_any_cover Sample.device0 Sample.grid4 5
           Sample.zeros4 Sample.zeros4).
  - vm_compute; congruence.
  - vm_compute; congruence.
Defined.

(** ** The workgroup tuned kernel and the two buffer solver *)

Lemma fold_left_seq_ext {St} (f g : St -> nat -> St) (a n : nat) (s : St) :
  (forall (i : nat) (s' : St), (a <= i < a + n)%nat -> f s' i = g s' i) ->
  fold_left f (seq a n) s = fold_left g (seq a n) s.
Proof.
  revert a s. induction n as [|n IH]; intros a s H; cbn; [reflexivity|].
  rewrite H by lia. apply IH. intros i s' Hi. apply H. lia.
Qed.

(** Between two barriers the tuned workgroup does what one dispatch of the
    two buffer pipeline does. *)
Lemma phase_is_pass (d : Device) (p : TwoBuffer.Parameters)
    (workgroups : nat) (wf u : buffer) :
  let N := TwoBuffer.xResolution p in
  0 <= N <= Z.of_nat (64 * workgroups) ->
  TunedKernel.phase d p N wf u = TwoBufferRun.pass d p workgroups wf u.
Proof.
  intros N HN. rewrite twoBuffer_pass_fold by (fold N; lia).
  unfold TunedKernel.phase, dispatch. rewrite Nat.mul_1_r. fold N.
  apply fold_left_seq_ext. intros i s' Hi.
  unfold TwoBuffer.timeStep. fold N. kernel_runs. reflexivity.
Qed.

Lemma run_alternating (d : Device) (p : TwoBuffer.Parameters)
    (workgroups n a : nat) (m : TwoBufferRun.memory) :
  let N := TwoBuffer.xResolution p in
  0 <= N <= Z.of_nat (64 * workgroups) ->
  (a mod 2 = 0)%nat ->
  TwoBufferRun.run d p
    ((fun j => (TwoBuffer.waveFunctionBindGroup (j mod 2), workgroups))
     <$> seq a (2 * n)) m
  = TunedKernel.loop d p N n m.
Proof.
  intros N HN. revert a m.
  induction n as [|n IH]; intros a m Ha; [reflexivity|].
  replace (2 * S n)%nat with (S (S (2 * n))) by lia.
  cbn [seq fmap list_fmap]. unfold TwoBufferRun.run. cbn [fold_left].
  assert (Ha1 : (S a mod 2 = 1)%nat).
  { rewrite mod2_succ, Ha. reflexivity. }
  assert (Ha2 : (S (S a) mod 2 = 0)%nat).
  { rewrite mod2_succ, Ha1. reflexivity. }
  rewrite Ha, Ha1.
  change (fold_left (fun m0 c => TwoBufferRun.runDispatch d p c m0) ?l ?x)
    with (TwoBufferRun.run d p l x).
  rewrite (IH (S (S a))) by assumption.
  cbn [TunedKernel.loop]. f_equal.
  unfold TwoBufferRun.runDispatch, TwoBuffer.waveFunctionBindGroup.
  cbn [fst snd TwoBuffer.binding0 TwoBuffer.binding1 TwoBufferRun.read
       TwoBufferRun.write TwoBufferRun.waveFunction0
       TwoBufferRun.waveFunction1].
  rewrite !phase_is_pass with (workgroups := workgroups) by assumption.
  reflexivity.
Qed.

(** X4: one dispatch of the workgroup tuned kernel with [iterations] loop
    turns leaves in the two buffers what [2*iterations] dispatches of the two
    buffer solver leave, that is what its [step(2*iterations)] submits: each
    turn of the loop is two time steps, and the result ends in buffer 0. *)
Theorem tuned_timeSteps_is_two_buffer_steps (d : Device)
    (s : TwoBuffer.Solver) (iterations : nat) (m : TwoBufferRun.memory) :
  let p := TwoBuffer.params s in
  let N := TwoBuffer.xResolution p in
  0 <= N ->
  TunedKernel.timeSteps d p N (Z.of_nat iterations) m
  = TwoBufferRun.run d p (TwoBuffer.stepCommands (2 * iterations) s) m.
Proof.
  intros p N HN. unfold TunedKernel.timeSteps. rewrite Nat2Z.id.
  rewrite stepCommands_eq. fold p. fold N.
  symmetry. apply run_alternating; [|reflexivity].
  split; [assumption|]. apply workgroupCount_covers. assumption.
Qed.

Lemma tuned_timeSteps_is_two_buffer_steps_witness :
  let s := {| TwoBuffer.params := Sample.grid4; TwoBuffer.running := false;
              TwoBuffer.submitted := [] |} in
  let m := {| TwoBufferRun.waveFunction0 := SampleBoundary.current4;
              TwoBufferRun.waveFunction1 := Sample.zeros4 |} in
  TunedKernel.timeSteps Sample.device0 Sample.grid4 4 250 m
  = TwoBufferRun.run Sample.device0 Sample.grid4
      (TwoBuffer.stepCommands 500 s) m.
Proof.
  intros s m.
  apply (tuned_timeSteps_is_two_buffer_steps Sample.device0 s 250 m).
  vm_compute. congruence.
Defined.

(** ** The rotation of the three buffer solver *)

Lemma leapfrog_stepLoop_recorded (n i : nat) (s : LeapfrogSolver.Solver)
    (e : LeapfrogSolver.passEncoder) :
  LeapfrogSolver.running s = true ->
  LeapfrogSolver.recorded (LeapfrogSolver.stepLoop n i s e)
  = LeapfrogSolver.recorded e
    ++ ((fun j => (Leapfrog.waveFunctionBindGroup (j mod 3),
                   workgroupCount
                     (Leapfrog.xResolution (LeapfrogSolver.params s)) 64))
        <$> seq i n).
Proof.
  intros Hrun. revert i e.
  induction n as [|n IH]; intros i e; cbn.
  - now rewrite app_nil_r.
  - rewrite Hrun, IH. cbn. now rewrite <- app_assoc.
Qed.

Lemma leapfrog_stepCommands_eq (count : nat) (s : LeapfrogSolver.Solver) :
  LeapfrogSolver.stepCommands count s
  = (fun j => (Leapfrog.waveFunctionBindGroup (j mod 3),
               workgroupCount
                 (Leapfrog.xResolution (LeapfrogSolver.params s)) 64))
    <$> seq 0 count.
Proof.
  unfold LeapfrogSolver.stepCommands.
  rewrite leapfrog_stepLoop_recorded by reflexivity. reflexivity.
Qed.

Lemma mod3_cases (i : nat) :
  (i mod 3 = 0 /\ (i + 1) mod 3 = 1 /\ (i + 2) mod 3 = 2
   \/ i mod 3 = 1 /\ (i + 1) mod 3 = 2 /\ (i + 2) mod 3 = 0
   \/ i mod 3 = 2 /\ (i + 1) mod 3 = 0 /\ (i + 2) mod 3 = 1)%nat.
Proof.
  pose proof (Nat.div_mod_eq i 3).
  pose proof (Nat.div_mod_eq (i + 1) 3).
  pose proof (Nat.div_mod_eq (i + 2) 3).
  pose proof (Nat.mod_upper_bound i 3).
  pose proof (Nat.mod_upper_bound (i + 1) 3).
  pose proof (Nat.mod_upper_bound (i + 2) 3).
  lia.
Qed.

Lemma leapfrog_bind_group_buffers (i : nat) :
  Leapfrog.waveFunctionBindGroup (i mod 3)
  = {| Leapfrog.binding0 := LeapfrogSolver.waveFunctionBuffer (i mod 3);
       Leapfrog.binding1 := LeapfrogSolver.waveFunctionBuffer ((i + 1) mod 3);
       Leapfrog.binding2 :=
         LeapfrogSolver.waveFunctionBuffer ((i + 2) mod 3) |}.
Proof.
  destruct (mod3_cases i) as [(-> & -> & ->)|[(-> & -> & ->)|(-> & -> & ->)]];
    reflexivity.
Qed.

(** X5: a call [step(count)] of the leapfrog solver records [count]
    dispatches, whatever was submitted or stopped before; the [i]th reads
    buffer [i mod 3] as the old and buffer [(i+1) mod 3] as the current wave
    function and writes buffer [(i+2) mod 3]; and the dispatches chain: the
    buffer one dispatch writes is the current buffer of the next, and its
    current buffer is the old buffer of the next. *)
Theorem leapfrog_step_rotation (s : LeapfrogSolver.Solver) (count : nat) :
  let commands := LeapfrogSolver.stepCommands count s in
  List.length commands = count
  /\ (forall i : nat, (i < count)%nat ->
        fst <$> commands !! i
        = Some {| Leapfrog.binding0 :=
                    LeapfrogSolver.waveFunctionBuffer (i mod 3);
                  Leapfrog.binding1 :=
                    LeapfrogSolver.waveFunctionBuffer ((i + 1) mod 3);
                  Leapfrog.binding2 :=
                    LeapfrogSolver.waveFunctionBuffer ((i + 2) mod 3) |})
  /\ (forall (i : nat) (g g' : Leapfrog.bindGroup),
        fst <$> commands !! i = Some g ->
        fst <$> commands !! S i = Some g' ->
        Leapfrog.binding1 g' = Leapfrog.binding2 g
        /\ Leapfrog.binding0 g' = Leapfrog.binding1 g).
Proof.
  cbv zeta. rewrite leapfrog_stepCommands_eq.
  assert (Hat : forall i : nat, (i < count)%nat ->
            fst <$> ((fun j =>
                        (Leapfrog.waveFunctionBindGroup (j mod 3),
                         workgroupCount
                           (Leapfrog.xResolution (LeapfrogSolver.params s))
                           64)) <$> seq 0 count) !! i
            = Some (Leapfrog.waveFunctionBindGroup (i mod 3))).
  { intros i Hi. rewrite list_lookup_fmap, lookup_seq_lt by assumption.
    reflexivity. }
  split; [rewrite length_fmap; apply length_seq|].
  split.
  - intros i Hi. rewrite Hat by assumption.
    now rewrite leapfrog_bind_group_buffers.
  - intros i g g' Hg Hg'.
    assert (Hi : (S i < count)%nat).
    { destruct (decide (S i < count)%nat) as [H|H]; [exact H|].
      rewrite list_lookup_fmap, lookup_seq_ge in Hg' by lia. discriminate. }
    rewrite Hat in Hg, Hg' by lia.
    assert (Eg : g = Leapfrog.waveFunctionBindGroup (i mod 3))
      by congruence.
    assert (Eg' : g' = Leapfrog.waveFunctionBindGroup (S i mod 3))
      by congruence.
    rewrite Eg, Eg'. clear Hg Hg' Eg Eg'.
    replace (S i) with (i + 1)%nat by lia.
    destruct (mod3_cases i) as [(-> & -> & _)|[(-> & -> & _)|(-> & -> & _)]];
      split; reflexivity.
Qed.

Lemma leapfrog_step_rotation_witness :
  let s := {| LeapfrogSolver.params := SampleBoundary.leapfrog4;
              LeapfrogSolver.running := false;
              LeapfrogSolver.submitted := [] |} in
  (4 < 5)%nat
  /\ fst <$> LeapfrogSolver.stepCommands 5 s !! 4%nat
     = Some {| Leapfrog.binding0 := Leapfrog.WaveFunction1;
               Leapfrog.binding1 := Leapfrog.WaveFunction2;
               Leapfrog.binding2 := Leapfrog.WaveFunction0 |}.
Proof.
  intros s. assert (H : (4 < 5)%nat) by lia.
  split; [exact H|].
  exact (proj1 (proj2 (leapfrog_step_rotation s 5)) 4%nat H).
Defined.

(** ** Consecutive calls of [step] *)

Lemma fmap_seq_shift {A} (f : nat -> A) (a n : nat) :
  f <$> seq a n = (fun j => f (a + j)%nat) <$> seq 0 n.
Proof.
  rewrite <- (Nat.add_0_r a) at 1. rewrite <- fmap_add_seq.
  rewrite <- list_fmap_compose. reflexivity.
Qed.

Lemma fmap_seq_ext {A} (f g : nat -> A) (n : nat) :
  (forall j : nat, (j < n)%nat -> f j = g j) ->
  f <$> seq 0 n = g <$> seq 0 n.
Proof.
  intros H. apply list_eq. intros i. rewrite !list_lookup_fmap.
  destruct (decide (i < n)%nat) as [Hi|Hi].
  - rewrite lookup_seq_lt by assumption. cbn. f_equal. apply H. assumption.
  - rewrite lookup_seq_ge by lia. reflexivity.
Qed.

(** X6: two calls of the two buffer [step] submit the dispatches of one call
    with the summed count exactly when the first count is even (the second
    being at least 1): only then does the second call go on from the buffer
    last written. *)
Theorem two_buffer_steps_compose (s : TwoBuffer.Solver) (a b : nat) :
  (1 <= b)%nat ->
  TwoBuffer.submitted (TwoBuffer.step b (TwoBuffer.step a s))
  = TwoBuffer.submitted s ++ TwoBuffer.stepCommands (a + b) s
  <-> Nat.even a = true.
Proof.
  intros Hb.
  unfold TwoBuffer.step at 1. cbn [TwoBuffer.submitted].
  unfold TwoBuffer.step at 1. cbn [TwoBuffer.submitted].
  rewrite !stepCommands_eq. cbn [TwoBuffer.step TwoBuffer.params].
  set (w := workgroupCount
              (TwoBuffer.xResolution (TwoBuffer.params s)) 64).
  rewrite seq_app, fmap_app, <- app_assoc.
  rewrite (fmap_seq_shift _ (0 + a) b).
  split.
  - intros H. apply app_inv_head in H. apply app_inv_head in H.
    apply (f_equal (fun l => l !! 0%nat)) in H.
    rewrite !list_lookup_fmap, !lookup_seq_lt in H by lia.
    cbn [fmap option_fmap option_map] in H.
    rewrite ?Nat.add_0_r, ?Nat.add_0_l in H.
    destruct (Nat.Even_or_Odd a) as [He|[h ->]].
    + now apply Nat.even_spec.
    + exfalso.
      replace ((2 * h + 1) mod 2)%nat with 1%nat in H
        by (symmetry; rewrite Nat.add_comm, Nat.mul_comm;
            apply (Nat.Div0.mod_add 1 h 2)).
      change (0 mod 2)%nat with 0%nat in H. discriminate.
  - intros He. apply Nat.even_spec in He. destruct He as [h ->].
    do 2 f_equal. apply fmap_seq_ext. intros j Hj.
    replace ((0 + 2 * h + j) mod 2)%nat with (j mod 2)%nat; [reflexivity|].
    replace (0 + 2 * h + j)%nat with (j + h * 2)%nat by lia.
    symmetry. apply Nat.Div0.mod_add.
Qed.

Lemma two_buffer_steps_compose_witness :
  let s := {| TwoBuffer.params := Sample.grid4; TwoBuffer.running := false;
              TwoBuffer.submitted := [] |} in
  TwoBuffer.submitted (TwoBuffer.step 3 (TwoBuffer.step 2 s))
  = TwoBuffer.submitted s ++ TwoBuffer.stepCommands (2 + 3) s.
Proof.
  intros s.
  apply (proj2 (two_buffer_steps_compose s 2 3 ltac:(lia))). reflexivity.
Defined.

(** X7: two calls of the leapfrog [step] submit the dispatches of one call
    with the summed count exactly when the first count is a multiple of 3
    (the second being at least 1), as the method's documentation suggests. *)
Theorem leapfrog_steps_compose (s : LeapfrogSolver.Solver) (a b : nat) :
  (1 <= b)%nat ->
  LeapfrogSolver.submitted
    (LeapfrogSolver.step b (LeapfrogSolver.step a s))
  = LeapfrogSolver.submitted s ++ LeapfrogSolver.stepCommands (a + b) s
  <-> (a mod 3 = 0)%nat.
Proof.
  intros Hb.
  unfold LeapfrogSolver.step at 1. cbn [LeapfrogSolver.submitted].
  unfold LeapfrogSolver.step at 1. cbn [LeapfrogSolver.submitted].
  rewrite !leapfrog_stepCommands_eq.
  cbn [LeapfrogSolver.step LeapfrogSolver.params].
  set (w := workgroupCount
              (Leapfrog.xResolution (LeapfrogSolver.params s)) 64).
  rewrite seq_app, fmap_app, <- app_assoc.
  rewrite (fmap_seq_shift _ (0 + a) b).
  split.
  - intros H. apply app_inv_head in H. apply app_inv_head in H.
    apply (f_equal (fun l => l !! 0%nat)) in H.
    rewrite !list_lookup_fmap, !lookup_seq_lt in H by lia.
    cbn [fmap option_fmap option_map] in H.
    rewrite ?Nat.add_0_r, ?Nat.add_0_l in H.
    change (0 mod 3)%nat with 0%nat in H.
    destruct (mod3_cases a) as [(Ha & _)|[(Ha & _)|(Ha & _)]];
      [exact Ha|rewrite Ha in H; discriminate..].
  - intros Ha.
    do 2 f_equal. apply fmap_seq_ext. intros j Hj.
    replace ((0 + a + j) mod 3)%nat with (j mod 3)%nat; [reflexivity|].
    rewrite Nat.add_0_l, Nat.Div0.add_mod, Ha, Nat.add_0_l.
    symmetry. apply Nat.Div0.mod_mod.
Qed.

Lemma leapfrog_steps_compose_witness :
  let s := {| LeapfrogSolver.params := SampleBoundary.leapfrog4;
              LeapfrogSolver.running := false;
              LeapfrogSolver.submitted := [] |} in
  LeapfrogSolver.submitted
    (LeapfrogSolver.step 2 (LeapfrogSolver.step 3 s))
  = LeapfrogSolver.submitted s ++ LeapfrogSolver.stepCommands (3 + 2) s.
Proof.
  intros s.
  apply (proj2 (leapfrog_steps_compose s 3 2 ltac:(lia))). reflexivity.
Defined.

(** ** One dispatch of the leapfrog kernel over the grid *)

Lemma leapfrog_pass_fold (d : Device) (p : Leapfrog.Parameters)
    (workgroups : nat) (old wf u : buffer) :
  0 <= Leapfrog.xResolution p <= Z.of_nat (64 * workgroups) ->
  LeapfrogSolver.pass d p workgroups old wf u
  = fold_left (fun u' i => Leapfrog.timeStep d p old wf u' (Z.of_nat i))
      (seq 0 (Z.to_nat (Leapfrog.xResolution p))) u.
Proof.
  intros HN. unfold LeapfrogSolver.pass.
  apply (dispatch_beyond_grid
           (fun index u' => Leapfrog.timeStep d p old wf u' index)
           (Leapfrog.xResolution p)); [lia| |lia].
  intros i s' Hi. unfold Leapfrog.timeStep. kernel_skips. reflexivity.
Qed.

(** X8: after one dispatch of the leapfrog pipeline that covers the grid,
    every point i from 1 to N-1 holds
      Re'[i] = old.Re[i] - dt ((Im[r] - 2 Im[i] + Im[i-1])/dx^2 - 2 V[i] Im[i])
      Im'[i] = old.Im[i] + dt ((Re[r] - 2 Re[i] + Re[i-1])/dx^2 - 2 V[i] Re[i])
    where the right neighbour r is i+1, clamped to N-1 at the last point, and
    V[i] is the element [i] of the potential array of the parameters; the
    target buffer keeps its size. *)
Theorem leapfrog_pass_grid (d : Device) (p : Leapfrog.Parameters)
    (workgroups : nat) (old wf u : buffer) (i : Z) (Vi : f32) :
  let N := Leapfrog.xResolution p in
  let Re (b : buffer) (j : Z) := vx (load d b j) in
  let Im (b : buffer) (j : Z) := vy (load d b j) in
  let dt := Leapfrog.dt p in
  let dx := (Leapfrog.length p / IZR (N - 1))%R in
  let r := Z.min (i + 1) (N - 1) in
  let u' := LeapfrogSolver.pass d p workgroups old wf u in
  N < U32.modulus ->
  N <= Z.of_nat (64 * workgroups) ->
  Z.of_nat (List.length u) = N ->
  1 <= i <= N - 1 ->
  Leapfrog.potential p !! Z.to_nat i = Some Vi ->
  load d u' i
  = Vec2
      (Re old i
       - dt * ((Im wf r - 2 * Im wf i + Im wf (i - 1)%Z) / dx ^ 2
               - 2 * Vi * Im wf i))%R
      (Im old i
       + dt * ((Re wf r - 2 * Re wf i + Re wf (i - 1)%Z) / dx ^ 2
               - 2 * Vi * Re wf i))%R
  /\ List.length u' = List.length u.
Proof.
  intros N Re Im dt dx r u' HN Hcover Hlen Hi HV. subst u'.
  rewrite leapfrog_pass_fold by (fold N; lia).
  set (F := fun j : Z =>
         (vx (load d old j)
          - ((vy (load d wf (indexPlusDx N j)) - 2 * vy (load d wf j)
              + vy (load d wf (indexMinusDx j))) / (Leapfrog.dx p * Leapfrog.dx p)
             - 2 * loadPotential d (Leapfrog.potential p) j * vy (load d wf j))
            * Leapfrog.dt p)%R).
  set (G := fun j : Z =>
         (vy (load d old j)
          + ((vx (load d wf (indexPlusDx N j)) - 2 * vx (load d wf j)
              + vx (load d wf (indexMinusDx j))) / (Leapfrog.dx p * Leapfrog.dx p)
             - 2 * loadPotential d (Leapfrog.potential p) j * vx (load d wf j))
            * Leapfrog.dt p)%R).
  destruct (fold_pointwise F G
              (fun index u' => Leapfrog.timeStep d p old wf u' index)
              u (Z.to_nat N)) as (Hlen' & Hlt & _).
  { intros j v Hj. unfold Leapfrog.timeStep. fold N. kernel_runs.
    reflexivity. }
  split; [|exact Hlen'].
  rewrite (load_inside d _ i (Vec2 (F i) (G i))).
  2:{ specialize (Hlt (Z.to_nat i)). rewrite Z2Nat.id in Hlt by lia.
      apply Hlt; lia. }
  subst F G. cbv beta.
  rewrite (loadPotential_inside d _ i Vi HV).
  assert (Hplus : indexPlusDx N i = r).
  { unfold indexPlusDx. rewrite u32_add_exact, u32_sub_exact by lia.
    reflexivity. }
  rewrite Hplus, indexMinusDx_interior by lia.
  unfold Leapfrog.dx. fold N. rewrite to_f32_pred by lia. fold dx.
  subst Re Im dt. cbv beta.
  replace (dx ^ 2)%R with (dx * dx)%R by ring.
  f_equal; unfold Rdiv; ring.
Qed.

Lemma leapfrog_pass_grid_witness :
  load Sample.device0
    (LeapfrogSolver.pass Sample.device0 SamplePotential.leapfrogWell4 1
       Sample.zeros4 SamplePotential.wave4 Sample.zeros4) 3
  = Vec2 13 (-7).
Proof.
  assert (HN : Leapfrog.xResolution SamplePotential.leapfrogWell4
               < U32.modulus)
    by (vm_compute; congruence).
  assert (Hc : Leapfrog.xResolution SamplePotential.leapfrogWell4
               <= Z.of_nat (64 * 1)) by (vm_compute; congruence).
  assert (Hi : 1 <= 3
               <= Leapfrog.xResolution SamplePotential.leapfrogWell4 - 1)
    by (vm_compute; split; congruence).
  assert (HV : Leapfrog.potential SamplePotential.leapfrogWell4
                 !! Z.to_nat 3 = Some 3%R)
    by reflexivity.
  rewrite (proj1 (leapfrog_pass_grid Sample.device0
                    SamplePotential.leapfrogWell4
                    1 Sample.zeros4 SamplePotential.wave4 Sample.zeros4 3 3
                    HN Hc eq_refl Hi HV)).
  change (Leapfrog.xResolution SamplePotential.leapfrogWell4) with 4.
  change (Z.min (3 + 1) (4 - 1)) with 3.
  change (4 - 1) with 3. change (3 - 1) with 2.
  change (load Sample.device0 Sample.zeros4 3) with (Vec2 0 0).
  change (load Sample.device0 SamplePotential.wave4 3) with (Vec2 1 2).
  change (load Sample.device0 SamplePotential.wave4 2) with (Vec2 0 1).
  cbn. f_equal; field.
Defined.

(** ** A full turn of the staggered solver *)

Section StaggeredTurn.

Variable d : Device.
Variable p : Staggered.Parameters.

Lemma realPass_lengths (b : Staggered.buffers) :
  let r := Staggered.realPass d p b in
  List.length (Staggered.waveFunction r)
  = List.length (Staggered.waveFunction b)
  /\ List.length (Staggered.oldWaveFunction r)
     = List.length (Staggered.oldWaveFunction b).
Proof.
  cbv zeta. unfold Staggered.realPass.
  apply (dispatch_invariant
           (fun s =>
              List.length (Staggered.waveFunction s)
              = List.length (Staggered.waveFunction b)
              /\ List.length (Staggered.oldWaveFunction s)
                 = List.length (Staggered.oldWaveFunction b))).
  - split; reflexivity.
  - intros i s' [H1 H2]. unfold Staggered.realPartTimeStep.
    destruct (Staggered.xResolution p <=? i); [split; assumption|].
    cbn [Staggered.waveFunction Staggered.oldWaveFunction].
    autorewrite with buffer_length. split; assumption.
Qed.

Lemma imaginaryPass_lengths (b : Staggered.buffers) :
  let r := Staggered.imaginaryPass d p b in
  List.length (Staggered.waveFunction r)
  = List.length (Staggered.waveFunction b)
  /\ List.length (Staggered.oldWaveFunction r)
     = List.length (Staggered.oldWaveFunction b).
Proof.
  cbv zeta. unfold Staggered.imaginaryPass.
  apply (dispatch_invariant
           (fun s =>
              List.length (Staggered.waveFunction s)
              = List.length (Staggered.waveFunction b)
              /\ List.length (Staggered.oldWaveFunction s)
                 = List.length (Staggered.oldWaveFunction b))).
  - split; reflexivity.
  - intros i s' [H1 H2]. unfold Staggered.imaginaryPartTimeStep.
    destruct (Staggered.xResolution p <=? i); [split; assumption|].
    cbn [Staggered.waveFunction Staggered.oldWaveFunction].
    autorewrite with buffer_length. split; assumption.
Qed.

(** What the real pass leaves at a grid point of each buffer. *)
Lemma realPass_at (b : Staggered.buffers) (i : Z) :
  let N := Staggered.xResolution p in
  let wf := Staggered.waveFunction b in
  let r := Staggered.realPass d p b in
  Z.of_nat (List.length wf) = N ->
  Z.of_nat (List.length (Staggered.oldWaveFunction b)) = N ->
  0 <= i < N ->
  load d (Staggered.waveFunction r) i
  = Vec2 (Staggered.nextRealPart d p wf i) (vy (load d wf i))
  /\ load d (Staggered.oldWaveFunction r) i
     = Vec2 (vx (load d wf i))
         (vy (load d (Staggered.oldWaveFunction b) i)).
Proof.
  intros N wf r Hwf Hold Hi. subst wf r.
  pose proof (dispatch_covers_grid N ltac:(lia)) as Hcover.
  destruct (realPass_prefix d p b
              (Z.to_nat Staggered.WORKGROUP_SIZE
               * workgroupCount N Staggered.WORKGROUP_SIZE) Hwf Hold)
    as (_ & _ & Hlt).
  destruct (Hlt (Z.to_nat i)) as [Hw Ho]; [lia|lia|].
  rewrite Z2Nat.id in Hw by lia.
  destruct (realPass_keeps_vy d p b (Z.to_nat i)) as [Hy Hyo].
  cbv zeta in Hy, Hyo.
  change (fold_left _ _ b) with (Staggered.realPass d p b) in Hw, Ho.
  unfold load.
  destruct (lookup_lt_is_Some_2 (Staggered.waveFunction b) (Z.to_nat i))
    as [e He]; [lia|].
  destruct (lookup_lt_is_Some_2 (Staggered.oldWaveFunction b) (Z.to_nat i))
    as [eo Heo]; [lia|].
  rewrite He, Heo in *.
  destruct (Staggered.waveFunction (Staggered.realPass d p b) !! Z.to_nat i)
    as [[x y]|]; [|discriminate].
  destruct (Staggered.oldWaveFunction (Staggered.realPass d p b)
              !! Z.to_nat i) as [[xo yo]|]; [|discriminate].
  cbn in *. split; f_equal; congruence.
Qed.

Lemma imaginaryPass_at (b : Staggered.buffers) (i : Z) :
  let N := Staggered.xResolution p in
  let wf := Staggered.waveFunction b in
  let r := Staggered.imaginaryPass d p b in
  Z.of_nat (List.length wf) = N ->
  Z.of_nat (List.length (Staggered.oldWaveFunction b)) = N ->
  0 <= i < N ->
  load d (Staggered.waveFunction r) i
  = Vec2 (vx (load d wf i)) (Staggered.nextImaginaryPart d p wf i)
  /\ load d (Staggered.oldWaveFunction r) i
     = Vec2 (vx (load d (Staggered.oldWaveFunction b) i))
         (vy (load d wf i)).
Proof.
  intros N wf r Hwf Hold Hi. subst wf r.
  pose proof (dispatch_covers_grid N ltac:(lia)) as Hcover.
  destruct (imaginaryPass_prefix d p b
              (Z.to_nat Staggered.WORKGROUP_SIZE
               * workgroupCount N Staggered.WORKGROUP_SIZE) Hwf Hold)
    as (_ & _ & Hlt).
  destruct (Hlt (Z.to_nat i)) as [Hw Ho]; [lia|lia|].
  rewrite Z2Nat.id in Hw by lia.
  destruct (imaginaryPass_keeps_vx d p b (Z.to_nat i)) as [Hy Hyo].
  cbv zeta in Hy, Hyo.
  change (fold_left _ _ b) with (Staggered.imaginaryPass d p b) in Hw, Ho.
  unfold load.
  destruct (lookup_lt_is_Some_2 (Staggered.waveFunction b) (Z.to_nat i))
    as [e He]; [lia|].
  destruct (lookup_lt_is_Some_2 (Staggered.oldWaveFunction b) (Z.to_nat i))
    as [eo Heo]; [lia|].
  rewrite He, Heo in *.
  destruct (Staggered.waveFunction (Staggered.imaginaryPass d p b)
              !! Z.to_nat i) as [[x y]|]; [|discriminate].
  destruct (Staggered.oldWaveFunction (Staggered.imaginaryPass d p b)
              !! Z.to_nat i) as [[xo yo]|]; [|discriminate].
  cbn in *. split; f_equal; congruence.
Qed.

End StaggeredTurn.

(** ** The Mur boundary passes for any phase velocity *)



Lemma staggered_real_boundary_frame (d : Device) (p : Staggered.Parameters)
    (vp : R) (b : Staggered.buffers) :
  let b' := StaggeredMurBoundary.realComputePass d p vp b in
  Staggered.oldWaveFunction b' = Staggered.oldWaveFunction b
  /\ List.length (Staggered.waveFunction b')
     = List.length (Staggered.waveFunction b)
  /\ (forall j : nat,
        vy <$> Staggered.waveFunction b' !! j
        = vy <$> Staggered.waveFunction b !! j).
Proof.
  cbv zeta. unfold StaggeredMurBoundary.realComputePass.
  apply (dispatch_invariant
           (fun s =>
              Staggered.oldWaveFunction s = Staggered.oldWaveFunction b
              /\ List.length (Staggered.waveFunction s)
                 = List.length (Staggered.waveFunction b)
              /\ (forall j : nat,
                    vy <$> Staggered.waveFunction s !! j
                    = vy <$> Staggered.waveFunction b !! j))).
  - repeat split.
  - intros i s' (H1 & H2 & H3).
    unfold StaggeredMurBoundary.recomputeRealBoundary.
    cbn [Staggered.waveFunction Staggered.oldWaveFunction].
    split; [exact H1|]. split.
    + autorewrite with buffer_length. exact H2.
    + intros j. rewrite storeX_keeps_vy. apply H3.
Qed.

Lemma staggered_imaginary_boundary_frame (d : Device)
    (p : Staggered.Parameters) (vp : R) (b : Staggered.buffers) :
  let b' := StaggeredMurBoundary.imaginaryComputePass d p vp b in
  Staggered.oldWaveFunction b' = Staggered.oldWaveFunction b
  /\ List.length (Staggered.waveFunction b')
     = List.length (Staggered.waveFunction b)
  /\ (forall j : nat,
        vx <$> Staggered.waveFunction b' !! j
        = vx <$> Staggered.waveFunction b !! j).
Proof.
  cbv zeta. unfold StaggeredMurBoundary.imaginaryComputePass.
  apply (dispatch_invariant
           (fun s =>
              Staggered.oldWaveFunction s = Staggered.oldWaveFunction b
              /\ List.length (Staggered.waveFunction s)
                 = List.length (Staggered.waveFunction b)
              /\ (forall j : nat,
                    vx <$> Staggered.waveFunction s !! j
                    = vx <$> Staggered.waveFunction b !! j))).
  - repeat split.
  - intros i s' (H1 & H2 & H3).
    unfold StaggeredMurBoundary.recomputeImaginaryBoundary.
    cbn [Staggered.waveFunction Staggered.oldWaveFunction].
    split; [exact H1|]. split.
    + autorewrite with buffer_length. exact H2.
    + intros j. rewrite storeY_keeps_vx. apply H3.
Qed.



(** X11: whenever vp dt and dx are positive the coefficient of the Mur
    update lies strictly between -1 and 1, and it is negative exactly when
    the wave crosses less than one grid step per time step. *)
Theorem mur_coefficient_bounds (p : Leapfrog.Parameters) (vp : R) :
  (0 < vp * Leapfrog.dt p)%R ->
  (0 < MurBoundary.dx p)%R ->
  (-1 < MurBoundary.coefficient p vp < 1)%R
  /\ ((MurBoundary.coefficient p vp < 0)%R
      <-> (vp * Leapfrog.dt p < MurBoundary.dx p)%R).
Proof.
  intros Ha Hb. unfold MurBoundary.coefficient.
  set (a := (vp * Leapfrog.dt p)%R) in *.
  set (b := MurBoundary.dx p) in *.
  assert (Hab : (0 < a + b)%R) by lra.
  assert (Hinv : (0 < / (a + b))%R) by (apply Rinv_0_lt_compat; exact Hab).
  assert (Heq : ((a - b) / (a + b) = 1 - 2 * b * / (a + b))%R)
    by (field; lra).
  assert (Heq2 : ((a - b) / (a + b) = -1 + 2 * a * / (a + b))%R)
    by (field; lra).
  split; [split|split].
  - rewrite Heq2. nra.
  - rewrite Heq. nra.
  - intros H. unfold Rdiv in H.
    destruct (Rlt_le_dec a b) as [Hl|Hl]; [exact Hl|]. exfalso.
    assert (0 <= (a - b) * / (a + b))%R by (apply Rmult_le_pos; lra). lra.
  - intros H. unfold Rdiv.
    assert (0 < (b - a) * / (a + b))%R by (apply Rmult_lt_0_compat; lra).
    lra.
Qed.

Lemma mur_coefficient_bounds_witness :
  (-1 < MurBoundary.coefficient SampleBoundary.leapfrog4 (1 / 2) < 1)%R.
Proof.
  assert (Hdx : MurBoundary.dx SampleBoundary.leapfrog4 = 1%R).
  { unfold MurBoundary.dx, U32.to_f32.
    change (U32.sub (Leapfrog.xResolution SampleBoundary.leapfrog4) 1)
      with 3.
    cbn. field. }
  apply (mur_coefficient_bounds SampleBoundary.leapfrog4 (1 / 2)).
  - cbn. lra.
  - rewrite Hdx. lra.
Defined.

(** ** What a turn of the staggered solver leaves *)

Lemma load_components (v : vec2f) (x y : R) :
  vx v = x -> vy v = y -> v = Vec2 x y.
Proof. destruct v; cbn; congruence. Qed.

Lemma staggered_turn_old (d : Device) (s : StaggeredSolver.Solver)
    (b b' : Staggered.buffers) (i : Z) :
  let p := StaggeredSolver.params s in
  let N := Staggered.xResolution p in
  Z.of_nat (List.length (Staggered.waveFunction b)) = N ->
  Z.of_nat (List.length (Staggered.oldWaveFunction b)) = N ->
  StaggeredSolver.iteration d s b = Some b' ->
  0 <= i < N ->
  load d (Staggered.oldWaveFunction b') i = load d (Staggered.waveFunction b) i.
Proof.
  intros p N Hwf Hold Hit Hi.
  destruct (realPass_lengths d p b) as [Hl1 Hl1o]. cbv zeta in Hl1, Hl1o.
  destruct (realPass_at d p b i Hwf Hold Hi) as [Hw1 Ho1].
  cbv zeta in Hw1, Ho1.
  set (b1 := Staggered.realPass d p b) in *.
  assert (Hgoal : forall b2 : Staggered.buffers,
            Staggered.oldWaveFunction b2 = Staggered.oldWaveFunction b1 ->
            List.length (Staggered.waveFunction b2)
            = List.length (Staggered.waveFunction b1) ->
            (forall j : nat,
               vy <$> Staggered.waveFunction b2 !! j
               = vy <$> Staggered.waveFunction b1 !! j) ->
            load d (Staggered.oldWaveFunction (Staggered.imaginaryPass d p b2)) i
            = load d (Staggered.waveFunction b) i).
  { intros b2 Ho2 Hl2 Hy2.
    destruct (imaginaryPass_at d p b2 i) as [_ Ho3];
      [fold N; lia|rewrite Ho2; fold N; lia|assumption|].
    cbv zeta in Ho3. rewrite Ho3, Ho2, Ho1.
    rewrite (load_vy_agree d _ _ i Hy2), Hw1. cbn [vx vy].
    symmetry. apply load_components; reflexivity. }
  unfold StaggeredSolver.iteration in Hit. fold p in Hit. fold b1 in Hit.
  destruct (StaggeredSolver.bcEnabled s).
  - destruct (StaggeredSolver.boundary s) as [vp|]; [|discriminate].
    injection Hit as <-.
    destruct (staggered_real_boundary_frame d p vp b1) as (Ho2 & Hl2 & Hy2).
    cbv zeta in Ho2, Hl2, Hy2.
    destruct (staggered_imaginary_boundary_frame d p vp
                (Staggered.imaginaryPass d p
                   (StaggeredMurBoundary.realComputePass d p vp b1)))
      as (Ho4 & _ & _).
    cbv zeta in Ho4. rewrite Ho4.
    apply Hgoal; assumption.
  - injection Hit as <-. apply Hgoal; reflexivity.
Qed.

(** X12: after every turn of the loop of the staggered [step], with or
    without the boundary passes, the old buffer holds at every grid point the
    complete wave function, real and imaginary part, as it was before the
    turn. *)
Theorem staggered_turn_copies_wave_function (d : Device)
    (s : StaggeredSolver.Solver) (b b' : Staggered.buffers) :
  let N := Staggered.xResolution (StaggeredSolver.params s) in
  Z.of_nat (List.length (Staggered.waveFunction b)) = N ->
  Z.of_nat (List.length (Staggered.oldWaveFunction b)) = N ->
  StaggeredSolver.iteration d s b = Some b' ->
  forall i : Z, 0 <= i < N ->
    load d (Staggered.oldWaveFunction b') i
    = load d (Staggered.waveFunction b) i.
Proof.
  intros N Hwf Hold Hit i Hi.
  exact (staggered_turn_old d s b b' i Hwf Hold Hit Hi).
Qed.

Lemma staggered_turn_copies_wave_function_witness :
  let s := {| StaggeredSolver.params := SampleBoundary.staggered4;
              StaggeredSolver.bcEnabled := true;
              StaggeredSolver.boundary := Some 1%R |} in
  exists b' : Staggered.buffers,
    StaggeredSolver.iteration Sample.device0 s SampleStaggered.start4
    = Some b'
    /\ load Sample.device0 (Staggered.oldWaveFunction b') 2 = Vec2 0 1.
Proof.
  intros s. eexists. split; [reflexivity|].
  apply (staggered_turn_copies_wave_function Sample.device0 s
           SampleStaggered.start4 _ eq_refl eq_refl eq_refl 2).
  vm_compute. split; congruence.
Defined.

(** X13: without the boundary, a turn of the staggered [step] first renews
    the real part of every grid point j from the wave function before the
    turn,
      X[j] = Re[j] - dt ((Im[j+] - 2 Im[j] + Im[j-]) / (2 dx^2) - V[j] Im[j]),
    j+ and j- being the neighbour indices the kernel computes and V[j] the
    element [j] of the potential array, and then renews the imaginary part
    of every interior point from the new real parts:
      Im'[i] = Im[i] + dt ((X[i+1] - 2 X[i] + X[i-1]) / (2 dx^2) - V[i] X[i]). *)
Theorem staggered_turn_uses_new_real_parts (d : Device)
    (s : StaggeredSolver.Solver) (b : Staggered.buffers) (V : Z -> f32)
    (i : Z) :
  let p := StaggeredSolver.params s in
  let N := Staggered.xResolution p in
  let wf := Staggered.waveFunction b in
  let dt := Staggered.dt p in
  let dx := (Staggered.length p / IZR (N - 1))%R in
  let X (j : Z) :=
    (vx (load d wf j)
     - dt * ((vy (load d wf (indexPlusDx N j)) - 2 * vy (load d wf j)
              + vy (load d wf (indexMinusDx j))) / (2 * dx ^ 2)
             - V j * vy (load d wf j)))%R in
  StaggeredSolver.bcEnabled s = false ->
  N < U32.modulus ->
  Z.of_nat (List.length wf) = N ->
  Z.of_nat (List.length (Staggered.oldWaveFunction b)) = N ->
  (forall j : Z, 0 <= j < N ->
     Staggered.potential p !! Z.to_nat j = Some (V j)) ->
  1 <= i <= N - 2 ->
  exists b' : Staggered.buffers,
    StaggeredSolver.iteration d s b = Some b'
    /\ load d (Staggered.waveFunction b') i
       = Vec2 (X i)
           (vy (load d wf i)
            + dt * ((X (i + 1)%Z - 2 * X i + X (i - 1)%Z) / (2 * dx ^ 2)
                    - V i * X i))%R.
Proof.
  intros p N wf dt dx X Hbc HN Hwf Hold HV Hi.
  assert (HX : forall j : Z, 0 <= j < N ->
            Staggered.nextRealPart d p wf j = X j).
  { intros j Hj. unfold Staggered.nextRealPart. subst X. cbv beta.
    rewrite (loadPotential_inside d _ j (V j) (HV j Hj)).
    unfold Staggered.dx. fold N. rewrite to_f32_pred by lia. fold dx dt.
    replace (2 * dx ^ 2)%R with (2 * dx * dx)%R by ring.
    unfold Rdiv. ring. }
  unfold StaggeredSolver.iteration. rewrite Hbc. fold p.
  eexists. split; [reflexivity|].
  destruct (realPass_lengths d p b) as [Hl1 Hl1o]. cbv zeta in Hl1, Hl1o.
  set (b1 := Staggered.realPass d p b) in *.
  destruct (imaginaryPass_at d p b1 i) as [Hw _];
    [fold N; subst wf; lia|fold N; lia|fold N; lia|].
  cbv zeta in Hw. rewrite Hw.
  unfold Staggered.nextImaginaryPart. fold N.
  rewrite indexPlusDx_interior, indexMinusDx_interior
    by (try unfold U32.modulus in *; lia).
  destruct (realPass_at d p b i Hwf Hold) as [H0 _]; [fold N; lia|].
  destruct (realPass_at d p b (i + 1) Hwf Hold) as [Hp _]; [fold N; lia|].
  destruct (realPass_at d p b (i - 1) Hwf Hold) as [Hm _]; [fold N; lia|].
  cbv zeta in H0, Hp, Hm. fold b1 in H0, Hp, Hm.
  rewrite H0, Hp, Hm. cbn [vx vy]. fold wf.
  rewrite (HX i), (HX (i + 1)), (HX (i - 1)) by lia.
  rewrite (loadPotential_inside d _ i (V i)) by (apply HV; lia).
  unfold Staggered.dx. fold N. rewrite to_f32_pred by lia. fold dx dt.
  f_equal.
  replace (2 * dx ^ 2)%R with (2 * dx * dx)%R by ring.
  unfold Rdiv. ring.
Qed.

Lemma staggered_turn_uses_new_real_parts_witness :
  let s := {| StaggeredSolver.params := SamplePotential.staggeredWell4;
              StaggeredSolver.bcEnabled := false;
              StaggeredSolver.boundary := None |} in
  exists b' : Staggered.buffers,
    StaggeredSolver.iteration Sample.device0 s SampleStaggered.start4
    = Some b'
    /\ load Sample.device0 (Staggered.waveFunction b') 2
       = Vec2 3 (-17 / 2).
Proof.
  intros s.
  assert (HV : forall j : Z,
            0 <= j < Staggered.xResolution (StaggeredSolver.params s) ->
            Staggered.potential (StaggeredSolver.params s) !! Z.to_nat j
            = Some (if j =? 2 then 2%R else 0%R)).
  { intros j Hj. change (0 <= j < 4) in Hj.
    assert (Hcases : j = 0 \/ j = 1 \/ j = 2 \/ j = 3) by lia.
    destruct Hcases as [-> | [-> | [-> | ->]]]; reflexivity. }
  destruct (staggered_turn_uses_new_real_parts Sample.device0 s
              SampleStaggered.start4 (fun j => if j =? 2 then 2%R else 0%R) 2
              eq_refl ltac:(vm_compute; congruence) eq_refl eq_refl HV
              ltac:(vm_compute; split; congruence))
    as (b' & Hit & Hw).
  exists b'. split; [exact Hit|]. rewrite Hw.
  change (Staggered.xResolution (StaggeredSolver.params s)) with 4.
  change (Staggered.length (StaggeredSolver.params s)) with 3%R.
  change (Staggered.dt (StaggeredSolver.params s)) with 1%R.
  change (Staggered.waveFunction SampleStaggered.start4)
    with [Vec2 0 0; Vec2 0 0; Vec2 0 1; Vec2 0 0].
  change (indexPlusDx 4 (2 + 1)) with 3.
  change (indexPlusDx 4 2) with 3.
  change (indexPlusDx 4 (2 - 1)) with 2.
  change (indexMinusDx (2 + 1)) with 2.
  change (indexMinusDx 2) with 1.
  change (indexMinusDx (2 - 1)) with 0.
  change (2 + 1) with 3. change (2 - 1) with 1. change (4 - 1) with 3.
  change (3 =? 2) with false. change (2 =? 2) with true.
  change (1 =? 2) with false.
  change (load Sample.device0
            [Vec2 0 0; Vec2 0 0; Vec2 0 1; Vec2 0 0] 0) with (Vec2 0 0).
  change (load Sample.device0
            [Vec2 0 0; Vec2 0 0; Vec2 0 1; Vec2 0 0] 1) with (Vec2 0 0).
  change (load Sample.device0
            [Vec2 0 0; Vec2 0 0; Vec2 0 1; Vec2 0 0] 2) with (Vec2 0 1).
  change (load Sample.device0
            [Vec2 0 0; Vec2 0 0; Vec2 0 1; Vec2 0 0] 3) with (Vec2 0 0).
  cbn. f_equal; field.
Defined.

(** X14: [step(count)] of the staggered solver fails exactly when the
    boundary is enabled but was never set and count is at least 1; in every
    other case it returns, and both buffers keep their sizes. *)
Theorem staggered_step_fails_iff (d : Device) (s : StaggeredSolver.Solver)
    (count : nat) (b : Staggered.buffers) :
  (StaggeredSolver.step d count s b = None
   <-> StaggeredSolver.bcEnabled s = true
       /\ StaggeredSolver.boundary s = None /\ (1 <= count)%nat)
  /\ (forall b' : Staggered.buffers,
        StaggeredSolver.step d count s b = Some b' ->
        List.length (Staggered.waveFunction b')
        = List.length (Staggered.waveFunction b)
        /\ List.length (Staggered.oldWaveFunction b')
           = List.length (Staggered.oldWaveFunction b)).
Proof.
  assert (Hturn : forall b0 : Staggered.buffers,
            match StaggeredSolver.iteration d s b0 with
            | None => StaggeredSolver.bcEnabled s = true
                      /\ StaggeredSolver.boundary s = None
            | Some b1 =>
                ~ (StaggeredSolver.bcEnabled s = true
                   /\ StaggeredSolver.boundary s = None)
                /\ List.length (Staggered.waveFunction b1)
                   = List.length (Staggered.waveFunction b0)
                /\ List.length (Staggered.oldWaveFunction b1)
                   = List.length (Staggered.oldWaveFunction b0)
            end).
  { intros b0. unfold StaggeredSolver.iteration.
    set (p := StaggeredSolver.params s).
    destruct (realPass_lengths d p b0) as [Hl1 Hl1o]. cbv zeta in Hl1, Hl1o.
    destruct (StaggeredSolver.bcEnabled s).
    - destruct (StaggeredSolver.boundary s) as [vp|]; [|split; reflexivity].
      split; [intros [_ H]; discriminate|].
      set (b1 := Staggered.realPass d p b0) in *.
      destruct (staggered_real_boundary_frame d p vp b1) as (Ho2 & Hl2 & _).
      cbv zeta in Ho2, Hl2.
      set (b2 := StaggeredMurBoundary.realComputePass d p vp b1) in *.
      destruct (imaginaryPass_lengths d p b2) as [Hl3 Hl3o].
      cbv zeta in Hl3, Hl3o.
      set (b3 := Staggered.imaginaryPass d p b2) in *.
      destruct (staggered_imaginary_boundary_frame d p vp b3)
        as (Ho4 & Hl4 & _).
      cbv zeta in Ho4, Hl4. rewrite Ho4, Hl4, Hl3, Hl3o, Ho2, Hl2.
      split; assumption.
    - split; [intros [H _]; discriminate|].
      destruct (imaginaryPass_lengths d p (Staggered.realPass d p b0))
        as [Hl3 Hl3o].
      cbv zeta in Hl3, Hl3o. rewrite Hl3, Hl3o. split; assumption. }
  revert b. induction count as [|n IH]; intros b.
  - cbn. split.
    + split; [discriminate|intros (_ & _ & H); lia].
    + intros b' H. injection H as <-. split; reflexivity.
  - cbn [StaggeredSolver.step]. specialize (Hturn b).
    destruct (StaggeredSolver.iteration d s b) as [b1|].
    + destruct Hturn as (Hok & Hl & Hlo). destruct (IH b1) as [IH1 IH2].
      split.
      * split; [intros H; apply IH1 in H; tauto|].
        intros (H1 & H2 & _). exfalso. apply Hok. split; assumption.
      * intros b' H. destruct (IH2 b' H) as [H1 H2]. split; congruence.
    + destruct Hturn as [H1 H2]. split.
      * split; [intros _; repeat split; try assumption; lia|reflexivity].
      * intros b' H. discriminate.
Qed.

(** ** The free particle wave packet *)

(** The side conditions [field] leaves: pi and positive polynomials. *)
Ltac nonzero_side :=
  repeat split; first [apply Rgt_not_eq, PI_RGT_0 | nra | lra].

Lemma amplitude_squared (q e : R) :
  (0 < q)%R ->
  (FreeParticle.pow q 0.25 * exp e * (FreeParticle.pow q 0.25 * exp e)
   = sqrt q * exp (2 * e))%R.
Proof.
  intros Hq. unfold FreeParticle.pow. rewrite Rpower_quarter by assumption.
  replace (2 * e)%R with (e + e)%R by ring. rewrite exp_plus.
  assert (Hs : (sqrt (sqrt q) * sqrt (sqrt q) = sqrt q)%R)
    by (apply sqrt_sqrt, sqrt_pos).
  replace (sqrt (sqrt q) * exp e * (sqrt (sqrt q) * exp e))%R
    with (sqrt (sqrt q) * sqrt (sqrt q) * (exp e * exp e))%R by ring.
  now rewrite Hs.
Qed.

(** X15: the probability density of the wave packet [computePsi] returns
    does not depend on its phase: for w > 0, at x = i L/(N-1),
      |Psi|^2 = sqrt(2 w^2 / (pi a)) exp(-2 (x - x0 - k t)^2 w^2 / a),
    a = w^4 + 4 t^2: a Gaussian centred at x0 + k t. *)
Theorem computePsi_density (p : TwoBuffer.Parameters)
    (wp : FreeParticle.WavePacketParameters) (i : Z) (t : R) :
  let N := TwoBuffer.xResolution p in
  let w := FreeParticle.w wp in
  let x := (IZR i * TwoBuffer.length p / IZR (N - 1))%R in
  let a := (w ^ 4 + 4 * t ^ 2)%R in
  let psi := FreeParticle.computePsi p wp i t in
  1 <= N < U32.modulus -> (0 < w)%R ->
  (vx psi * vx psi + vy psi * vy psi
   = sqrt (2 * w ^ 2 / (Rtrigo1.PI * a))
     * exp (- 2 * (x - FreeParticle.x0 wp - FreeParticle.k wp * t) ^ 2
            * w ^ 2 / a))%R.
Proof.
  intros N w x a psi HN Hw. subst psi.
  unfold FreeParticle.computePsi, vscale. cbv zeta. cbn [vx vy].
  fold N. rewrite to_f32_pred by assumption. unfold U32.to_f32.
  fold x. fold w.
  set (k := FreeParticle.k wp). set (x0 := FreeParticle.x0 wp).
  set (c := (_ + k * (x - x0) + _)%R).
  set (e := (- ((x - x0 - k * t) * (x - x0 - k * t)) * (w * w)
             / (w * w * (w * w) + 4 * t * t))%R).
  set (q := (2 * (w * w) / (FreeParticle.PI * (w * w * (w * w) + 4 * t * t)))%R).
  assert (Hq : (0 < q)%R) by (apply amplitude_base_positive; assumption).
  replace (FreeParticle.pow q 0.25 * exp e * cos c
           * (FreeParticle.pow q 0.25 * exp e * cos c)
           + FreeParticle.pow q 0.25 * exp e * sin c
             * (FreeParticle.pow q 0.25 * exp e * sin c))%R
    with (FreeParticle.pow q 0.25 * exp e * (FreeParticle.pow q 0.25 * exp e)
          * (sin c * sin c + cos c * cos c))%R by ring.
  pose proof (sin2_cos2 c) as Hsc. unfold Rsqr in Hsc. rewrite Hsc.
  rewrite Rmult_1_r, amplitude_squared by assumption.
  assert (Hw2 : (0 < w * w)%R) by nra.
  assert (Ha : (0 < w * w * (w * w) + 4 * t * t)%R) by nra.
  subst q e a. unfold FreeParticle.PI. f_equal.
  - f_equal. field. nonzero_side.
  - f_equal. field. nonzero_side.
Qed.

Lemma computePsi_density_witness :
  let wp := {| FreeParticle.x0 := 0; FreeParticle.w := 1;
               FreeParticle.k := 0 |} in
  let psi := FreeParticle.computePsi Sample.grid4 wp 0 0 in
  (vx psi * vx psi + vy psi * vy psi
   = sqrt (2 * 1 ^ 2 / (Rtrigo1.PI * (1 ^ 4 + 4 * 0 ^ 2)))
     * exp (- 2 * (IZR 0 * 3 / IZR (4 - 1) - 0 - 0 * 0) ^ 2 * 1 ^ 2
            / (1 ^ 4 + 4 * 0 ^ 2)))%R.
Proof.
  intros wp psi.
  apply (computePsi_density Sample.grid4 wp 0 0).
  - vm_compute; split; congruence.
  - cbn. lra.
Defined.

(** X16: at t = 0 the wave packet is the Gaussian of width w centred at x0
    with the plane wave phase k (x - x0):
      Psi(x, 0) = (2/(pi w^2))^(1/4) exp(-(x - x0)^2 / w^2)
                  (cos (k (x - x0)), sin (k (x - x0))). *)
Theorem computePsi_initial (p : TwoBuffer.Parameters)
    (wp : FreeParticle.WavePacketParameters) (i : Z) :
  let N := TwoBuffer.xResolution p in
  let w := FreeParticle.w wp in
  let k := FreeParticle.k wp in
  let deltaX :=
    (IZR i * TwoBuffer.length p / IZR (N - 1) - FreeParticle.x0 wp)%R in
  let A := (sqrt (sqrt (2 / (Rtrigo1.PI * w ^ 2)))
            * exp (- deltaX ^ 2 / w ^ 2))%R in
  1 <= N < U32.modulus -> (0 < w)%R ->
  FreeParticle.computePsi p wp i 0
  = Vec2 (A * cos (k * deltaX))%R (A * sin (k * deltaX))%R.
Proof.
  intros N w k deltaX A HN Hw.
  unfold FreeParticle.computePsi, vscale. cbv zeta. cbn [vx vy].
  fold N. rewrite to_f32_pred by assumption. unfold U32.to_f32.
  fold w. fold k. fold deltaX.
  assert (Hw2 : (0 < w * w)%R) by nra.
  replace (2 * 0 / (w * w))%R with 0%R by (field; lra).
  rewrite atan_0.
  replace (- (0 / 2) - k * k * 0 / 2 + k * deltaX
           + 2 * 0 * ((deltaX - k * 0) * (deltaX - k * 0))
             / (w * w * (w * w) + 4 * 0 * 0))%R
    with (k * deltaX)%R by (field; nonzero_side).
  replace (2 * (w * w) / (FreeParticle.PI * (w * w * (w * w) + 4 * 0 * 0)))%R
    with (2 / (Rtrigo1.PI * w ^ 2))%R
    by (unfold FreeParticle.PI; field; nonzero_side).
  replace (- ((deltaX - k * 0) * (deltaX - k * 0)) * (w * w)
           / (w * w * (w * w) + 4 * 0 * 0))%R
    with (- deltaX ^ 2 / w ^ 2)%R by (field; nonzero_side).
  unfold FreeParticle.pow. rewrite Rpower_quarter.
  - reflexivity.
  - apply Rdiv_lt_0_compat; [lra|].
    apply Rmult_lt_0_compat; [apply PI_RGT_0|nra].
Qed.

Lemma computePsi_initial_witness :
  let wp := {| FreeParticle.x0 := 0; FreeParticle.w := 1;
               FreeParticle.k := 0 |} in
  FreeParticle.computePsi Sample.grid4 wp 0 0
  = Vec2
      (sqrt (sqrt (2 / (Rtrigo1.PI * 1 ^ 2)))
       * exp (- (IZR 0 * 3 / IZR (4 - 1) - 0) ^ 2 / 1 ^ 2)
       * cos (0 * (IZR 0 * 3 / IZR (4 - 1) - 0)))%R
      (sqrt (sqrt (2 / (Rtrigo1.PI * 1 ^ 2)))
       * exp (- (IZR 0 * 3 / IZR (4 - 1) - 0) ^ 2 / 1 ^ 2)
       * sin (0 * (IZR 0 * 3 / IZR (4 - 1) - 0)))%R.
Proof.
  intros wp.
  apply (computePsi_initial Sample.grid4 wp 0).
  - vm_compute; split; congruence.
  - cbn. lra.
Defined.

(** ** Filling the buffers with the wave packet *)

Lemma store_as_components (u : buffer) (i : Z) (v : vec2f) :
  store u i v = storeY (storeX u i (vx v)) i (vy v).
Proof.
  apply list_eq. intros j.
  destruct (decide (j = Z.to_nat i)) as [->|Hne].
  - rewrite storeY_same, storeX_same. unfold store.
    destruct (u !! Z.to_nat i) as [e|] eqn:He.
    + rewrite list_lookup_insert_eq by (apply lookup_lt_Some in He; lia).
      destruct v; reflexivity.
    + rewrite list_insert_ge by (apply lookup_ge_None; exact He).
      rewrite He. reflexivity.
  - rewrite storeY_storeX_other, store_other by assumption. reflexivity.
Qed.

Lemma fold_left_pair {A B} (f : A -> nat -> A) (g : B -> nat -> B)
    (l : list nat) (a : A) (b : B) :
  fold_left (fun s i => (f (fst s) i, g (snd s) i)) l (a, b)
  = (fold_left f l a, fold_left g l b).
Proof.
  revert a b. induction l as [|i l IH]; intros a b; cbn; [reflexivity|].
  apply IH.
Qed.

(** A dispatch of a kernel with the index guard that stores [v i] at its
    own index. *)
Lemma dispatch_stores (N : Z) (workgroups : nat) (v : Z -> vec2f)
    (kernel : Z -> buffer -> buffer) (u : buffer) :
  (forall (i : Z) (u' : buffer), N <= i -> kernel i u' = u') ->
  (forall (i : Z) (u' : buffer), 0 <= i < N ->
     kernel i u' = storeY (storeX u' i (vx (v i))) i (vy (v i))) ->
  0 <= N <= Z.of_nat (64 * workgroups) ->
  Z.of_nat (List.length u) = N ->
  let u' := dispatch 64 workgroups kernel u in
  List.length u' = List.length u
  /\ (forall i : Z, 0 <= i < N -> u' !! Z.to_nat i = Some (v i)).
Proof.
  intros Hskip Hrun HN Hlen. cbv zeta.
  rewrite (dispatch_beyond_grid kernel N) by (assumption || lia).
  destruct (fold_pointwise (fun i => vx (v i)) (fun i => vy (v i)) kernel u
              (Z.to_nat N)) as (Hl & Hlt & _).
  { intros j w Hj. apply Hrun. lia. }
  split; [exact Hl|].
  intros i Hi. specialize (Hlt (Z.to_nat i)).
  rewrite Z2Nat.id in Hlt by lia.
  rewrite Hlt by lia. f_equal. destruct (v i); reflexivity.
Qed.

(** X17: when the resolution given to the initializer covers the grid,
    [initialize] leaves Psi(i, 0) at every grid point of the first buffer and
    Psi(i, dt) at every grid point of the second, and both keep their
    sizes. *)
Theorem initialize_fills_both_buffers (p : TwoBuffer.Parameters)
    (wp : FreeParticle.WavePacketParameters) (xResolution : Z)
    (b0 b1 : buffer) :
  let N := TwoBuffer.xResolution p in
  let b' := FreeParticlePasses.initialize p wp xResolution (b0, b1) in
  0 <= N <= xResolution ->
  Z.of_nat (List.length b0) = N ->
  Z.of_nat (List.length b1) = N ->
  (forall i : Z, 0 <= i < N ->
     fst b' !! Z.to_nat i = Some (FreeParticle.computePsi p wp i 0)
     /\ snd b' !! Z.to_nat i
        = Some (FreeParticle.computePsi p wp i (TwoBuffer.dt p)))
  /\ List.length (fst b') = List.length b0
  /\ List.length (snd b') = List.length b1.
Proof.
  intros N b' HN Hl0 Hl1. subst b'.
  pose proof (workgroupCount_covers xResolution ltac:(lia)) as Hcover.
  unfold FreeParticlePasses.initialize, dispatch.
  set (F := fun (u : buffer) (j : nat) =>
              if N <=? Z.of_nat j then u
              else store u (Z.of_nat j)
                     (FreeParticle.computePsi p wp (Z.of_nat j) 0)).
  set (G := fun (u : buffer) (j : nat) =>
              if N <=? Z.of_nat j then u
              else store u (Z.of_nat j)
                     (FreeParticle.computePsi p wp (Z.of_nat j)
                        (TwoBuffer.dt p))).
  rewrite (fold_left_seq_ext _ (fun s i => (F (fst s) i, G (snd s) i))).
  2:{ intros i s _. unfold FreeParticle.computeInitialValues, F, G. fold N.
      destruct (N <=? Z.of_nat i); [now destruct s|reflexivity]. }
  rewrite (fold_left_pair F G). cbn [fst snd]. subst F G.
  destruct (dispatch_stores N (workgroupCount xResolution 64)
              (fun i => FreeParticle.computePsi p wp i 0)
              (fun i u => if N <=? i then u
                          else store u i (FreeParticle.computePsi p wp i 0))
              b0) as [Hlen0 Hat0]; [| |lia|assumption|].
  { intros i u Hi. kernel_skips. reflexivity. }
  { intros i u Hi. kernel_runs. apply store_as_components. }
  destruct (dispatch_stores N (workgroupCount xResolution 64)
              (fun i => FreeParticle.computePsi p wp i (TwoBuffer.dt p))
              (fun i u => if N <=? i then u
                          else store u i
                                 (FreeParticle.computePsi p wp i
                                    (TwoBuffer.dt p)))
              b1) as [Hlen1 Hat1]; [| |lia|assumption|].
  { intros i u Hi. kernel_skips. reflexivity. }
  { intros i u Hi. kernel_runs. apply store_as_components. }
  unfold dispatch in Hlen0, Hat0, Hlen1, Hat1.
  split; [|split; assumption].
  intros i Hi. split; [apply Hat0|apply Hat1]; assumption.
Qed.

Lemma initialize_fills_both_buffers_witness :
  let wp := {| FreeParticle.x0 := 0; FreeParticle.w := 1;
               FreeParticle.k := 0 |} in
  fst (FreeParticlePasses.initialize Sample.grid4 wp 4
         (Sample.zeros4, Sample.zeros4)) !! 3%nat
  = Some (FreeParticle.computePsi Sample.grid4 wp 3 0).
Proof.
  intros wp.
  assert (HN : 0 <= TwoBuffer.xResolution Sample.grid4 <= 4)
    by (vm_compute; split; congruence).
  assert (Hi : 0 <= 3 < TwoBuffer.xResolution Sample.grid4)
    by (vm_compute; split; congruence).
  exact (proj1 (proj1 (initialize_fills_both_buffers Sample.grid4 wp 4
                         Sample.zeros4 Sample.zeros4 HN eq_refl eq_refl)
                  3 Hi)).
Defined.



(** ** The texture rotation of the WebGL solvers *)

(** X19: in the two texture WebGL solver, whatever the number of time steps
    already taken, the next [timestep] samples exactly the texture wrapped by
    the framebuffer [getSourceFramebuffer] returns, which from the second
    step on is the texture the previous step rendered to; and it renders to
    the other texture. *)
Theorem webgl_timestep_ping_pong (t0 t1 : WebGL.WebGLTexture) (k : nat) :
  let s := WebGL.timesteps k
             (WebGL.setInitialTextures t0 t1 WebGL.constructor) in
  exists src tgt : WebGL.WebGLTexture,
    head (WebGL.draws (WebGL.timestep s))
    = Some {| WebGL.target := Some (WebGL.attachFrameBuffer tgt);
              WebGL.source := Some src |}
    /\ WebGL.getSourceFramebuffer s = Some (WebGL.attachFrameBuffer src)
    /\ ((1 <= k)%nat -> WebGL.lastRenderTarget s = Some src)
    /\ (src = t0 /\ tgt = t1 \/ src = t1 /\ tgt = t0).
Proof.
  intros s. subst s.
  pose proof (timesteps_invariant t0 t1 k) as (Hs & Ht & Hf).
  cbv zeta in Hs, Ht, Hf.
  unfold WebGL.timestep, WebGL.getSourceFramebuffer.
  cbn [WebGL.draws head].
  assert (Hlast : (1 <= k)%nat ->
            WebGL.lastRenderTarget
              (WebGL.timesteps k
                 (WebGL.setInitialTextures t0 t1 WebGL.constructor))
            = [t0; t1] !! ((k + 1) mod 2)%nat).
  { intros Hk. destruct k as [|k']; [lia|].
    pose proof (timesteps_invariant t0 t1 k') as (Hs' & Ht' & Hf').
    cbv zeta in Hs', Ht', Hf'.
    change (WebGL.timesteps (S k')
              (WebGL.setInitialTextures t0 t1 WebGL.constructor))
      with (WebGL.timestep
              (WebGL.timesteps k'
                 (WebGL.setInitialTextures t0 t1 WebGL.constructor))).
    unfold WebGL.lastRenderTarget, WebGL.timestep.
    cbv [WebGL.draws WebGL.target].
    rewrite Hs', Hf', (mod2_succ_succ k').
    assert (Hr : (k' mod 2 < 2)%nat) by (apply Nat.mod_upper_bound; lia).
    destruct (k' mod 2)%nat as [|[|r]]; [reflexivity..|lia]. }
  rewrite Hs, Ht, Hf.
  destruct (parity_cases k) as [[Hk0 Hk1]|[Hk0 Hk1]].
  - rewrite Hk0 in *. rewrite Hk1 in Hlast.
    exists t1, t0. repeat split; auto.
  - rewrite Hk0 in *. rewrite Hk1 in Hlast.
    exists t0, t1. repeat split; auto.
Qed.

Lemma webglLeapfrog_invariant (t0 t1 t2 : WebGL.WebGLTexture) (bc : bool)
    (k : nat) :
  let s := WebGLLeapfrog.timesteps k
             (WebGLLeapfrog.setBCEnabled bc
                (WebGLLeapfrog.setInitialTextures t0 t1 t2
                   WebGLLeapfrog.constructor)) in
  WebGLLeapfrog.step s = (k mod 3)%nat
  /\ WebGLLeapfrog.bcEnabled s = bc
  /\ WebGLLeapfrog.textures s = [t0; t1; t2]
  /\ WebGLLeapfrog.fbos s
     = [WebGL.attachFrameBuffer t0; WebGL.attachFrameBuffer t1;
        WebGL.attachFrameBuffer t2].
Proof.
  induction k as [|k IH]; cbn zeta.
  - repeat split.
  - cbn [WebGLLeapfrog.timesteps]. cbn zeta in IH.
    destruct IH as (Hs & Hb & Ht & Hf).
    unfold WebGLLeapfrog.timestep;
      cbn [WebGLLeapfrog.step WebGLLeapfrog.textures WebGLLeapfrog.fbos
           WebGLLeapfrog.bcEnabled].
    rewrite Hs. repeat split; try assumption.
    replace (S k) with (k + 1)%nat by lia.
    apply Nat.Div0.add_mod_idemp_l.
Qed.

(** X20: in the three texture WebGL solver the [k+1]st [timestep] binds the
    texture of slot [k mod 3] as the old and that of slot [(k+1) mod 3] as
    the current wave function, the pair [getSourceTextures] returned before
    the call, and renders to slot [(k+2) mod 3], which [getRenderedTexture]
    returns afterwards and which becomes the current texture of the next
    call, the current one becoming its old texture; the boundary is rendered
    exactly when it is enabled. *)
Theorem webgl_leapfrog_rotation (t0 t1 t2 : WebGL.WebGLTexture) (bc : bool)
    (k : nat) :
  let slots := [t0; t1; t2] in
  let s := WebGLLeapfrog.timesteps k
             (WebGLLeapfrog.setBCEnabled bc
                (WebGLLeapfrog.setInitialTextures t0 t1 t2
                   WebGLLeapfrog.constructor)) in
  let s' := WebGLLeapfrog.timestep s in
  let s'' := WebGLLeapfrog.timestep s' in
  exists old cur tgt : WebGL.WebGLTexture,
    slots !! (k mod 3)%nat = Some old
    /\ slots !! ((k + 1) mod 3)%nat = Some cur
    /\ slots !! ((k + 2) mod 3)%nat = Some tgt
    /\ head (WebGLLeapfrog.draws s')
       = Some {| WebGLLeapfrog.target := Some (WebGL.attachFrameBuffer tgt);
                 WebGLLeapfrog.oldWaveFunction := Some old;
                 WebGLLeapfrog.waveFunction := Some cur;
                 WebGLLeapfrog.boundaryRendered := bc |}
    /\ WebGLLeapfrog.getSourceTextures s = (Some old, Some cur)
    /\ WebGLLeapfrog.getRenderedTexture s' = Some tgt
    /\ (WebGLLeapfrog.oldWaveFunction <$> head (WebGLLeapfrog.draws s''))
       = Some (Some cur)
    /\ (WebGLLeapfrog.waveFunction <$> head (WebGLLeapfrog.draws s''))
       = Some (Some tgt).
Proof.
  intros slots s s' s''. subst s'' s' slots.
  pose proof (webglLeapfrog_invariant t0 t1 t2 bc k) as (Hs & Hb & Ht & Hf).
  cbv zeta in Hs, Hb, Ht, Hf. fold s in Hs, Hb, Ht, Hf.
  unfold WebGLLeapfrog.getSourceTextures, WebGLLeapfrog.getRenderedTexture,
    WebGLLeapfrog.timestep.
  cbn [WebGLLeapfrog.draws WebGLLeapfrog.step WebGLLeapfrog.textures
       WebGLLeapfrog.fbos WebGLLeapfrog.bcEnabled head fmap option_fmap
       option_map WebGLLeapfrog.oldWaveFunction WebGLLeapfrog.waveFunction].
  rewrite Hs, Hb, Ht, Hf.
  rewrite !(Nat.Div0.add_mod_idemp_l k).
  replace (k + 1 + 1)%nat with (k + 2)%nat by lia.
  destruct (mod3_cases k) as [(-> & -> & ->)|[(-> & -> & ->)|(-> & -> & ->)]].
  - exists t0, t1, t2. repeat split.
  - exists t1, t2, t0. repeat split.
  - exists t2, t0, t1. repeat split.
Qed.

(** ** The norm printed by DumpSchrodinger.js *)

Lemma sumTo_const (n : nat) (c : R) :
  DumpSchrodinger.sumTo n (fun _ => c) = (INR n * c)%R.
Proof.
  induction n as [|n IH].
  - cbn. ring.
  - change (DumpSchrodinger.sumTo (S n) (fun _ => c))
      with (DumpSchrodinger.sumTo n (fun _ => c) + c)%R.
    rewrite IH, S_INR. ring.
Qed.

(** The weights 4, 2, 4, 2, ... the loop of [simpson] applies from an odd
    index on add up to six per pair of points. *)
Lemma simpson_loop_const (c : R) (j a : nat) (s0 : R) :
  (a mod 2 = 1)%nat ->
  fold_left (fun sum i => (sum + INR ((i mod 2 + 1) * 2) * c)%R)
    (seq a (2 * j)) s0
  = (s0 + 6 * INR j * c)%R.
Proof.
  revert a s0. induction j as [|j IH]; intros a s0 Ha.
  - cbn. ring.
  - replace (2 * S j)%nat with (S (S (2 * j))) by lia.
    cbn [seq fold_left].
    assert (Ha1 : (S a mod 2 = 0)%nat) by (rewrite mod2_succ, Ha; reflexivity).
    assert (Ha2 : (S (S a) mod 2 = 1)%nat)
      by (rewrite mod2_succ, Ha1; reflexivity).
    rewrite IH by exact Ha2.
    rewrite Ha, Ha1, S_INR. cbn. ring.
Qed.

(** X21: the trapezoidal sum [integrateWaveFunction] forms has no
    discretisation error on a uniform density: with the numbers of
    JavaScript read as real numbers, as everywhere in this development, its
    value on 2N floats holding N >= 2 samples of one common squared modulus c
    is c times the length.  The rounding of the running sum in binary64 is
    not part of this reading. *)
Theorem integrateWaveFunction_uniform (wavefunction : list R) (L c : R)
    (N : nat) :
  (2 <= N)%nat ->
  List.length wavefunction = (2 * N)%nat ->
  (forall i : nat, (i < N)%nat ->
     DumpSchrodinger.density wavefunction i = c) ->
  DumpSchrodinger.integrateWaveFunction wavefunction L = (c * L)%R.
Proof.
  intros HN Hlen Hc.
  rewrite (integrateWaveFunction_is_trapezoidal wavefunction L N Hlen).
  unfold DumpSchrodinger.trapezoidalRule.
  rewrite (sumTo_ext (N - 1) _ (fun _ => c)).
  - rewrite sumTo_const.
    assert (HI : (1 <= INR (N - 1))%R).
    { change 1%R with (INR 1). apply le_INR. lia. }
    field. lra.
  - intros i Hi. rewrite !Hc by lia. field.
Qed.

Lemma integrateWaveFunction_uniform_witness :
  DumpSchrodinger.integrateWaveFunction SampleUniform.unit3 2 = (1 * 2)%R.
Proof.
  apply (integrateWaveFunction_uniform SampleUniform.unit3 2 1 3).
  - lia.
  - reflexivity.
  - intros i Hi.
    destruct i as [|[|[|i]]]; [| | |lia];
      unfold DumpSchrodinger.density, DumpSchrodinger.at_; cbn; ring.
Defined.

(** X22: on the same uniform input with an odd number N = 2m+1 >= 3 of
    samples, [simpson] returns c times the length times 1 - 2/(3m): it never
    reproduces the norm of a uniform density, the shortfall being the weight
    of the one point its loop does not reach. *)
Theorem simpson_uniform_shortfall (wavefunction : list R) (L c : R)
    (m : nat) :
  (1 <= m)%nat ->
  List.length wavefunction = (2 * (2 * m + 1))%nat ->
  (forall i : nat, (i < 2 * m + 1)%nat ->
     DumpSchrodinger.density wavefunction i = c) ->
  DumpSchrodinger.simpson wavefunction L
  = (c * L * (1 - 2 / (3 * INR m)))%R.
Proof.
  intros Hm Hlen Hc.
  unfold DumpSchrodinger.simpson. cbv zeta.
  rewrite Hlen.
  replace (2 * (2 * m + 1) / 2)%nat with (2 * m + 1)%nat
    by (rewrite (Nat.mul_comm 2 (2 * m + 1)), Nat.div_mul; lia).
  replace (2 * m + 1 - 2 - 1)%nat with (2 * (m - 1))%nat by lia.
  replace (2 * m + 1 - 1)%nat with (2 * m)%nat by lia.
  pose proof (Hc 0%nat ltac:(lia)) as H0.
  pose proof (Hc (2 * m)%nat ltac:(lia)) as Hl.
  unfold DumpSchrodinger.density in H0, Hl.
  change (2 * 0)%nat with 0%nat in H0. change (0 + 1)%nat with 1%nat in H0.
  rewrite H0, Hl.
  rewrite (fold_left_seq_ext _
             (fun sum i => (sum + INR ((i mod 2 + 1) * 2) * c)%R)).
  - rewrite simpson_loop_const by reflexivity.
    rewrite mult_INR, minus_INR by lia.
    assert (HI : (1 <= INR m)%R).
    { change 1%R with (INR 1). apply le_INR. lia. }
    cbn [INR]. field. lra.
  - intros i s' Hi.
    pose proof (Hc i ltac:(lia)) as Hi'.
    unfold DumpSchrodinger.density in Hi'. rewrite Hi'. reflexivity.
Qed.

Lemma simpson_uniform_shortfall_witness :
  DumpSchrodinger.simpson SampleUniform.unit3 2
  = (1 * 2 * (1 - 2 / (3 * INR 1)))%R.
Proof.
  apply (simpson_uniform_shortfall SampleUniform.unit3 2 1 1).
  - lia.
  - reflexivity.
  - intros i Hi.
    destruct i as [|[|[|i]]]; [| | |lia];
      unfold DumpSchrodinger.density, DumpSchrodinger.at_; cbn; ring.
Defined.

(** ** Start up of the workgroup tuned solver *)

(** X23: with WebGPU present and an adapter found, [init] always returns,
    whatever limits the adapter reports; the [step] that follows submits its
    dispatch exactly when the adapter reports both workgroup limits and
    neither is below the resolution, and otherwise throws, naming the
    workgroup size limit whenever that one fails and the invocation limit
    only when it alone fails. *)
Theorem tuned_init_then_step (nav : Tuned.Navigator)
    (limits : gmap string Z) (s : Tuned.Solver) :
  let N := Tuned.xResolution s in
  let fits (limitName : string) :=
    exists limitValue : Z,
      limits !! limitName = Some limitValue /\ N <= limitValue in
  Tuned.gpu nav = true ->
  Tuned.adapter nav = Some limits ->
  exists s' : Tuned.Solver,
    Tuned.init nav s = Tuned.Returned s'
    /\ ((exists s'' : Tuned.Solver,
           Tuned.step s' = Tuned.Returned s''
           /\ Tuned.submitted s'' = S (Tuned.submitted s))
        <-> fits Tuned.workgroupSizeXLimitName
            /\ fits Tuned.invocationsPerWorkgroupLimitName)
    /\ (Tuned.step s'
        = Tuned.Thrown (Tuned.LimitUnavailable Tuned.workgroupSizeXLimitName N)
        <-> ~ fits Tuned.workgroupSizeXLimitName)
    /\ (Tuned.step s'
        = Tuned.Thrown
            (Tuned.LimitUnavailable Tuned.invocationsPerWorkgroupLimitName N)
        <-> fits Tuned.workgroupSizeXLimitName
            /\ ~ fits Tuned.invocationsPerWorkgroupLimitName).
Proof.
  intros N fits Hgpu Hadapter.
  assert (Hfits : forall limitName : string,
            fits limitName
            <-> match limits !! limitName with
                | Some limitValue => N <=? limitValue
                | None => false
                end = true).
  { intros limitName. unfold fits.
    destruct (limits !! limitName) as [v|].
    - rewrite Z.leb_le. split.
      + intros (v' & Hv & Hle). congruence.
      + intros Hle. exists v. split; [reflexivity|exact Hle].
    - split; [intros (v' & Hv & _); discriminate|discriminate]. }
  unfold Tuned.init, Tuned.checkLimit. rewrite Hgpu, Hadapter. cbn [negb].
  eexists. split; [reflexivity|].
  pose proof (Hfits Tuned.workgroupSizeXLimitName) as Hwg.
  pose proof (Hfits Tuned.invocationsPerWorkgroupLimitName) as Hinv.
  fold N.
  destruct (match limits !! Tuned.workgroupSizeXLimitName with
            | Some limitValue => N <=? limitValue
            | None => false
            end) eqn:Ewg;
    destruct (match limits !! Tuned.invocationsPerWorkgroupLimitName with
              | Some limitValue => N <=? limitValue
              | None => false
              end) eqn:Einv;
    unfold Tuned.step;
    cbn [Tuned.workgroupSizeLimitAvailable Tuned.invocationLimitAvailable
         Tuned.jsNot Tuned.xResolution Tuned.submitted];
    fold N; rewrite Hwg, Hinv;
    (split; [|split]); split;
    try (intros (s'' & Hs'' & _); discriminate);
    try discriminate; try reflexivity;
    try (intros [? ?]; discriminate);
    try (intros [? ?]; congruence);
    try (intros ?; congruence);
    try (intros _; split; [reflexivity|discriminate]);
    try (intros _; eexists; split; reflexivity).
Qed.

Lemma tuned_init_then_step_witness :
  exists s' : Tuned.Solver,
    Tuned.init SampleUniform.browserNoLimits SampleAdapter.solver1024
    = Tuned.Returned s'
    /\ Tuned.step s'
       = Tuned.Thrown
           (Tuned.LimitUnavailable Tuned.workgroupSizeXLimitName 1024).
Proof.
  destruct (tuned_init_then_step SampleUniform.browserNoLimits ∅
              SampleAdapter.solver1024 eq_refl eq_refl)
    as (s' & Hinit & _ & Hwg & _).
  exists s'. split; [exact Hinit|].
  apply Hwg. intros (v & Hv & _). discriminate.
Defined.
